(** * Tag generator core: retry, failover, tag normalisation, controllers

    A shallow embedding of the generation-orchestration and
    tag-normalisation engine:

    - [utils/tagHelpers]: levenshteinDistance, createTagLookup, normalizeTags
    - the hook useTagData
    - [utils/retry]: withRetry
    - the providers' generateTags, as far as retry and normalisation go
    - [services/llmService]: generateTags with failover
    - the hooks useSingleGenerator and useBatchGenerator

    JavaScript strings are sequences of UTF-16 code units, so a string is a
    [list N] and [length] is the JS [.length].  Maps are [gmap]s keyed by
    such strings, the [Set] of seen names is a [gset].  Promises are modelled
    by what they settle to; what the environment does (the backend's answers,
    the user pressing stop) is a parameter of each model.

    The definitions come first, the proofs follow. *)

From Stdlib Require Import NArith Ascii String DecimalString.
From stdpp Require Import gmap list.

Set Default Proof Using "Type".
Local Open Scope nat_scope.

(** ** JavaScript strings *)

Definition code_unit := N.
Abbreviation jsstring := (list code_unit).

(** ASCII literals, for readable examples. *)
Definition js (s : string) : jsstring :=
  N_of_ascii <$> list_ascii_of_string s.

(** [s.startsWith(p)] *)
Fixpoint startsWith (p s : jsstring) : bool :=
  match p, s with
  | [], _ => true
  | _ :: _, [] => false
  | a :: p', b :: s' => bool_decide (a = b) && startsWith p' s'
  end.

(** [s.includes(p)] *)
Fixpoint includes (p s : jsstring) : bool :=
  startsWith p s ||
  match s with
  | [] => false
  | _ :: s' => includes p s'
  end.

(** [s.split(sep)] for a one-code-unit separator: never returns the empty
    array ([''.split(',')] is ['']). *)
Fixpoint split (sep : code_unit) (s : jsstring) : list jsstring :=
  match s with
  | [] => [[]]
  | c :: s' =>
      if bool_decide (c = sep) then [] :: split sep s'
      else match split sep s' with
           | [] => [[c]]
           | w :: ws => (c :: w) :: ws
           end
  end.

(** White space and line terminators removed by [String.prototype.trim]. *)
Definition isWhiteSpace (c : code_unit) : bool :=
  bool_decide (c ∈ [9; 10; 11; 12; 13; 32; 160; 5760; 8192; 8193; 8194; 8195;
                    8196; 8197; 8198; 8199; 8200; 8201; 8202; 8232; 8233;
                    8239; 8287; 12288; 65279]%N).

Fixpoint trimStart (s : jsstring) : jsstring :=
  match s with
  | [] => []
  | c :: s' => if isWhiteSpace c then trimStart s' else s
  end.

Definition trim (s : jsstring) : jsstring :=
  reverse (trimStart (reverse (trimStart s))).

(** JS truthiness of a string: the empty string is falsy. *)
Definition truthy (s : jsstring) : bool :=
  match s with [] => false | _ => true end.

Definition newline : code_unit := 10%N.
Definition comma : code_unit := 44%N.

(** ** Edit distance: the specification side *)

Section EditDistance.
Context {A : Type} `{EqDecision A}.


(** One single-character edit, at any position. *)
Inductive edit1 : list A → list A → Prop :=
| edit1_ins c a : edit1 a (c :: a)
| edit1_del c a : edit1 (c :: a) a
| edit1_sub c c' a : c ≠ c' → edit1 (c :: a) (c' :: a)
| edit1_skip h a a' : edit1 a a' → edit1 (h :: a) (h :: a').

(** [edits n a b]: [a] is transformed into [b] by [n] single edits. *)
Inductive edits : nat → list A → list A → Prop :=
| edits_O a : edits 0 a a
| edits_S n a a' b : edit1 a a' → edits n a' b → edits (S n) a b.

Definition min3 (x y z : nat) : nat := x `min` (y `min` z).

Definition subst_cost (x y : A) : nat := if decide (x = y) then 0 else 1.

(** The textbook recurrence, on the first characters. *)
Fixpoint lev (a b : list A) : nat :=
  match a with
  | [] => length b
  | x :: a' =>
      (fix lev_row (b : list A) : nat :=
         match b with
         | [] => length a
         | y :: b' =>
             min3 (S (lev a' b)) (S (lev_row b')) (subst_cost x y + lev a' b')
         end) b
  end.

End EditDistance.

(** ** levenshteinDistance: the dynamic program as written

    The table [d] is an array of arrays of numbers.  A cell is an
    [option nat]: [None] stands for [undefined] or [NaN], which is what a
    read outside an array, and arithmetic on it, would give.  Writing to a
    row that does not exist throws, hence the loops live in [option]. *)

Definition cell := option nat.

(** [l[i] = v]: overwrite inside the array, grow the array otherwise
    (the skipped indices become holes). *)
Fixpoint array_set {X} (hole : X) (l : list X) (i : nat) (v : X) : list X :=
  match l, i with
  | [], 0 => [v]
  | [], S i' => hole :: array_set hole [] i' v
  | _ :: l', 0 => v :: l'
  | x :: l', S i' => x :: array_set hole l' i' v
  end.

(** [for (let k = i; k < i + n; k++) body] *)
Fixpoint for_loop {St} (n i : nat) (body : nat → St → option St) (s : St)
  : option St :=
  match n with
  | 0 => Some s
  | S n' => s' ← body i s; for_loop n' (S i) body s'
  end.

(** [d[i][j]] *)
Definition mget (d : list (list cell)) (i j : nat) : cell :=
  r ← d !! i; c ← r !! j; c.

(** [d[i][j] = v] *)
Definition mset (d : list (list cell)) (i j : nat) (v : cell)
  : option (list (list cell)) :=
  r ← d !! i; Some (array_set [] d i (array_set None r j v)).

Definition cell_add (c : cell) (n : nat) : cell := (λ x, x + n) <$> c.

(** [Math.min(a, b, c)] *)
Definition cell_min3 (a b c : cell) : cell :=
  x ← a; y ← b; z ← c; Some (min3 x y z).

Definition levenshteinDistance (s t : jsstring) : option nat :=
  if bool_decide (s = t) then Some 0
  else if bool_decide (length s = 0) then Some (length t)
  else if bool_decide (length t = 0) then Some (length s)
  else
    d ← for_loop (S (length s)) 0
          (λ i d, Some (array_set [] d i [Some i])) [];
    d ← for_loop (S (length t)) 0 (λ j d, mset d 0 j (Some j)) d;
    d ← for_loop (length s) 1
          (λ i d,
             for_loop (length t) 1
               (λ j d,
                  let cost :=
                    if bool_decide (s !! (i - 1) = t !! (j - 1)) then 0 else 1 in
                  mset d i j
                    (cell_min3 (cell_add (mget d (i - 1) j) 1)
                               (cell_add (mget d i (j - 1)) 1)
                               (cell_add (mget d (i - 1) (j - 1)) cost)))
               d)
          d;
    mget d (length s) (length t).

(** *** Invariant of the table while the loops run *)

Section Table.
Context (s t : jsstring).


(** The entry the recurrence puts at row [i], column [j]. *)
Definition L (i j : nat) : nat := lev (take i s) (take j t).

(** The first [w] cells of row [k]. *)
Definition part_row (k w : nat) : list cell :=
  (λ j, Some (L k j)) <$> seq 0 w.

(** Rows before [i] are complete, row [i] holds [j] cells, later rows hold
    the single cell they were created with. *)
Definition width (i j k : nat) : nat :=
  if decide (k < i) then S (length t) else if decide (k = i) then j else 1.

Definition tbl (i j : nat) : list (list cell) :=
  (λ k, part_row k (width i j k)) <$> seq 0 (S (length s)).

End Table.

(** ** createTagLookup

    [tagDataCsv] is the dataset compiled into the module ([lib/tagData]);
    [toLowerCase] is [String.prototype.toLowerCase].  Both are parameters:
    everything below holds for every dataset and every case mapping. *)

Inductive Lang := en | sc | tc.

#[global] Instance Lang_eq_dec : EqDecision Lang.
Proof. solve_decision. Defined.

(** The two pieces of state the [forEach] over the lines fills:
    [lookupMap] (key to target value) and [validKeys] (every key, in
    registration order, repeats included). *)
Record TagIndex := {
  lookupMap : gmap jsstring jsstring;
  validKeys : list jsstring;
}.

Definition emptyIndex : TagIndex := {| lookupMap := ∅; validKeys := [] |}.

(** [lookupMap.set(k, v); validKeys.push(k)] *)
Definition register (k v : jsstring) (ix : TagIndex) : TagIndex :=
  {| lookupMap := <[k:=v]> (lookupMap ix); validKeys := validKeys ix ++ [k] |}.

(** [parts[i]?.trim()]; a missing column gives [undefined], which the code
    only ever tests for truthiness, like the empty string. *)
Definition column (parts : list jsstring) (i : nat) : jsstring :=
  from_option trim [] (parts !! i).

(** [Math.abs(a - b)] on lengths *)
Definition abs_diff (a b : nat) : nat := (a - b) + (b - a).

Definition maxDistanceFor (normalizedInput : jsstring) : nat :=
  if decide (length normalizedInput < 4) then 0
  else if decide (length normalizedInput < 8) then 2
  else 3.

(** State of the fuzzy search: [bestMatch] and [minDistance]
    ([None] is [Infinity]). *)
Definition fuzzy_state : Type := option jsstring * option nat.

Definition below (dist : nat) (minDistance : option nat) : bool :=
  match minDistance with
  | None => true
  | Some m => bool_decide (dist < m)
  end.

Definition fuzzy_step (normalizedInput : jsstring) (maxDistance : nat)
    (st : fuzzy_state) (key : jsstring) : fuzzy_state :=
  if decide (maxDistance < abs_diff (length key) (length normalizedInput))
  then st
  else
    match levenshteinDistance normalizedInput key with
    | Some dist =>
        if bool_decide (dist ≤ maxDistance) && below dist st.2
        then (Some key, Some dist)
        else st
    | None => st
    end.

Record GeneratedTag := { name : jsstring; score : Z }.

Section TagLookup.
Context (toLowerCase : jsstring → jsstring).
Context (tagDataCsv : jsstring).


(** The target value of a multi-column row. *)
Definition targetValueOf (targetLang : Lang) (parts : list jsstring)
  : jsstring :=
  match targetLang with
  | en => column parts 0
  | sc => column parts 1
  | tc => column parts 2
  end.

(** The body of [lines.forEach]. *)
Definition processLine (targetLang : Lang) (ix : TagIndex) (line : jsstring)
  : TagIndex :=
  let parts := split comma line in
  if decide (length parts < 2) then ix
  else if decide (length parts = 2) then
    let tag := column parts 0 in
    let definition := column parts 1 in
    if truthy tag then
      let ix := register (toLowerCase tag) tag ix in
      if truthy definition
      then register (toLowerCase definition) tag ix
      else ix
    else ix
  else
    let en_ := column parts 0 in
    let sc_ := column parts 1 in
    let tc_ := column parts 2 in
    let targetValue := targetValueOf targetLang parts in
    if truthy targetValue then
      let ix := if truthy en_
                then register (toLowerCase en_) targetValue ix else ix in
      let ix := if truthy sc_ then register sc_ targetValue ix else ix in
      if truthy tc_ then register tc_ targetValue ix else ix
    else ix.

(** [tagDataCsv.split('\n').slice(1)] *)
Definition dataLines : list jsstring := drop 1 (split newline tagDataCsv).

Definition buildIndex (targetLang : Lang) : TagIndex :=
  foldl (processLine targetLang) emptyIndex dataLines.

(** The closure returned by [createTagLookup]. [None] is [null] (or the
    [undefined] of a failed [get]). *)
Definition lookupIn (ix : TagIndex) (tagName : jsstring) : option jsstring :=
  if negb (truthy tagName) then None
  else
    let normalizedInput := trim (toLowerCase tagName) in
    match lookupMap ix !! normalizedInput with
    | Some v => Some v
    | None =>
        let maxDistance := maxDistanceFor normalizedInput in
        let st := foldl (fuzzy_step normalizedInput maxDistance)
                    (None, None) (validKeys ix) in
        match st.1 with
        | Some bestMatch =>
            if truthy bestMatch then lookupMap ix !! bestMatch else None
        | None => None
        end
    end.

Definition createTagLookup (targetLang : Lang) : jsstring → option jsstring :=
  lookupIn (buildIndex targetLang).

(** ** normalizeTags *)


(** The [filter] that removes repeats; [seen] is the [Set] it updates. *)
Fixpoint filterSeen (seen : gset jsstring) (l : list GeneratedTag)
  : list GeneratedTag :=
  match l with
  | [] => []
  | tag :: l' =>
      let duplicate := bool_decide (name tag ∈ seen) in
      let seen := {[name tag]} ∪ seen in
      if duplicate then filterSeen seen l' else tag :: filterSeen seen l'
  end.

(** The callback of [tags.map]: the tag under its canonical name, or
    [null]. *)
Definition renamed (lookup : jsstring → option jsstring) (tag : GeneratedTag)
  : option GeneratedTag :=
  match lookup (name tag) with
  | Some match_ =>
      if truthy match_ then Some {| name := match_; score := score tag |}
      else None
  | None => None
  end.

Definition normalizeTags (tags : list GeneratedTag) (targetLang : Lang)
  : list GeneratedTag :=
  let lookup := createTagLookup targetLang in
  let normalized := omap (renamed lookup) tags in
  filterSeen ∅ normalized.

End TagLookup.

(** [toLowerCase] on the ASCII letters; other code units are left alone.
    Used for the concrete examples only. *)
Definition asciiLower (s : jsstring) : jsstring :=
  (λ c : code_unit, if decide (65 ≤ c ≤ 90)%N then (c + 32)%N else c) <$> s.

(** ** useTagData

    The description map shown next to each tag: every language variant of a
    row, as written, mapped to the row's description. *)

Record TagData := {
  tagLibrary : jsstring;
  tagMap : gmap jsstring jsstring;
}.

(** [array.join(sep)] *)
Fixpoint join (sep : jsstring) (l : list jsstring) : jsstring :=
  match l with
  | [] => []
  | [x] => x
  | x :: l' => x ++ sep ++ join sep l'
  end.

(** [line.trim().length > 0 && !line.trim().startsWith(',==')] *)
Definition isDataLine (line : jsstring) : bool :=
  bool_decide (0 < length (trim line)) && negb (startsWith (js ",==") (trim line)).

(** [lines.slice(1).find(...)] *)
Definition firstDataLine (lines : list jsstring) : option jsstring :=
  List.find isDataLine (drop 1 lines).

Definition isSimpleFormat (lines : list jsstring) : bool :=
  match firstDataLine lines with
  | Some line => bool_decide (length (split comma line) = 2)
  | None => false
  end.

Definition descriptionIndex : nat := 4.

(** The body of the [for] loop; the state is [relevantLines] and [map]. *)
Definition tagDataStep (simple : bool)
    (st : list jsstring * gmap jsstring jsstring) (line : jsstring)
  : list jsstring * gmap jsstring jsstring :=
  let trimmed := trim line in
  if bool_decide (0 < length trimmed) && negb (startsWith (js ",==") trimmed)
  then
    let values := split comma trimmed in
    if simple && bool_decide (2 ≤ length values) then
      let tag := column values 0 in
      let description := column values 1 in
      if truthy tag then
        (st.1 ++ [trimmed],
         if truthy description then <[tag:=description]> st.2 else st.2)
      else st
    else if bool_decide (descriptionIndex < length values) then
      let enName := column values 0 in
      let scName := column values 1 in
      let tcName := column values 2 in
      let description := column values descriptionIndex in
      (st.1 ++ [trimmed],
       if truthy description then
         let m := if truthy enName then <[enName:=description]> st.2 else st.2 in
         let m := if truthy scName then <[scName:=description]> m else m in
         if truthy tcName then <[tcName:=description]> m else m
       else st.2)
    else st
  else st.

Definition simpleHeader : jsstring :=
  [27161; 31844; 44; 27161; 31844; 23450; 32681]%N.
Definition multilingualHeader : jsstring :=
  [21407; 22987; 26631; 31614; 44; 21517; 31216; 44; 21488; 28771; 32763;
   35695; 44; 20633; 35387; 44; 25551; 36848]%N.

(** [csvContent] is [string | null]. *)
Definition useTagData (csvContent : option jsstring) : TagData :=
  match csvContent with
  | None => {| tagLibrary := []; tagMap := ∅ |}
  | Some csv =>
      if negb (truthy csv) then {| tagLibrary := []; tagMap := ∅ |}
      else
        let lines := split newline csv in
        let simple := isSimpleFormat lines in
        let st := foldl (tagDataStep simple) ([], ∅) (drop 1 lines) in
        let header := if simple then simpleHeader else multilingualHeader in
        {| tagLibrary := header ++ [newline] ++ join [newline] st.1;
           tagMap := st.2 |}
  end.

(** ** Errors and promise outcomes *)

Inductive ErrorClass := DOMException | TypeError | SyntaxError | PlainError.

#[global] Instance ErrorClass_eq_dec : EqDecision ErrorClass.
Proof. solve_decision. Defined.

(** What is thrown on these paths is always an [Error] object (a
    [DOMException] is one too). *)
Record JsError := {
  errClass : ErrorClass;
  errName : jsstring;
  errMessage : jsstring;
}.

#[global] Instance JsError_eq_dec : EqDecision JsError.
Proof. solve_decision. Defined.

(** [new Error(msg)] *)
Definition newError (msg : jsstring) : JsError :=
  {| errClass := PlainError; errName := js "Error"; errMessage := msg |}.

(** [new DOMException('Aborted', 'AbortError')] *)
Definition abortError : JsError :=
  {| errClass := DOMException; errName := js "AbortError";
     errMessage := js "Aborted" |}.

(** [err instanceof DOMException && err.name === 'AbortError'] *)
Definition isAbortError (e : JsError) : bool :=
  bool_decide (errClass e = DOMException) &&
  bool_decide (errName e = js "AbortError").

(** A settled promise. *)
Inductive outcome (T : Type) :=
| Return (v : T)
| Throw (e : JsError).
Arguments Return {T} v.
Arguments Throw {T} e.

(** ** withRetry

    The operation [fn] is given by what its successive calls settle to: the
    call made in iteration [attempt] settles to [fn attempt].  The result
    carries the trace of calls and sleeps next to the outcome.

    Numbers: the budget [retries] is a non-negative integer, and so are
    [baseDelay] and [backoffFactor]; a delay is the exact product, which is
    what the double-precision [baseDelay * Math.pow(backoffFactor, attempt)]
    gives as long as the power and the product stay below 2^53 (as they do
    for the default arguments).  [Slept ms] is the call of [setTimeout] with
    the delay [ms]. *)

Inductive retry_event :=
| Called (attempt : nat)
| Slept (ms : N).

#[global] Instance retry_event_eq_dec : EqDecision retry_event.
Proof. solve_decision. Defined.

Definition isAuthError (errorMessage : jsstring) : bool :=
  includes (js "API key") errorMessage || includes (js "401") errorMessage ||
  includes (js "403") errorMessage.

Definition isBadRequest (errorMessage : jsstring) : bool :=
  includes (js "400") errorMessage && negb (includes (js "safety") errorMessage).

Section WithRetry.
Context {T : Type} (fn : nat → outcome T).
Context (baseDelay backoffFactor : N).

(** The loop from iteration [attempt] on, with [remaining = retries - attempt]
    further iterations allowed; [attempt === retries] is [remaining = 0]. *)
Fixpoint retryFrom (remaining attempt : nat) : list retry_event * outcome T :=
  match fn attempt with
  | Return v => ([Called attempt], Return v)
  | Throw error =>
      if isAuthError (errMessage error) || isBadRequest (errMessage error)
      then ([Called attempt], Throw error)
      else
        match remaining with
        | 0 => ([Called attempt], Throw error)
        | S remaining' =>
            let delay := (baseDelay * backoffFactor ^ N.of_nat attempt)%N in
            let r := retryFrom remaining' (S attempt) in
            (Called attempt :: Slept delay :: r.1, r.2)
        end
  end.

End WithRetry.

Definition withRetry {T} (fn : nat → outcome T) (retries : nat) (baseDelay backoffFactor : N)
  : list retry_event * outcome T :=
  retryFrom fn baseDelay backoffFactor retries 0.

(** The defaults: [retries = 3], [baseDelay = 1000], [backoffFactor = 2]. *)
Definition withRetryDefault {T} (fn : nat → outcome T)
  : list retry_event * outcome T :=
  withRetry fn 3 1000 2.

Definition callsIn (tr : list retry_event) : list nat :=
  omap (λ ev, match ev with Called n => Some n | Slept _ => None end) tr.

Definition sleepsIn (tr : list retry_event) : list N :=
  omap (λ ev, match ev with Slept ms => Some ms | Called _ => None end) tr.

(** The error [OpenAICompatibleProvider.performGeneration] throws for a
    response that is not [ok], from its status and the message found in the
    body. *)
Definition statusText (status : nat) : jsstring :=
  js (NilEmpty.string_of_uint (Nat.to_uint status)).

Definition openAIStatusError (status : nat) (errorMessage : jsstring) : JsError :=
  if decide (status = 429)
  then newError (js "Rate limit exceeded (429): " ++ errorMessage)
  else if decide (500 ≤ status)
  then newError (js "Server error (" ++ statusText status ++ js "): "
                 ++ errorMessage)
  else if decide (status = 401 ∨ status = 403)
  then newError (js "Auth failed: " ++ errorMessage)
  else newError (js "API Request failed (" ++ statusText status ++ js "): "
                 ++ errorMessage).

(** ** Types of the services *)

Inductive LlmProvider := gemini | openai | grok | ollama | lmstudio | custom.

#[global] Instance LlmProvider_eq_dec : EqDecision LlmProvider.
Proof. solve_decision. Defined.

(** The string a provider identity is. *)
Definition providerText (p : LlmProvider) : jsstring :=
  match p with
  | gemini => js "gemini" | openai => js "openai" | grok => js "grok"
  | ollama => js "ollama" | lmstudio => js "lmstudio" | custom => js "custom"
  end.

Record LlmConfig := {
  provider : LlmProvider;
  enableFailover : bool;                  (* absent reads as false *)
  failoverProvider : option LlmProvider;
}.

Inductive DescriptionStyle := style_default | style_emotion | style_plot | style_teen.

Record GenerationSettings := {
  tagsCount : nat;
  descriptionStyle : DescriptionStyle;
  useThinking : bool;
  tagLanguage : option Lang;               (* [settings.tagLanguage || 'sc'] *)
}.

Record GeneratedTagsResult := {
  description : jsstring;
  tags : list GeneratedTag;
}.

Record GenerationResponse := {
  result : GeneratedTagsResult;
  usedFailover : bool;
  providerName : LlmProvider;
}.

(** The arguments of a [generateTags] call; the signal is named by the
    number of the [AbortController] it belongs to. *)
Record Request := {
  imageBase64 : jsstring;
  mimeType : jsstring;
  tagLibraryCsv : jsstring;
  settings : GenerationSettings;
  pinnedTags : option (list jsstring);
  excludedTags : option (list jsstring);
  signal : option nat;
}.

(** ** Provider: what follows the retried network call *)

Record ParsedJson := {
  parsedDescription : option jsstring;
  parsedTags : option (list GeneratedTag);   (* [Some] iff [Array.isArray] *)
}.

(** What [JSON.parse] returns, as far as the code looks at it: [null], on
    which reading a property throws, or a value with its [description] and
    [tags]. *)
Inductive ParsedValue :=
| ParsedNull
| ParsedObject (fields : ParsedJson).

(** [parsedResult.description] on [null]. *)
Definition nullDescriptionError : JsError :=
  {| errClass := TypeError; errName := js "TypeError";
     errMessage := js "Cannot read properties of null (reading 'description')" |}.

Definition authFailedMessage : jsstring :=
  [39511; 35657; 22833; 25943; 65306; 65; 80; 73; 32; 37329; 38000; 28961;
   25928; 25110; 36986; 22833; 12290]%N.
Definition rateLimitedMessage : jsstring :=
  [35531; 27714; 38971; 29575; 36229; 38480; 65306; 31995; 32113; 37325;
   35430; 24460; 20173; 28982; 22833; 25943; 12290]%N.
Definition blockedMessage : jsstring :=
  [20839; 23481; 34987; 23553; 37782; 65306; 35531; 27714; 34987; 32; 65; 73;
   32; 30340; 23433; 20840; 36942; 28670; 22120; 38459; 25803; 12290]%N.

Section Provider.
Context (toLowerCase : jsstring → jsstring).
Context (tagDataCsv : jsstring).
(** [cleanJsonOutput], [JSON.parse] and the prompt template; the backend
    answers a prompt, call after call. *)
Context (cleanJsonOutput : jsstring → jsstring).
Context (JSON_parse : jsstring → option ParsedValue).
Context (createPrompt : jsstring → GenerationSettings →
                        option (list jsstring) → option (list jsstring) → jsstring).
Context (backend : jsstring → nat → outcome jsstring).

(** The [try] block after [withRetry]. *)
Definition postProcess (rawText : jsstring) (settings : GenerationSettings)
  : outcome GeneratedTagsResult :=
  if negb (truthy rawText)
  then Throw (newError (js "AI returned an empty response."))
  else
    match JSON_parse (cleanJsonOutput rawText) with
    | None =>
        Throw {| errClass := SyntaxError; errName := js "SyntaxError";
                 errMessage := js "Failed to parse AI response as JSON." |}
    | Some ParsedNull => Throw nullDescriptionError
    | Some (ParsedObject parsed) =>
        match parsedDescription parsed, parsedTags parsed with
        | Some d, Some rawTags =>
            if truthy d then
              let targetLang := default sc (tagLanguage settings) in
              Return {| description := d;
                        tags := normalizeTags toLowerCase tagDataCsv rawTags
                                  targetLang |}
            else Throw (newError (js "Invalid JSON structure: missing core fields."))
        | _, _ =>
            Throw (newError (js "Invalid JSON structure: missing core fields."))
        end
    end.

(** The [catch] block of [GeminiProvider.generateTags]. *)
Definition rethrow (error : JsError) : JsError :=
  if isAbortError error then error
  else if includes (js "API key") (errMessage error) then newError authFailedMessage
  else if includes (js "429") (errMessage error) then newError rateLimitedMessage
  else if includes (js "blocked") (errMessage error) then newError blockedMessage
  else error.

Definition providerGenerateTags (req : Request) : outcome GeneratedTagsResult :=
  let prompt := createPrompt (tagLibraryCsv req) (settings req)
                  (pinnedTags req) (excludedTags req) in
  match (withRetryDefault (backend prompt)).2 with
  | Return rawText =>
      match postProcess rawText (settings req) with
      | Return r => Return r
      | Throw e => Throw (rethrow e)
      end
  | Throw e => Throw (rethrow e)
  end.

End Provider.

(** ** llmService.generateTags: primary, then failover *)

(** A provider instance, as far as [generateTags] goes. *)
Definition ProviderService : Type := Request → outcome GeneratedTagsResult.

(** What the orchestrator finds around it: the active provider (or the
    error of building it), the provider factory, and the backup key among the
    stored credentials of [gemini]. *)
Record Environment := {
  ensureProviderIsActive : outcome ProviderService;
  createProvider : LlmProvider → option jsstring → outcome ProviderService;
  backupApiKey : option jsstring;
}.

Inductive service_event :=
| CalledPrimary
| CreatedBackup (p : LlmProvider) (overrideApiKey : option jsstring)
| CalledBackup (p : LlmProvider).

#[global] Instance service_event_eq_dec : EqDecision service_event.
Proof. solve_decision. Defined.

Definition combinedMessage (primary backup : LlmProvider) (err failoverErr : JsError)
  : jsstring :=
  [20027; 35201; 26381; 21209; 32; 40]%N ++ providerText primary ++
  [41; 32; 22833; 25943; 58; 32]%N ++ errMessage err ++
  [46; 32; 10; 20633; 25588; 26381; 21209; 32; 40]%N ++ providerText backup ++
  [41; 32; 20063; 22833; 25943; 58; 32]%N ++ errMessage failoverErr.

Definition cannotConnectMessage : jsstring :=
  [28961; 27861; 36899; 25509; 21040; 32; 65; 73; 32; 26381; 21209; 12290;
   35531; 27298; 26597; 20282; 26381; 22120; 26159; 21542; 36939; 34892;
   20013; 65292; 32178; 22336; 26159; 21542; 27491; 30906; 65292; 20197;
   21450; 32; 67; 79; 82; 83; 32; 35373; 23450; 12290]%N.

(** The [catch] of the inner [try]. *)
Definition failoverFailed (config : LlmConfig) (backup : LlmProvider)
    (err failoverErr : JsError) : outcome GenerationResponse :=
  if isAbortError failoverErr then Throw failoverErr
  else Throw (newError (combinedMessage (provider config) backup err failoverErr)).

(** [ensureProviderIsActive()] and the call of the provider's
    [generateTags], the body of the outer [try]. *)
Definition primaryAttempt (env : Environment) (req : Request)
  : list service_event * outcome GeneratedTagsResult :=
  match ensureProviderIsActive env with
  | Return p => ([CalledPrimary], p req)
  | Throw e => ([], Throw e)
  end.

(** The key passed to the factory for the backup: the dedicated backup key
    when the backup is [gemini] and one is stored. *)
Definition failoverApiKey (env : Environment) (backup : LlmProvider)
  : option jsstring :=
  if decide (backup = gemini) then
    match backupApiKey env with
    | Some k => if truthy k then Some k else None
    | None => None
    end
  else None.

Definition generateTags (env : Environment) (config : LlmConfig) (req : Request)
  : list service_event * outcome GenerationResponse :=
  let primary := primaryAttempt env req in
  match primary.2 with
  | Return r =>
      (primary.1,
       Return {| result := r; usedFailover := false;
                 providerName := provider config |})
  | Throw err =>
      if isAbortError err then (primary.1, Throw err)
      else
        match enableFailover config, failoverProvider config with
        | true, Some backup =>
            let failoverApiKey := failoverApiKey env backup in
            match createProvider env backup failoverApiKey with
            | Return p =>
                (primary.1 ++ [CreatedBackup backup failoverApiKey;
                               CalledBackup backup],
                 match p req with
                 | Return r =>
                     Return {| result := r; usedFailover := true;
                               providerName := backup |}
                 | Throw failoverErr => failoverFailed config backup err failoverErr
                 end)
            | Throw failoverErr =>
                (primary.1 ++ [CreatedBackup backup failoverApiKey],
                 failoverFailed config backup err failoverErr)
            end
        | _, _ =>
            (primary.1,
             if decide (errClass err = TypeError)
             then Throw (newError cannotConnectMessage)
             else Throw err)
        end
  end.

(** How often the backup provider's [generateTags] was called. *)
Definition backupCalls (tr : list service_event) : nat :=
  length (omap (λ ev, match ev with CalledBackup p => Some p | _ => None end) tr).

(** The same request with another tag-library text. *)
Definition withLibrary (lib : jsstring) (req : Request) : Request :=
  {| imageBase64 := imageBase64 req; mimeType := mimeType req;
     tagLibraryCsv := lib; settings := settings req;
     pinnedTags := pinnedTags req; excludedTags := excludedTags req;
     signal := signal req |}.

(** ** useBatchGenerator

    React state is a record; [setX(prev => ...)] is an update of it.  The
    [AbortController] in [abortControllerRef.current] is [None] for [null]
    and [Some aborted] otherwise. *)

Inductive BatchItemStatus := pending | processing | completed | error.

#[global] Instance BatchItemStatus_eq_dec : EqDecision BatchItemStatus.
Proof. solve_decision. Defined.

Record BatchItem := {
  id : jsstring;
  base64 : jsstring;
  fileType : jsstring;
  status : BatchItemStatus;
  itemResult : option GeneratedTagsResult;
  itemError : option jsstring;
}.

Inductive BatchToast :=
| BatchStoppedToast
| BatchFinishedToast (completedCount failedCount : nat).

Record BatchState := {
  batchItems : list BatchItem;
  activeBatchItemId : option jsstring;
  batchSummary : option (nat * nat);       (* completed, failed *)
  isProcessing : bool;
  batchController : option bool;
  batchToasts : list BatchToast;            (* calls of onToast, oldest first *)
  itemSuccesses : list (GeneratedTagsResult * jsstring); (* calls of onItemSuccess *)
}.

(** What happens while one [generateTags] call is awaited: the user may
    press stop, and the call settles. *)
Record Awaited := {
  pressedStop : bool;
  settled : outcome GenerationResponse;
}.

(** [prev.map(i => i.id === item.id ? f(i) : i)] *)
Definition updateItem (itemId : jsstring) (f : BatchItem → BatchItem)
    (items : list BatchItem) : list BatchItem :=
  (λ i, if decide (id i = itemId) then f i else i) <$> items.

Definition withStatus (s : BatchItemStatus) (i : BatchItem) : BatchItem :=
  {| id := id i; base64 := base64 i; fileType := fileType i; status := s;
     itemResult := itemResult i; itemError := itemError i |}.

Definition withCompleted (r : GeneratedTagsResult) (i : BatchItem) : BatchItem :=
  {| id := id i; base64 := base64 i; fileType := fileType i;
     status := completed; itemResult := Some r; itemError := itemError i |}.

Definition withError (msg : jsstring) (i : BatchItem) : BatchItem :=
  {| id := id i; base64 := base64 i; fileType := fileType i;
     status := error; itemResult := itemResult i; itemError := Some msg |}.

Definition setBatchItems (f : list BatchItem → list BatchItem) (st : BatchState)
  : BatchState :=
  {| batchItems := f (batchItems st);
     activeBatchItemId := activeBatchItemId st;
     batchSummary := batchSummary st; isProcessing := isProcessing st;
     batchController := batchController st; batchToasts := batchToasts st;
     itemSuccesses := itemSuccesses st |}.

Definition setActiveBatchItemId (a : option jsstring) (st : BatchState)
  : BatchState :=
  {| batchItems := batchItems st; activeBatchItemId := a;
     batchSummary := batchSummary st; isProcessing := isProcessing st;
     batchController := batchController st; batchToasts := batchToasts st;
     itemSuccesses := itemSuccesses st |}.

Definition batchStopGeneration (st : BatchState) : BatchState :=
  match batchController st with
  | Some _ =>
      {| batchItems := batchItems st; activeBatchItemId := activeBatchItemId st;
         batchSummary := batchSummary st; isProcessing := false;
         batchController := None;
         batchToasts := batchToasts st ++ [BatchStoppedToast];
         itemSuccesses := itemSuccesses st |}
  | None => st
  end.

Definition onItemSuccess (r : GeneratedTagsResult) (b : jsstring)
    (st : BatchState) : BatchState :=
  {| batchItems := batchItems st; activeBatchItemId := activeBatchItemId st;
     batchSummary := batchSummary st; isProcessing := isProcessing st;
     batchController := batchController st; batchToasts := batchToasts st;
     itemSuccesses := itemSuccesses st ++ [(r, b)] |}.

(** [abortControllerRef.current?.signal.aborted] *)
Definition signalAborted (c : option bool) : bool :=
  match c with Some true => true | _ => false end.

(** The message of the [TypeError] raised by [null.signal] (V8 wording). *)
Definition nullSignalMessage : jsstring :=
  js "Cannot read properties of null (reading 'signal')".

Section BatchLoop.
Context (env : BatchItem → Awaited).

(** The [for (const item of batchItems)] loop over the snapshot. *)
Fixpoint batchLoop (items : list BatchItem) (st : BatchState)
    (completedCount failedCount : nat) : BatchState * nat * nat :=
  match items with
  | [] => (st, completedCount, failedCount)
  | item :: rest =>
      if signalAborted (batchController st)
      then (st, completedCount, failedCount)
      else if decide (status item = completed)
      then batchLoop rest st (S completedCount) failedCount
      else
        let st := setBatchItems (updateItem (id item) (withStatus processing)) st in
        let st := setActiveBatchItemId (Some (id item)) st in
        match batchController st with
        | None =>
            (* reading [.signal] of [null] throws inside the [try] *)
            let st := setBatchItems
                        (updateItem (id item) (withError nullSignalMessage)) st in
            batchLoop rest st completedCount (S failedCount)
        | Some _ =>
            let a := env item in
            let st := if pressedStop a then batchStopGeneration st else st in
            match settled a with
            | Return response =>
                let st := setBatchItems
                            (updateItem (id item) (withCompleted (result response)))
                            st in
                let st := onItemSuccess (result response) (base64 item) st in
                batchLoop rest st (S completedCount) failedCount
            | Throw err =>
                if isAbortError err then
                  (setBatchItems (updateItem (id item) (withStatus pending)) st,
                   completedCount, failedCount)
                else
                  let st := setBatchItems
                              (updateItem (id item) (withError (errMessage err)))
                              st in
                  batchLoop rest st completedCount (S failedCount)
            end
        end
  end.

(** [generateBatch]; [tagDataLoaded] is the truthiness of [tagDataCsv]. *)
Definition generateBatch (tagDataLoaded : bool) (st : BatchState) : BatchState :=
  if isProcessing st || negb tagDataLoaded then st
  else
    let snapshot := batchItems st in
    let activeAtCall := activeBatchItemId st in
    let st :=
      {| batchItems := batchItems st; activeBatchItemId := activeBatchItemId st;
         batchSummary := None; isProcessing := true;
         batchController := Some false; batchToasts := batchToasts st;
         itemSuccesses := itemSuccesses st |} in
    let '(st, completedCount, failedCount) := batchLoop snapshot st 0 0 in
    let st :=
      {| batchItems := batchItems st; activeBatchItemId := activeBatchItemId st;
         batchSummary := batchSummary st; isProcessing := false;
         batchController := None; batchToasts := batchToasts st;
         itemSuccesses := itemSuccesses st |} in
    if bool_decide (0 < completedCount) || bool_decide (0 < failedCount) then
      let st :=
        match snapshot with
        | first :: _ =>
            if negb (from_option truthy false activeAtCall)
            then setActiveBatchItemId (Some (id first)) st else st
        | [] => st
        end in
      {| batchItems := batchItems st; activeBatchItemId := activeBatchItemId st;
         batchSummary := Some (completedCount, failedCount);
         isProcessing := isProcessing st;
         batchController := batchController st;
         batchToasts :=
           batchToasts st ++ [BatchFinishedToast completedCount failedCount];
         itemSuccesses := itemSuccesses st |}
    else st.

End BatchLoop.

(** ** useSingleGenerator

    Every [AbortController] ever created gets a number; [controllers] records
    for each whether [abort()] was called on it, [singleController] is
    [abortControllerRef.current].  The generation started by the [g]-th call
    of [generate] passes the signal of controller [g].  The progress labels
    shown by the timers are cosmetic and not modelled, only which timers are
    pending. *)

Inductive LoadingStep := PreparingImage | Rethinking.

Inductive SingleEffect :=
| Started (g : nat)
| SwitchedToast (g : nat) (p : LlmProvider)
| DoneToast (g : nat)
| OnSuccess (g : nat) (r : GeneratedTagsResult)
| FailedToast (g : nat)
| StoppedToast.

Record SingleState := {
  generatedResult : option GeneratedTagsResult;
  loadingStep : option LoadingStep;
  singleError : option jsstring;
  failoverInfo : option (bool * LlmProvider);
  loadingTimers : list (nat * N);           (* owner generation, delay in ms *)
  singleController : option nat;
  controllers : list bool;
  awaiting : list nat;                      (* generations still in flight *)
  effects : list SingleEffect;              (* oldest first *)
}.

Definition initialSingle : SingleState :=
  {| generatedResult := None; loadingStep := None; singleError := None;
     failoverInfo := None; loadingTimers := []; singleController := None;
     controllers := []; awaiting := []; effects := [] |}.

(** [abortControllerRef.current.abort()] when there is a current one. *)
Definition abortCurrent (st : SingleState) : list bool :=
  match singleController st with
  | Some c => <[c:=true]> (controllers st)
  | None => controllers st
  end.

Definition notLoadedMessage : jsstring :=
  [27161; 31844; 24235; 23578; 26410; 36617; 20837]%N.

Definition setError (msg : jsstring) (st : SingleState) : SingleState :=
  {| generatedResult := generatedResult st; loadingStep := loadingStep st;
     singleError := Some msg; failoverInfo := failoverInfo st;
     loadingTimers := loadingTimers st;
     singleController := singleController st; controllers := controllers st;
     awaiting := awaiting st; effects := effects st |}.

(** [generate(file, base64, tagLibrary, isRegeneration)] up to its [await];
    [tagDataLoaded] is the truthiness of [tagDataCsv]. *)
Definition generate (tagDataLoaded isRegeneration : bool) (st : SingleState)
  : SingleState :=
  if negb tagDataLoaded then setError notLoadedMessage st else
  let g := length (controllers st) in
  {| generatedResult := if isRegeneration then generatedResult st else None;
     loadingStep := Some (if isRegeneration then Rethinking else PreparingImage);
     singleError := None;
     failoverInfo := if isRegeneration then failoverInfo st else None;
     loadingTimers :=
       [(g, 1000); (g, 3000); (g, 6000); (g, 9000); (g, 12000)]%N;
     singleController := Some g;
     controllers := abortCurrent st ++ [false];
     awaiting := awaiting st ++ [g];
     effects := effects st ++ [Started g] |}.

(** The rest of [generate] for generation [g], once its call has settled:
    the success path or the [catch], then the [finally]. *)
Definition settle (g : nat) (o : outcome GenerationResponse) (st : SingleState)
  : SingleState :=
  if bool_decide (g ∈ awaiting st) then
    let waiting := filter (λ h, h ≠ g) (awaiting st) in
    match o with
    | Return response =>
        {| generatedResult := Some (result response);
           loadingStep := None; singleError := singleError st;
           failoverInfo :=
             if usedFailover response then Some (true, providerName response)
             else None;
           loadingTimers := []; singleController := None;
           controllers := controllers st; awaiting := waiting;
           effects :=
             effects st ++
             (if usedFailover response
              then [SwitchedToast g (providerName response)] else []) ++
             [DoneToast g; OnSuccess g (result response)] |}
    | Throw err =>
        {| generatedResult := generatedResult st;
           loadingStep := None;
           singleError :=
             if isAbortError err then singleError st else Some (errMessage err);
           failoverInfo := failoverInfo st;
           loadingTimers := []; singleController := None;
           controllers := controllers st; awaiting := waiting;
           effects :=
             effects st ++ (if isAbortError err then [] else [FailedToast g]) |}
    end
  else st.

Definition stopGeneration (st : SingleState) : SingleState :=
  match singleController st with
  | Some _ =>
      {| generatedResult := generatedResult st; loadingStep := None;
         singleError := singleError st; failoverInfo := failoverInfo st;
         loadingTimers := []; singleController := None;
         controllers := abortCurrent st; awaiting := awaiting st;
         effects := effects st ++ [StoppedToast] |}
  | None => st
  end.

Inductive SingleEvent :=
| Generate (tagDataLoaded isRegeneration : bool)
| Settle (g : nat) (o : outcome GenerationResponse)
| StopGeneration.

Definition singleStep (st : SingleState) (ev : SingleEvent) : SingleState :=
  match ev with
  | Generate loaded r => generate loaded r st
  | Settle g o => settle g o st
  | StopGeneration => stopGeneration st
  end.

Definition runSingle (evs : list SingleEvent) : SingleState :=
  foldl singleStep initialSingle evs.

(** The tokens of the generations in flight on which [abort()] was never
    called. *)
Definition liveTokens (st : SingleState) : list nat :=
  filter (λ g, controllers st !! g = Some false) (awaiting st).

(** ** Specification-side definitions *)

Section TagLookupSpec.
Context (toLowerCase : jsstring → jsstring).

(** The keys one line registers, with their values, in order. *)
Definition lineEntries (targetLang : Lang) (line : jsstring)
  : list (jsstring * jsstring) :=
  let parts := split comma line in
  if decide (length parts < 2) then []
  else if decide (length parts = 2) then
    if truthy (column parts 0) then
      (toLowerCase (column parts 0), column parts 0) ::
      (if truthy (column parts 1)
       then [(toLowerCase (column parts 1), column parts 0)] else [])
    else []
  else
    let targetValue := targetValueOf targetLang parts in
    if truthy targetValue then
      (if truthy (column parts 0)
       then [(toLowerCase (column parts 0), targetValue)] else []) ++
      (if truthy (column parts 1) then [(column parts 1, targetValue)] else []) ++
      (if truthy (column parts 2) then [(column parts 2, targetValue)] else [])
    else [].

Definition registerAll (es : list (jsstring * jsstring)) (ix : TagIndex)
  : TagIndex :=
  foldl (λ ix e, register e.1 e.2 ix) ix es.

(** Line [line] registers key [k] with value [v], said column by column:
    a two-column line registers its tag, and its definition, lower-cased,
    for the tag; a line of three columns or more whose target-language
    column is not empty registers its first column lower-cased and its
    second and third columns as they are, for the target-language column. *)
Definition registers (targetLang : Lang) (line k v : jsstring) : Prop :=
  let parts := split comma line in
  (length parts = 2 ∧ v = column parts 0 ∧ v ≠ [] ∧
   (k = toLowerCase (column parts 0) ∨
    (column parts 1 ≠ [] ∧ k = toLowerCase (column parts 1))))
  ∨
  (2 < length parts ∧ v = targetValueOf targetLang parts ∧ v ≠ [] ∧
   ((column parts 0 ≠ [] ∧ k = toLowerCase (column parts 0)) ∨
    (column parts 1 ≠ [] ∧ k = column parts 1) ∨
    (column parts 2 ≠ [] ∧ k = column parts 2))).

End TagLookupSpec.

(** [best] is the first key of [keys] at the least distance from [c], and
    that distance is at most [d]. *)
Definition firstClosest (c : jsstring) (d : nat) (keys : list jsstring)
    (best : jsstring) : Prop :=
  ∃ pre post,
    keys = pre ++ best :: post ∧ lev c best ≤ d ∧
    (∀ k, k ∈ pre → lev c best < lev c k) ∧
    (∀ k, k ∈ post → lev c best ≤ lev c k).

(** The entries of [l] whose name did not occur before them. *)
Definition firstOfName (l : list GeneratedTag) (t : GeneratedTag) : Prop :=
  ∃ i, l !! i = Some t ∧ ∀ j u, j < i → l !! j = Some u → name u ≠ name t.

(** In [useTagData], line [line] puts description [desc] under key [k]:
    it is a data line; read as a simple row when the format is simple and it
    has two columns or more, else as a multilingual row when it has more than
    four columns; the description is not empty, and neither is the key. *)
Definition describes (simple : bool) (line k desc : jsstring) : Prop :=
  let values := split comma (trim line) in
  isDataLine line = true ∧ k ≠ [] ∧ desc ≠ [] ∧
  ((simple = true ∧ 2 ≤ length values ∧
    k = column values 0 ∧ desc = column values 1)
   ∨
   (¬ (simple = true ∧ 2 ≤ length values) ∧
    descriptionIndex < length values ∧
    desc = column values descriptionIndex ∧
    (k = column values 0 ∨ k = column values 1 ∨ k = column values 2))).

(** [line] is the first data line after the header. *)
Definition isFirstDataLine (lines : list jsstring) (line : jsstring) : Prop :=
  ∃ pre post,
    drop 1 lines = pre ++ line :: post ∧
    (∀ l, l ∈ pre → isDataLine l = false) ∧ isDataLine line = true.

(** The entries one line adds to the description map, in order. *)
Definition tagDataEntries (simple : bool) (line : jsstring)
  : list (jsstring * jsstring) :=
  let values := split comma (trim line) in
  if isDataLine line then
    if simple && bool_decide (2 ≤ length values) then
      if truthy (column values 0) && truthy (column values 1)
      then [(column values 0, column values 1)] else []
    else if bool_decide (descriptionIndex < length values) then
      let description := column values descriptionIndex in
      if truthy description then
        (if truthy (column values 0) then [(column values 0, description)] else [])
        ++ (if truthy (column values 1) then [(column values 1, description)] else [])
        ++ (if truthy (column values 2) then [(column values 2, description)] else [])
      else []
    else []
  else [].

Definition insertAll (es : list (jsstring * jsstring))
    (m : gmap jsstring jsstring) : gmap jsstring jsstring :=
  foldl (λ m e, <[e.1:=e.2]> m) m es.

(** ** Batch runs: what the environment does to an item *)

Section BatchSpec.
Context (env : BatchItem → Awaited).

(** The call for the item is rejected with the AbortError. *)
Definition cancelled (i : BatchItem) : bool :=
  match settled (env i) with
  | Throw e => isAbortError e
  | Return _ => false
  end.

(** Nobody presses stop during the call, and it is not rejected with the
    AbortError. *)
Definition undisturbed (i : BatchItem) : bool :=
  negb (pressedStop (env i)) && negb (cancelled i).

(** The item adds one to [completedCount]: it was completed already, or its
    call succeeds. *)
Definition countsCompleted (i : BatchItem) : bool :=
  bool_decide (status i = completed) ||
  match settled (env i) with Return _ => true | Throw _ => false end.

Definition completedAmong (items : list BatchItem) : nat :=
  length (filter (λ i, countsCompleted i = true) items).

Definition failedAmong (items : list BatchItem) : nat :=
  length (filter (λ i, countsCompleted i = false) items).

(** What the loop leaves of an item it went through without
    cancellation. *)
Definition processed (i : BatchItem) : BatchItem :=
  if decide (status i = completed) then i
  else match settled (env i) with
       | Return response => withCompleted (result response) i
       | Throw err => withError (errMessage err) i
       end.

End BatchSpec.

(** The classifier of [withRetry]: such an error is thrown on at once. *)
Definition terminal (e : JsError) : bool :=
  isAuthError (errMessage e) || isBadRequest (errMessage e).

(** ** Concrete inputs for the examples *)

Definition simpleCsv : jsstring :=
  js "tag,definition" ++ [newline] ++ js "abc,xyz" ++ [newline] ++
  js "Action,fight scene".

Definition mixedCsv : jsstring :=
  js "en,sc,tc,note,desc" ++ [newline] ++ js "Action,NTR,dz,," ++ [newline] ++
  js "abc,xyz".

(** A simple-format dataset with the tag Action, and a multilingual row
    (action, its sc name, its tc name, no note, a description), spelled by
    their code units where they are not ASCII. *)
Definition scenarioSimpleCsv : jsstring :=
  js "tag,definition" ++ [newline] ++ js "Action," ++
  [21205; 20316; 22580; 38754]%N.

Definition scenarioMultilingualCsv : jsstring :=
  js "en,sc,tc,note,description" ++ [newline] ++
  js "action," ++ [21160; 20316]%N ++ js "," ++ [21205; 20316]%N ++ js ",,"
  ++ [25136; 39717; 22580; 26223]%N.

Definition someSettings : GenerationSettings :=
  {| tagsCount := 5; descriptionStyle := style_default; useThinking := false;
     tagLanguage := Some en |}.

Definition someRequest : Request :=
  {| imageBase64 := js "data:image/png;base64,AAAA"; mimeType := js "image/png";
     tagLibraryCsv := js "tag,definition"; settings := someSettings;
     pinnedTags := None; excludedTags := None; signal := Some 0 |}.

Definition someResult : GeneratedTagsResult :=
  {| description := js "a cover"; tags := [{| name := js "Action"; score := 90 |}] |}.

(** A backend that answers every prompt with the same text, a parser that
    reads two raw tags out of it, and a prompt that embeds the library. *)
Definition fixedBackend (prompt : jsstring) (attempt : nat) : outcome jsstring :=
  Return (js "{...}").

Definition fixedParse (text : jsstring) : option ParsedValue :=
  Some (ParsedObject
          {| parsedDescription := Some (js "a cover");
             parsedTags := Some [{| name := js "actoin"; score := 90 |};
                                 {| name := js "nonsense"; score := 80 |}] |}).

Definition noCleaning (text : jsstring) : jsstring := text.

Definition libraryPrompt (lib : jsstring) (s : GenerationSettings)
    (pinned excluded : option (list jsstring)) : jsstring :=
  js "Tag Library Data: " ++ lib.

(** A primary provider whose key is rejected, and a backup that answers. *)
Definition failoverConfig : LlmConfig :=
  {| provider := gemini; enableFailover := true; failoverProvider := Some openai |}.

Definition rejectedKey : JsError := newError (js "API key not valid").

Definition failoverEnv : Environment :=
  {| ensureProviderIsActive := Return (λ _, Throw rejectedKey);
     createProvider := λ _ _, Return (λ _, Return someResult);
     backupApiKey := None |}.

(** The same, but the backup is [openai] with no key stored: the factory
    throws. *)
Definition noBackupKeyEnv : Environment :=
  {| ensureProviderIsActive := Return (λ _, Throw rejectedKey);
     createProvider :=
       λ p _, match p with
              | openai => Throw (newError (js "OpenAI provider requires an API Key."))
              | _ => Return (λ _, Return someResult)
              end;
     backupApiKey := None |}.

(** A batch of five pending items; the call for the third one is cancelled
    by the user, the other calls succeed. *)
Definition batchItemNamed (n : string) : BatchItem :=
  {| id := js n; base64 := js n; fileType := js "image/png"; status := pending;
     itemResult := None; itemError := None |}.

Definition someResponse : GenerationResponse :=
  {| result := someResult; usedFailover := false; providerName := gemini |}.

Definition stopAtThird (i : BatchItem) : Awaited :=
  if decide (id i = js "item3")
  then {| pressedStop := true; settled := Throw abortError |}
  else {| pressedStop := false; settled := Return someResponse |}.

Definition fiveItems : BatchState :=
  {| batchItems := batchItemNamed <$> ["item1"; "item2"; "item3"; "item4"; "item5"]%string;
     activeBatchItemId := None; batchSummary := None; isProcessing := false;
     batchController := None; batchToasts := []; itemSuccesses := [] |}.

(** Three generations: the first is stopped by the user, the second is
    started, the call of the first then settles with the AbortError, and the
    third is started while the second is in flight. *)
Definition threeGenerations : list SingleEvent :=
  [Generate true false; StopGeneration; Generate true false;
   Settle 0 (Throw abortError); Generate true false].

(** ** cleanJsonOutput ([utils/textHelpers])

    The two regular expressions are sequences of character classes followed
    or preceded by a greedy [\s*]; [\s] is the white space removed by
    [trim].  The ignore-case flag makes each letter of [json] a class of two
    code units. *)

Definition backtick : code_unit := 96%N.
Definition lbrace : code_unit := 123%N.
Definition rbrace : code_unit := 125%N.

(** White space removed at the end. *)
Definition trimEnd (s : jsstring) : jsstring := reverse (trimStart (reverse s)).

(** The rest of [s] after a match of the classes [pat] at its start. *)
Fixpoint matchStart (pat : list (list code_unit)) (s : jsstring)
  : option jsstring :=
  match pat, s with
  | [], _ => Some s
  | _ :: _, [] => None
  | cls :: pat', c :: s' =>
      if bool_decide (c ∈ cls) then matchStart pat' s' else None
  end.

(** Three backticks, and three backticks followed by [json] in any case. *)
Definition fence : list (list code_unit) := [[96]; [96]; [96]]%N.
Definition fenceJson : list (list code_unit) :=
  fence ++ [[106; 74]; [115; 83]; [111; 79]; [110; 78]]%N.

(** [s.replace(/^pat\s*/i, '')] *)
Definition removeOpening (pat : list (list code_unit)) (s : jsstring)
  : jsstring :=
  match matchStart pat s with
  | Some rest => trimStart rest
  | None => s
  end.

(** [s.replace(/\s*```$/, '')]: the match is the closing fence at the very
    end with all the white space before it. *)
Definition removeClosing (s : jsstring) : jsstring :=
  match matchStart fence (reverse s) with
  | Some rest => reverse (trimStart rest)
  | None => s
  end.

(** [s.indexOf(c)] and [s.lastIndexOf(c)] for a one-code-unit [c]; [None]
    is [-1]. *)
Fixpoint indexOf (c : code_unit) (s : jsstring) : option nat :=
  match s with
  | [] => None
  | x :: s' => if bool_decide (x = c) then Some 0 else S <$> indexOf c s'
  end.

Fixpoint lastIndexOf (c : code_unit) (s : jsstring) : option nat :=
  match s with
  | [] => None
  | x :: s' =>
      match lastIndexOf c s' with
      | Some i => Some (S i)
      | None => if bool_decide (x = c) then Some 0 else None
      end
  end.

(** [s.substring(a, b)]: the arguments are swapped when [a > b]. *)
Definition substring (a b : nat) (s : jsstring) : jsstring :=
  take (a `max` b - a `min` b) (drop (a `min` b) s).

Definition cleanJsonOutput (text : jsstring) : jsstring :=
  if negb (truthy text) then js "{}"
  else
    let cleaned := trim text in
    let cleaned := removeClosing (removeOpening fenceJson cleaned) in
    let cleaned := removeClosing (removeOpening fence cleaned) in
    match indexOf lbrace cleaned, lastIndexOf rbrace cleaned with
    | Some firstOpenBrace, Some lastCloseBrace =>
        if bool_decide (firstOpenBrace < lastCloseBrace)
        then substring firstOpenBrace (lastCloseBrace + 1) cleaned
        else cleaned
    | _, _ => cleaned
    end.

(** ** Images: fileToGenerativePart and GeminiProvider.generateImage *)

(** [base64.split(',')[1]], the [data] of the inline part; [None] is
    [undefined]. *)
Definition fileToGenerativePart (base64 mimeType : jsstring)
  : option jsstring * jsstring :=
  (split comma base64 !! 1, mimeType).

Definition imageFailedMessage : jsstring :=
  [22294; 29255; 29983; 25104; 22833; 25943; 12290; 35531; 30906; 35469; 24744;
   30340; 32; 65; 80; 73; 32; 75; 101; 121; 32; 25903; 25588; 32; 73; 109; 97;
   103; 101; 110; 32; 52; 46; 48; 12290]%N.

(** [generateImage]: [aborted] is [signal?.aborted] at the call, [response]
    what [generateImages] settles to, as
    [response.generatedImages?.[0]?.image?.imageBytes]. *)
Definition geminiGenerateImage (aborted : bool)
    (response : outcome (option jsstring)) : outcome jsstring :=
  if aborted then Throw abortError
  else
    match response with
    | Return (Some imageBytes) =>
        if truthy imageBytes
        then Return (js "data:image/jpeg;base64," ++ imageBytes)
        else Throw (newError imageFailedMessage)
    | Return None => Throw (newError imageFailedMessage)
    | Throw _ => Throw (newError imageFailedMessage)
    end.

(** ** llmService: stored settings, the provider factory, the active provider

    [localStorage] holds two items.  What [getItem] and [JSON.parse] make of
    an item is one of: nothing there ([null], or the empty string, both
    falsy), text that does not parse (with what [JSON.parse] throws), or a
    value. *)

Inductive StoredJson (A : Type) :=
| Missing
| Corrupt (thrown : JsError)
| Parsed (v : A).
Arguments Missing {A}.
Arguments Corrupt {A} thrown.
Arguments Parsed {A} v.

(** [a || b] on values that are a string or [undefined]. *)
Definition orElse (a b : option jsstring) : option jsstring :=
  match a with
  | Some s => if truthy s then a else b
  | None => b
  end.

(** Truthiness of a string or [undefined]. *)
Definition given (a : option jsstring) : bool := from_option truthy false a.

Module LlmService.

Record ProviderCredentials := {
  apiKey : option jsstring;
  baseUrl : option jsstring;
  modelName : option jsstring;
  backupApiKey : option jsstring;
}.

(** [{}] *)
Definition noCredentials : ProviderCredentials :=
  {| apiKey := None; baseUrl := None; modelName := None; backupApiKey := None |}.

(** [Partial<LlmConfig>]: a configuration as stored, or as passed to the
    factory. *)
Record PartialLlmConfig := {
  configProvider : option LlmProvider;
  configApiKey : option jsstring;
  configBaseUrl : option jsstring;
  configModelName : option jsstring;
  configEnableFailover : option bool;
  configFailoverProvider : option LlmProvider;
}.

(** [{}] *)
Definition noConfig : PartialLlmConfig :=
  {| configProvider := None; configApiKey := None; configBaseUrl := None;
     configModelName := None; configEnableFailover := None;
     configFailoverProvider := None |}.

Record Storage := {
  configItem : StoredJson PartialLlmConfig;              (* 'llm-config' *)
  credentialsItem :
    StoredJson (LlmProvider → option ProviderCredentials); (* 'llm-credentials' *)
}.

Record OpenAICompatConfig := {
  compatBaseUrl : option jsstring;
  compatApiKey : option jsstring;
  compatModelName : option jsstring;
}.

(** A provider object: an instance of one of the two classes. *)
Inductive ProviderInstance :=
| GeminiProvider (finalApiKey : jsstring)
| OpenAICompatibleProvider (config : OpenAICompatConfig).

Definition OPENAI_DEFAULT_BASE_URL : jsstring := js "https://api.openai.com/v1".
Definition GROK_DEFAULT_BASE_URL : jsstring := js "https://api.x.ai/v1".
Definition OLLAMA_DEFAULT_BASE_URL : jsstring := js "http://localhost:11434/v1".
Definition LMSTUDIO_DEFAULT_BASE_URL : jsstring := js "http://localhost:1234/v1".
Definition OPENAI_DEFAULT_MODEL : jsstring := js "gpt-4o".
Definition GROK_DEFAULT_MODEL : jsstring := js "grok-beta".
Definition LOCAL_DEFAULT_MODEL : jsstring := js "llava".

(** The constructors of the two classes; [envApiKey] is
    [process.env.API_KEY]. *)
Definition newGeminiProvider (envApiKey key : option jsstring)
  : outcome ProviderInstance :=
  match orElse key envApiKey with
  | Some finalApiKey =>
      if truthy finalApiKey then Return (GeminiProvider finalApiKey)
      else Throw (newError (js
        "Gemini API key is not provided in settings and not found in the environment."))
  | None =>
      Throw (newError (js
        "Gemini API key is not provided in settings and not found in the environment."))
  end.

Definition newOpenAICompatibleProvider (config : OpenAICompatConfig)
  : outcome ProviderInstance :=
  if negb (given (compatBaseUrl config))
  then Throw (newError (js "Base URL is required for OpenAI-compatible provider."))
  else Return (OpenAICompatibleProvider config).

Section Stored.
Context (envApiKey : option jsstring).
Context (storage : Storage).

Definition getStoredCredentials (provider : LlmProvider) : ProviderCredentials :=
  match credentialsItem storage with
  | Parsed credentials => default noCredentials (credentials provider)
  | Missing | Corrupt _ => noCredentials
  end.

Definition createProvider (providerType : LlmProvider)
    (overrideConfig : PartialLlmConfig) : outcome ProviderInstance :=
  let storedCreds := getStoredCredentials providerType in
  let apiKey := orElse (configApiKey overrideConfig) (apiKey storedCreds) in
  let baseUrl := orElse (configBaseUrl overrideConfig) (baseUrl storedCreds) in
  let modelName := orElse (configModelName overrideConfig) (modelName storedCreds) in
  match providerType with
  | openai =>
      if negb (given apiKey)
      then Throw (newError (js "OpenAI provider requires an API Key."))
      else newOpenAICompatibleProvider
             {| compatBaseUrl := orElse baseUrl (Some OPENAI_DEFAULT_BASE_URL);
                compatApiKey := apiKey;
                compatModelName := orElse modelName (Some OPENAI_DEFAULT_MODEL) |}
  | grok =>
      if negb (given apiKey)
      then Throw (newError (js "Grok provider requires an API Key."))
      else newOpenAICompatibleProvider
             {| compatBaseUrl := orElse baseUrl (Some GROK_DEFAULT_BASE_URL);
                compatApiKey := apiKey;
                compatModelName := orElse modelName (Some GROK_DEFAULT_MODEL) |}
  | ollama =>
      newOpenAICompatibleProvider
        {| compatBaseUrl := orElse baseUrl (Some OLLAMA_DEFAULT_BASE_URL);
           compatApiKey := apiKey;
           compatModelName := orElse modelName (Some LOCAL_DEFAULT_MODEL) |}
  | lmstudio =>
      newOpenAICompatibleProvider
        {| compatBaseUrl := orElse baseUrl (Some LMSTUDIO_DEFAULT_BASE_URL);
           compatApiKey := apiKey;
           compatModelName := orElse modelName (Some LOCAL_DEFAULT_MODEL) |}
  | custom =>
      if negb (given baseUrl)
      then Throw (newError (js "Custom Endpoint provider requires a Base URL."))
      else newOpenAICompatibleProvider
             {| compatBaseUrl := baseUrl;
                compatApiKey := apiKey;
                compatModelName := orElse modelName (Some LOCAL_DEFAULT_MODEL) |}
  | gemini => newGeminiProvider envApiKey apiKey
  end.

(** [getLlmConfig]: the stored configuration over the default
    [{ provider: 'gemini' }]; a stored text that does not parse makes
    [JSON.parse] throw. *)
Definition getLlmConfig : outcome PartialLlmConfig :=
  match configItem storage with
  | Missing =>
      Return {| configProvider := Some gemini; configApiKey := None;
                configBaseUrl := None; configModelName := None;
                configEnableFailover := None; configFailoverProvider := None |}
  | Corrupt thrown => Throw thrown
  | Parsed c =>
      Return {| configProvider := Some (default gemini (configProvider c));
                configApiKey := configApiKey c;
                configBaseUrl := configBaseUrl c;
                configModelName := configModelName c;
                configEnableFailover := configEnableFailover c;
                configFailoverProvider := configFailoverProvider c |}
  end.

(** The module variable [activeProvider] is the state. *)
Definition setActiveProvider (config : PartialLlmConfig)
    (activeProvider : option ProviderInstance)
  : option ProviderInstance * outcome unit :=
  match createProvider (default gemini (configProvider config)) config with
  | Return p => (Some p, Return ())
  | Throw e => (activeProvider, Throw e)
  end.

Definition clearActiveProvider (activeProvider : option ProviderInstance)
  : option ProviderInstance := None.

Definition ensureProviderIsActive (activeProvider : option ProviderInstance)
  : option ProviderInstance * outcome ProviderInstance :=
  match activeProvider with
  | Some p => (activeProvider, Return p)
  | None =>
      match getLlmConfig with
      | Throw e => (activeProvider, Throw e)
      | Return config =>
          match setActiveProvider config activeProvider with
          | (activeProvider, Throw e) => (activeProvider, Throw e)
          | (Some p, Return _) => (Some p, Return p)
          | (None, Return _) =>
              (None,
               Throw (newError (js "Fatal error: Could not initialize LLM provider.")))
          end
      end
  end.

End Stored.

(** The configuration the orchestrator works with. *)
Definition toLlmConfig (c : PartialLlmConfig) : LlmConfig :=
  {| provider := default gemini (configProvider c);
     enableFailover := default false (configEnableFailover c);
     failoverProvider := configFailoverProvider c |}.

End LlmService.

(** The orchestrator's surroundings, from the stored settings: [serve] is
    the network behind a provider object. *)
Definition environment (envApiKey : option jsstring)
    (storage : LlmService.Storage)
    (activeProvider : option LlmService.ProviderInstance)
    (serve : LlmService.ProviderInstance → ProviderService) : Environment :=
  {| ensureProviderIsActive :=
       match (LlmService.ensureProviderIsActive envApiKey storage activeProvider).2 with
       | Return p => Return (serve p)
       | Throw e => Throw e
       end;
     createProvider := λ providerType overrideApiKey,
       match LlmService.createProvider envApiKey storage providerType
               {| LlmService.configProvider := None;
                  LlmService.configApiKey := overrideApiKey;
                  LlmService.configBaseUrl := None;
                  LlmService.configModelName := None;
                  LlmService.configEnableFailover := None;
                  LlmService.configFailoverProvider := None |} with
       | Return p => Return (serve p)
       | Throw e => Throw e
       end;
     backupApiKey :=
       LlmService.backupApiKey (LlmService.getStoredCredentials storage gemini) |}.

(** ** llmService.explainTag

    The same surroundings as for [generateTags], for a method from requests
    [Req] to answers [Res]. *)

Record ServiceEnvironment (Req Res : Type) := {
  activeService : outcome (Req → outcome Res);
  createService : LlmProvider → option jsstring → outcome (Req → outcome Res);
  storedBackupKey : option jsstring;
}.
Arguments activeService {Req Res} _.
Arguments createService {Req Res} _ _ _.
Arguments storedBackupKey {Req Res} _.

Definition explainConnectMessage : jsstring :=
  js "Failed to connect to the endpoint for explanation.".

Definition explainTag {Req} (env : ServiceEnvironment Req jsstring)
    (config : LlmConfig) (req : Req) : list service_event * outcome jsstring :=
  let primary :=
    match activeService env with
    | Return p => ([CalledPrimary], p req)
    | Throw e => ([], Throw e)
    end in
  match primary.2 with
  | Return text => (primary.1, Return text)
  | Throw err =>
      if isAbortError err then (primary.1, Throw err)
      else
        let afterFailover : outcome jsstring :=
          if decide (errClass err = TypeError)
          then Throw (newError explainConnectMessage)
          else Throw err in
        match enableFailover config, failoverProvider config with
        | true, Some backup =>
            let failoverApiKey :=
              if decide (backup = gemini) then
                match storedBackupKey env with
                | Some k => if truthy k then Some k else None
                | None => None
                end
              else None in
            match createService env backup failoverApiKey with
            | Return p =>
                (primary.1 ++ [CreatedBackup backup failoverApiKey;
                               CalledBackup backup],
                 match p req with
                 | Return text => Return text
                 | Throw _ => afterFailover
                 end)
            | Throw _ =>
                (primary.1 ++ [CreatedBackup backup failoverApiKey],
                 afterFailover)
            end
        | _, _ => (primary.1, afterFailover)
        end
  end.

(** ** llmService.generateImage and sendChatMessage

    Only [GeminiProvider] has the methods [generateImage] and [chat];
    [call] is what the method of the Gemini object with that key settles
    to. *)

Definition imageUnsupportedMessage : jsstring :=
  [30070; 21069; 32; 65; 73; 32; 26381; 21209; 19981; 25903; 25588; 22294;
   29255; 29983; 25104; 21151; 33021; 32; 40; 20677; 32; 71; 101; 109; 105;
   110; 105; 32; 25903; 25588; 41; 12290]%N.
Definition chatUnsupportedMessage : jsstring :=
  [30070; 21069; 32; 65; 73; 32; 26381; 21209; 19981; 25903; 25588; 32842;
   22825; 21151; 33021; 32; 40; 20677; 32; 71; 101; 109; 105; 110; 105; 32;
   25903; 25588; 41; 12290]%N.

Definition optionalMethod (unsupported : jsstring)
    (envApiKey : option jsstring) (storage : LlmService.Storage)
    (call : jsstring → outcome jsstring)
    (activeProvider : option LlmService.ProviderInstance)
  : option LlmService.ProviderInstance * outcome jsstring :=
  match LlmService.ensureProviderIsActive envApiKey storage activeProvider with
  | (activeProvider, Throw e) => (activeProvider, Throw e)
  | (activeProvider, Return (LlmService.OpenAICompatibleProvider _)) =>
      (activeProvider, Throw (newError unsupported))
  | (activeProvider, Return (LlmService.GeminiProvider key)) =>
      (activeProvider, call key)
  end.

Definition generateImage := optionalMethod imageUnsupportedMessage.
Definition sendChatMessage := optionalMethod chatUnsupportedMessage.

(** ** SettingsModal.handleSave

    The form holds the credentials of every provider, the provider chosen
    and the failover choice.  Saving writes both storage items, then makes
    the chosen provider the active one. *)

Record SettingsForm := {
  activeProviderType : LlmProvider;
  credentials : LlmProvider → LlmService.ProviderCredentials;
  formEnableFailover : bool;
  formFailoverProvider : option LlmProvider;
}.

Inductive SaveStatus := SavedAndActive | SavedNotInitialized.

(** [if (!activeConfig.x) delete activeConfig.x] *)
Definition dropFalsy (a : option jsstring) : option jsstring :=
  if given a then a else None.

Definition savedConfig (form : SettingsForm) : LlmService.PartialLlmConfig :=
  let currentCreds := credentials form (activeProviderType form) in
  {| LlmService.configProvider := Some (activeProviderType form);
     LlmService.configApiKey := dropFalsy (LlmService.apiKey currentCreds);
     LlmService.configBaseUrl := dropFalsy (LlmService.baseUrl currentCreds);
     LlmService.configModelName := dropFalsy (LlmService.modelName currentCreds);
     LlmService.configEnableFailover := Some (formEnableFailover form);
     LlmService.configFailoverProvider := formFailoverProvider form |}.

Definition handleSave (envApiKey : option jsstring) (form : SettingsForm)
    (activeProvider : option LlmService.ProviderInstance)
  : LlmService.Storage * option LlmService.ProviderInstance * SaveStatus :=
  let storage :=
    {| LlmService.configItem := Parsed (savedConfig form);
       LlmService.credentialsItem := Parsed (λ p, Some (credentials form p)) |} in
  match LlmService.setActiveProvider envApiKey storage (savedConfig form)
          activeProvider with
  | (activeProvider, Return _) => (storage, activeProvider, SavedAndActive)
  | (activeProvider, Throw _) => (storage, activeProvider, SavedNotInitialized)
  end.

(** ** OpenAICompatibleProvider.generateTags *)

(** The body of a response that is not [ok], as
    [response.json().catch(() => ({ message: response.statusText }))] gives
    it: the JSON value [null], on which reading [.error] throws, or a value
    for which
    [errorBody.error?.message || errorBody.message || JSON.stringify(errorBody)]
    is [errorMessage]. *)
Inductive ErrorBody :=
| BodyNull
| BodyMessage (errorMessage : jsstring).

(** What [fetch] resolves to: a response that is not [ok], with its status
    and its body, or an [ok] one, with [data.choices[0]?.message?.content]
    (or what reading it throws). *)
Inductive FetchResponse :=
| NotOk (httpStatus : nat) (errorBody : ErrorBody)
| Ok (content : outcome (option jsstring)).

(** [errorBody.error] on [null]. *)
Definition nullBodyError : JsError :=
  {| errClass := TypeError; errName := js "TypeError";
     errMessage := js "Cannot read properties of null (reading 'error')" |}.

Definition openAIPerformGeneration (fetched : outcome FetchResponse)
  : outcome (option jsstring) :=
  match fetched with
  | Throw e => Throw e
  | Return (NotOk httpStatus BodyNull) => Throw nullBodyError
  | Return (NotOk httpStatus (BodyMessage errorMessage)) =>
      Throw (openAIStatusError httpStatus errorMessage)
  | Return (Ok (Throw e)) => Throw e
  | Return (Ok (Return content)) => Return (trim <$> content)
  end.

Definition openAIAuthFailedMessage : jsstring :=
  [39511; 35657; 22833; 25943; 65306; 65; 80; 73; 32; 37329; 38000; 28961;
   25928; 12290]%N.
Definition openAIRateLimitedMessage : jsstring :=
  [35531; 27714; 38971; 29575; 36229; 38480; 65306; 37325; 35430; 22810;
   27425; 24460; 20173; 22833; 25943; 12290]%N.

(** The [catch] block of [OpenAICompatibleProvider.generateTags]. *)
Definition openAIRethrow (error : JsError) : JsError :=
  if isAbortError error then error
  else if includes (js "Auth failed") (errMessage error)
  then newError openAIAuthFailedMessage
  else if includes (js "Rate limit") (errMessage error)
  then newError openAIRateLimitedMessage
  else error.

Section OpenAIProvider.
Context (toLowerCase : jsstring → jsstring).
Context (tagDataCsv : jsstring).
Context (JSON_parse : jsstring → option ParsedValue).
Context (createPrompt : jsstring → GenerationSettings →
                        option (list jsstring) → option (list jsstring) → jsstring).
(** What the [fetch] of each attempt settles to, for a prompt. *)
Context (fetched : jsstring → nat → outcome FetchResponse).

(** The [try] block after [withRetry]. *)
Definition openAIPostProcess (rawText : option jsstring)
    (settings : GenerationSettings) : outcome GeneratedTagsResult :=
  if negb (given rawText)
  then Throw (newError (js "Model returned an empty response."))
  else
    match JSON_parse (cleanJsonOutput (default [] rawText)) with
    | None =>
        Throw (newError (js "Failed to parse valid JSON from model response."))
    | Some ParsedNull => Throw nullDescriptionError
    | Some (ParsedObject parsed) =>
        match parsedDescription parsed, parsedTags parsed with
        | Some d, Some rawTags =>
            if truthy d then
              let targetLang := default sc (tagLanguage settings) in
              Return {| description := d;
                        tags := normalizeTags toLowerCase tagDataCsv rawTags
                                  targetLang |}
            else Throw (newError (js "Invalid JSON structure."))
        | _, _ => Throw (newError (js "Invalid JSON structure."))
        end
    end.

Definition openAIGenerateTags (req : Request) : outcome GeneratedTagsResult :=
  let prompt := createPrompt (tagLibraryCsv req) (settings req)
                  (pinnedTags req) (excludedTags req) in
  match (withRetryDefault
           (λ attempt, openAIPerformGeneration (fetched prompt attempt))).2 with
  | Return rawText =>
      match openAIPostProcess rawText (settings req) with
      | Return r => Return r
      | Throw e => Throw (openAIRethrow e)
      end
  | Throw e => Throw (openAIRethrow e)
  end.

End OpenAIProvider.

(** ** App: the history and the pinned and excluded tags *)

Record HistoryEntry := {
  entryId : N;
  image : jsstring;
  entryResult : GeneratedTagsResult;
}.

Definition MAX_HISTORY_ITEMS : nat := 5.

(** The state update of [addToHistory]; [now] is [Date.now()]. *)
Definition addToHistory (now : N) (result : GeneratedTagsResult)
    (imageBase64 : jsstring) (prevHistory : list HistoryEntry)
  : list HistoryEntry :=
  let newEntry :=
    {| entryId := now; image := imageBase64; entryResult := result |} in
  take MAX_HISTORY_ITEMS (newEntry :: prevHistory).

(** The feedback state is the pair of [pinnedTags] and [excludedTags]. *)
Definition Feedback : Type := list jsstring * list jsstring.

(** [prev.includes(t) ? prev.filter(x => x !== t) : [...prev, t]] *)
Definition toggle (tagName : jsstring) (prev : list jsstring) : list jsstring :=
  if bool_decide (tagName ∈ prev) then filter (λ t, t ≠ tagName) prev
  else prev ++ [tagName].

Definition handleTogglePin (tagName : jsstring) (fb : Feedback) : Feedback :=
  (toggle tagName fb.1, filter (λ t, t ≠ tagName) fb.2).

Definition handleToggleExclude (tagName : jsstring) (fb : Feedback) : Feedback :=
  (filter (λ t, t ≠ tagName) fb.1, toggle tagName fb.2).

(** The two handlers, and the effect that empties both lists when the
    image or the result changes. *)
Inductive FeedbackEvent :=
| TogglePin (tagName : jsstring)
| ToggleExclude (tagName : jsstring)
| ResetFeedback.

Definition feedbackStep (fb : Feedback) (ev : FeedbackEvent) : Feedback :=
  match ev with
  | TogglePin t => handleTogglePin t fb
  | ToggleExclude t => handleToggleExclude t fb
  | ResetFeedback => ([], [])
  end.

(** ** Further concrete inputs *)

Definition dquote : jsstring := [34]%N.

(** An answer wrapped in prose and a Markdown fence, and the object in
    it. *)
Definition bareObject : jsstring :=
  js "{ " ++ dquote ++ js "tags" ++ dquote ++ js ": [] }".

Definition fencedAnswer : jsstring :=
  js "Here you go:" ++ [newline] ++ js "```json" ++ [newline] ++
  bareObject ++ [newline] ++ js "```".

(** [s] occurs in [t] as a contiguous part. *)
Definition partOf (s t : jsstring) : Prop := ∃ a b, t = a ++ s ++ b.

(** For the first [n] delays the power and the product stay below 2^31:
    double precision computes them exactly, and [setTimeout] takes them as
    they are. *)
Definition delaysInRange (baseDelay backoffFactor : N) (n : nat) : bool :=
  forallb (λ k, (backoffFactor ^ N.of_nat k <? 2 ^ 31)%N &&
                (baseDelay * backoffFactor ^ N.of_nat k <? 2 ^ 31)%N)
    (seq 0 n).

(** The calls and sleeps of a run of withRetry whose last call is call
    [n]. *)
Definition retrySchedule (baseDelay backoffFactor : N) (attempt n : nat)
  : list retry_event :=
  (seq attempt (n - attempt) ≫=
     λ k, [Called k; Slept (baseDelay * backoffFactor ^ N.of_nat k)%N])
  ++ [Called n].

(** An operation that is rate-limited twice, then answers. *)
Definition limitedTwice (attempt : nat) : outcome jsstring :=
  if decide (attempt < 2) then Throw (openAIStatusError 429 (js "slow down"))
  else Return (js "{}").

(** The row [useTagData] keeps of a line for the tag library, if any. *)
Definition keptRow (simple : bool) (line : jsstring) : option jsstring :=
  let trimmed := trim line in
  let values := split comma trimmed in
  if isDataLine line then
    if simple && bool_decide (2 ≤ length values) then
      if truthy (column values 0) then Some trimmed else None
    else if bool_decide (descriptionIndex < length values) then Some trimmed
    else None
  else None.

(** The header [useTagData] puts on the library. *)
Definition libraryHeader (simple : bool) : jsstring :=
  if simple then simpleHeader else multilingualHeader.

(** The outcome of the primary attempt of [explainTag]. *)
Definition explainPrimary {Req} (env : ServiceEnvironment Req jsstring)
    (req : Req) : outcome jsstring :=
  match activeService env with
  | Return p => p req
  | Throw e => Throw e
  end.

(** A primary that fails with a server error, and a backup whose call is
    cancelled. *)
Definition serverError : JsError := newError (js "Server error (500): overloaded").

Definition cancelledBackupEnv : ServiceEnvironment unit jsstring :=
  {| activeService := Return (λ _, Throw serverError);
     createService := λ _ _, Return (λ _, Throw abortError);
     storedBackupKey := None |}.

(** Stored settings with a Gemini key only, and a settings form that
    chooses OpenAI without giving a key. *)
Definition geminiOnlyCredentials (p : LlmProvider)
  : LlmService.ProviderCredentials :=
  match p with
  | gemini =>
      {| LlmService.apiKey := Some (js "AIza-main");
         LlmService.baseUrl := None; LlmService.modelName := None;
         LlmService.backupApiKey := Some (js "AIza-backup") |}
  | _ => LlmService.noCredentials
  end.

Definition geminiOnlyStorage : LlmService.Storage :=
  {| LlmService.configItem := Missing;
     LlmService.credentialsItem := Parsed (λ p, Some (geminiOnlyCredentials p)) |}.

Definition openAIWithoutKeyForm : SettingsForm :=
  {| activeProviderType := openai; credentials := geminiOnlyCredentials;
     formEnableFailover := false; formFailoverProvider := None |}.

Definition ollamaConfig : LlmService.PartialLlmConfig :=
  {| LlmService.configProvider := Some ollama;
     LlmService.configApiKey := None; LlmService.configBaseUrl := None;
     LlmService.configModelName := None;
     LlmService.configEnableFailover := None;
     LlmService.configFailoverProvider := None |}.

(** An endpoint that answers every request with HTTP 401 and a body whose
    message the retry classifier does not recognise, and one whose 401 comes
    with the body [null]. *)
Definition unauthorized (prompt : jsstring) (attempt : nat)
  : outcome FetchResponse :=
  Return (NotOk 401 (BodyMessage (js "Unauthorized"))).

Definition unauthorizedNullBody (prompt : jsstring) (attempt : nat)
  : outcome FetchResponse :=
  Return (NotOk 401 BodyNull).

(** ** Batch runs, continued *)

(** No item shows the spinner. *)
Definition noneProcessing (items : list BatchItem) : Prop :=
  Forall (λ i, status i ≠ processing) items.

(** What an iteration of the loop keeps, for a state [st1] reached from
    [st] by marking the item and then settling it with [g]. *)
Definition keeps (st st1 : BatchState) : Prop :=
  (noneProcessing (batchItems st) → noneProcessing (batchItems st1)) ∧
  id <$> batchItems st1 = id <$> batchItems st ∧
  base64 <$> batchItems st1 = base64 <$> batchItems st ∧
  batchSummary st1 = batchSummary st.

Section BatchSpec2.
Context (env : BatchItem → Awaited).

(** The call of [onItemSuccess] an item gives rise to in a run nobody
    disturbs. *)
Definition successOf (i : BatchItem) : option (GeneratedTagsResult * jsstring) :=
  if decide (status i = completed) then None
  else match settled (env i) with
       | Return response => Some (result response, base64 i)
       | Throw _ => None
       end.

End BatchSpec2.

(** What the loop does to an item once the controller is gone: it is
    counted if it was completed, else marked as failed. *)
Definition afterStop (i : BatchItem) : BatchItem :=
  if decide (status i = completed) then i else withError nullSignalMessage i.

Definition completedIn (items : list BatchItem) : nat :=
  length (filter (λ i, status i = completed) items).

(** Three pending items; during the call for the first one the user presses
    stop, but the call fails with a server error instead of the
    AbortError. *)
Definition stopButServerError (i : BatchItem) : Awaited :=
  if decide (id i = js "item1")
  then {| pressedStop := true; settled := Throw serverError |}
  else {| pressedStop := false; settled := Return someResponse |}.

Definition threeItems : BatchState :=
  {| batchItems := batchItemNamed <$> ["item1"; "item2"; "item3"]%string;
     activeBatchItemId := None; batchSummary := None; isProcessing := false;
     batchController := None; batchToasts := []; itemSuccesses := [] |}.

Definition allSucceed (i : BatchItem) : Awaited :=
  {| pressedStop := false; settled := Return someResponse |}.

(** ** The single-item controller, continued *)

(** [reset] clears what is displayed; the ref, the timers and the calls in
    flight are not touched. *)
Definition resetSingle (st : SingleState) : SingleState :=
  {| generatedResult := None; loadingStep := None; singleError := None;
     failoverInfo := None; loadingTimers := loadingTimers st;
     singleController := singleController st; controllers := controllers st;
     awaiting := awaiting st; effects := effects st |}.

(** What can happen to the hook: the events above, and a call of [reset]. *)
Inductive HookEvent :=
| Step (ev : SingleEvent)
| Reset.

Definition hookStep (st : SingleState) (ev : HookEvent) : SingleState :=
  match ev with
  | Step ev => singleStep st ev
  | Reset => resetSingle st
  end.

Definition runHook (evs : list HookEvent) : SingleState :=
  foldl hookStep initialSingle evs.

(** What holds of the hook in every state it can reach. *)
Definition singleInvariant (st : SingleState) : Prop :=
  (∀ g, singleController st = Some g →
        S g = length (controllers st) ∧ g ∈ liveTokens st) ∧
  (singleController st = None → loadingStep st = None) ∧
  (∀ owner ms, (owner, ms) ∈ loadingTimers st →
               singleController st = Some owner) ∧
  (∀ g, g ∈ awaiting st → g < length (controllers st)).

(** No call settles while the ref holds the controller of another
    generation. *)
Fixpoint timely (st : SingleState) (evs : list HookEvent) : Prop :=
  match evs with
  | [] => True
  | ev :: evs =>
      match ev with
      | Step (Settle g _) =>
          g ∈ awaiting st →
          singleController st = None ∨ singleController st = Some g
      | _ => True
      end ∧ timely (hookStep st ev) evs
  end.

(** The token the ref holds, as a list. *)
Definition refToken (st : SingleState) : list nat :=
  match singleController st with
  | Some g => [g]
  | None => []
  end.

(** A generation, then a regeneration after it has finished, stopped by the
    user; its call then settles with the AbortError; the display is reset
    and a third generation starts. *)
Definition oneAfterTheOther : list HookEvent :=
  [Step (Generate true false); Step (Settle 0 (Return someResponse));
   Step (Generate true true); Step StopGeneration;
   Step (Settle 1 (Throw abortError));
   Reset; Step (Generate true false)].

(** ** App, continued *)

(** A call of [addToHistory]: the time, the result and the image. *)
Definition HistoryCall : Type := N * GeneratedTagsResult * jsstring.

Definition entryOf (call : HistoryCall) : HistoryEntry :=
  {| entryId := call.1.1; image := call.2; entryResult := call.1.2 |}.

(** The history after a sequence of calls. *)
Definition addAllToHistory (calls : list HistoryCall)
    (prevHistory : list HistoryEntry) : list HistoryEntry :=
  foldl (λ h call, addToHistory call.1.1 call.1.2 call.2 h) prevHistory calls.
(** * Proofs *)

(** ** Edit distance *)

Section EditDistanceFacts.
Context {A : Type} `{EqDecision A}.
Implicit Types (a b : list A) (x y : A).

Lemma lev_nil_l b : lev [] b = length b.
Proof. done. Qed.

Lemma lev_nil_r a : lev a [] = length a.
Proof. by destruct a. Qed.

Lemma lev_cons x a y b :
  lev (x :: a) (y :: b) =
  min3 (S (lev a (y :: b))) (S (lev (x :: a) b)) (subst_cost x y + lev a b).
Proof. done. Qed.

Lemma subst_cost_le x y : subst_cost x y ≤ 1.
Proof. unfold subst_cost; case_decide; lia. Qed.

Lemma lev_cons_l_le x a b : lev (x :: a) b ≤ S (lev a b).
Proof.
  destruct b as [|y b].
  - rewrite !lev_nil_r. simpl. lia.
  - rewrite lev_cons. unfold min3. lia.
Qed.

Lemma lev_cons_r_le a y b : lev a (y :: b) ≤ S (lev a b).
Proof.
  destruct a as [|x a].
  - rewrite !lev_nil_l. simpl. lia.
  - rewrite lev_cons. unfold min3. lia.
Qed.

Lemma lev_refl a : lev a a = 0.
Proof.
  induction a as [|x a IH]; [done|].
  rewrite lev_cons. unfold min3, subst_cost.
  rewrite decide_True by done. lia.
Qed.

Lemma lev_sym a b : lev a b = lev b a.
Proof.
  revert b. induction a as [|x a IHa]; intros b.
  - by rewrite lev_nil_l, lev_nil_r.
  - induction b as [|y b IHb].
    + by rewrite lev_nil_l, lev_nil_r.
    + rewrite !lev_cons, IHb, !IHa. unfold min3, subst_cost.
      repeat case_decide; subst; try done; lia.
Qed.

(** The distance moves by at most one under a single edit of its first
    argument. *)
Lemma lev_edit1_l a a' b : edit1 a a' → lev a b ≤ S (lev a' b).
Proof.
  intros He. revert b.
  induction He as [c a|c a|c c' a Hc|h a a' He IH]; intros b.
  - (* a' = c :: a *)
    induction b as [|y b IHb].
    + rewrite !lev_nil_r. simpl. lia.
    + rewrite lev_cons. pose proof (lev_cons_r_le a y b).
      pose proof (subst_cost_le c y). unfold min3. lia.
  - apply lev_cons_l_le.
  - induction b as [|y b IHb].
    + rewrite !lev_nil_r. simpl. lia.
    + rewrite !lev_cons.
      pose proof (subst_cost_le c y). pose proof (subst_cost_le c' y).
      unfold min3. lia.
  - induction b as [|y b IHb].
    + rewrite !lev_nil_r. simpl.
      specialize (IH []). rewrite !lev_nil_r in IH. lia.
    + rewrite !lev_cons.
      pose proof (IH (y :: b)). pose proof (IH b).
      unfold min3. lia.
Qed.

Lemma lev_le_edits n a b : edits n a b → lev a b ≤ n.
Proof.
  induction 1 as [a|n a a' b He _ IH].
  - by rewrite lev_refl.
  - pose proof (lev_edit1_l _ _ b He). lia.
Qed.

Lemma edits_skip h n a b : edits n a b → edits n (h :: a) (h :: b).
Proof.
  induction 1; [constructor|].
  eapply edits_S; [by apply edit1_skip|done].
Qed.

Lemma edits_snoc n a b b' : edits n a b → edit1 b b' → edits (S n) a b'.
Proof.
  induction 1 as [a|n a a' b He _ IH]; intros Hb.
  - eapply edits_S; [done|constructor].
  - eapply edits_S; [done|]. by apply IH.
Qed.

Lemma edits_trans n m a b c :
  edits n a b → edits m b c → edits (n + m) a c.
Proof.
  induction 1; intros Hbc; [done|].
  simpl. eapply edits_S; [done|]. auto.
Qed.

Lemma edits_to_nil a : edits (length a) a [].
Proof.
  induction a as [|x a IH]; [constructor|].
  simpl. eapply edits_S; [apply edit1_del|done].
Qed.

Lemma edits_from_nil b : edits (length b) [] b.
Proof.
  induction b as [|y b IH]; [constructor|].
  simpl. eapply edits_snoc; [done|constructor].
Qed.

Lemma edits_lev a b : edits (lev a b) a b.
Proof.
  revert b. induction a as [|x a IHa]; intros b.
  - rewrite lev_nil_l. apply edits_from_nil.
  - induction b as [|y b IHb].
    + rewrite lev_nil_r. apply edits_to_nil.
    + rewrite lev_cons. unfold min3.
      destruct (Nat.min_spec (S (lev (x :: a) b))
                  (subst_cost x y + lev a b)) as [[_ ->]|[_ ->]];
      destruct (Nat.min_spec (S (lev a (y :: b))) (S (lev (x :: a) b)))
        as [[_ E1]|[_ E1]];
      destruct (Nat.min_spec (S (lev a (y :: b))) (subst_cost x y + lev a b))
        as [[_ E2]|[_ E2]]; rewrite ?E1, ?E2.
      all: try (eapply edits_S; [apply edit1_del|apply IHa]).
      all: try (eapply edits_snoc; [apply IHb|constructor]).
      all: unfold subst_cost; case_decide as Hxy; subst; simpl;
        [ apply edits_skip, IHa
        | eapply edits_S; [by apply edit1_sub|apply edits_skip, IHa] ].
Qed.

(** Edits at the far end, and the recurrence on the last characters (the
    one the dynamic program uses). *)
Lemma edit1_app_r a a' z : edit1 a a' → edit1 (a ++ z) (a' ++ z).
Proof. induction 1; simpl; by constructor. Qed.

Lemma edit1_app_l z a a' : edit1 a a' → edit1 (z ++ a) (z ++ a').
Proof. intros. induction z; simpl; [done|by constructor]. Qed.

Lemma edit1_reverse a a' : edit1 a a' → edit1 (reverse a) (reverse a').
Proof.
  induction 1 as [c a|c a|c c' a Hc|h a a' _ IH]; rewrite ?reverse_cons.
  - rewrite <-(app_nil_r (reverse a)) at 1.
    apply edit1_app_l. constructor.
  - rewrite <-(app_nil_r (reverse a)) at 2.
    apply edit1_app_l. constructor.
  - apply edit1_app_l. by constructor.
  - by apply edit1_app_r.
Qed.

Lemma edits_reverse n a b : edits n a b → edits n (reverse a) (reverse b).
Proof.
  induction 1; [constructor|].
  eapply edits_S; [by apply edit1_reverse|done].
Qed.

Lemma lev_reverse a b : lev (reverse a) (reverse b) = lev a b.
Proof.
  apply Nat.le_antisymm.
  - apply lev_le_edits, edits_reverse, edits_lev.
  - rewrite <-(reverse_involutive a), <-(reverse_involutive b) at 1.
    apply lev_le_edits, edits_reverse, edits_lev.
Qed.

Lemma lev_snoc a x b y :
  lev (a ++ [x]) (b ++ [y]) =
  min3 (S (lev a (b ++ [y]))) (S (lev (a ++ [x]) b)) (subst_cost x y + lev a b).
Proof.
  rewrite <-(lev_reverse (a ++ [x]) (b ++ [y])), !reverse_snoc, lev_cons.
  rewrite <-(lev_reverse a (b ++ [y])), <-(lev_reverse (a ++ [x]) b).
  by rewrite !reverse_snoc, lev_reverse.
Qed.

Lemma lev_triangle a b c : lev a c ≤ lev a b + lev b c.
Proof. apply lev_le_edits. eapply edits_trans; apply edits_lev. Qed.

(** The distance is at least the difference of the lengths. *)
Lemma edit1_length a a' :
  edit1 a a' → length a ≤ S (length a') ∧ length a' ≤ S (length a).
Proof. induction 1; simpl; lia. Qed.

Lemma edits_length n a b :
  edits n a b → length a ≤ n + length b ∧ length b ≤ n + length a.
Proof.
  induction 1 as [|n a a' b He%edit1_length _ IH]; simpl; lia.
Qed.

Lemma lev_length_diff a b :
  length a ≤ lev a b + length b ∧ length b ≤ lev a b + length a.
Proof. apply edits_length, edits_lev. Qed.

Lemma lev_0_eq a b : lev a b = 0 → a = b.
Proof.
  intros E. pose proof (edits_lev a b) as H. rewrite E in H.
  by inversion H.
Qed.

End EditDistanceFacts.

(** *** The loops compute the recurrence *)

Lemma array_set_length {X} (hole : X) l v :
  array_set hole l (length l) v = l ++ [v].
Proof. induction l; simpl; by f_equal. Qed.

Lemma array_set_insert {X} (hole : X) l i v :
  i < length l → array_set hole l i v = <[i:=v]> l.
Proof.
  revert i. induction l as [|x l IH]; intros [|i] Hi; simpl in *; try lia.
  - done.
  - f_equal. apply IH. lia.
Qed.

Lemma for_loop_inv {St} (P : nat → St → Prop) body n i (s : St) :
  P i s →
  (∀ k s, i ≤ k < i + n → P k s → ∃ s', body k s = Some s' ∧ P (S k) s') →
  ∃ s', for_loop n i body s = Some s' ∧ P (i + n) s'.
Proof.
  revert i s. induction n as [|n IH]; intros i s Hs Hbody; simpl.
  - exists s. by rewrite Nat.add_0_r.
  - destruct (Hbody i s) as (s' & -> & Hs'); [lia|done|]. simpl.
    destruct (IH (S i) s') as (s'' & -> & Hs''); [done| |].
    + intros k s0 Hk. apply Hbody. lia.
    + exists s''. split; [done|]. by replace (i + S n) with (S i + n) by lia.
Qed.

Section TableFacts.
Context (s t : jsstring).

Local Abbreviation L := (L s t).
Local Abbreviation part_row := (part_row s t).
Local Abbreviation width := (width t).
Local Abbreviation tbl := (tbl s t).

Lemma tbl_lookup i j k :
  k ≤ length s → tbl i j !! k = Some (part_row k (width i j k)).
Proof.
  intros Hk. unfold tbl.
  rewrite list_lookup_fmap, lookup_seq_lt by lia. done.
Qed.

Lemma length_tbl i j : length (tbl i j) = S (length s).
Proof. unfold tbl. by rewrite length_fmap, length_seq. Qed.

Lemma part_row_lookup k w j :
  j < w → part_row k w !! j = Some (Some (L k j)).
Proof.
  intros Hj. unfold part_row.
  rewrite list_lookup_fmap, lookup_seq_lt by lia. done.
Qed.

Lemma part_row_S k w : part_row k (S w) = part_row k w ++ [Some (L k w)].
Proof. unfold part_row. by rewrite seq_S, fmap_app. Qed.

Lemma length_part_row k w : length (part_row k w) = w.
Proof. unfold part_row. by rewrite length_fmap, length_seq. Qed.

Lemma mget_tbl i j k l :
  k ≤ length s → l < width i j k → mget (tbl i j) k l = Some (L k l).
Proof.
  intros Hk Hl. unfold mget.
  rewrite tbl_lookup by done. simpl.
  rewrite part_row_lookup by done. done.
Qed.

Lemma tbl_next_row i : tbl i (S (length t)) = tbl (S i) 1.
Proof.
  unfold tbl. apply list_fmap_ext. intros _ k _. f_equal.
  unfold width. repeat case_decide; lia.
Qed.

(** Appending the next cell of the current row. *)
Lemma mset_tbl i j :
  i ≤ length s → mset (tbl i j) i j (Some (L i j)) = Some (tbl i (S j)).
Proof.
  intros Hi. unfold mset. rewrite tbl_lookup by done. simpl. f_equal.
  assert (width i j i = j) as Hw.
  { unfold width. repeat case_decide; lia. }
  rewrite Hw.
  pose proof (array_set_length None (part_row i j) (Some (L i j))) as Hset.
  rewrite length_part_row in Hset. rewrite Hset, <-part_row_S.
  rewrite array_set_insert by (rewrite length_tbl; lia).
  apply list_eq. intros k.
  destruct (decide (k = i)) as [->|Hne].
  - rewrite list_lookup_insert_eq by (rewrite length_tbl; lia).
    rewrite tbl_lookup by done. do 2 f_equal.
    unfold width. repeat case_decide; lia.
  - rewrite list_lookup_insert_ne by done.
    destruct (decide (k ≤ length s)).
    + rewrite !tbl_lookup by done. do 2 f_equal.
      unfold width. repeat case_decide; lia.
    + rewrite !lookup_ge_None_2; [done|rewrite length_tbl; lia..].
Qed.

Lemma L_0_l j : j ≤ length t → L 0 j = j.
Proof. intros. unfold L. rewrite take_0, lev_nil_l, length_take. lia. Qed.

Lemma L_0_r i : i ≤ length s → L i 0 = i.
Proof. intros. unfold L. rewrite take_0, lev_nil_r, length_take. lia. Qed.

Lemma L_S i j x y :
  s !! i = Some x → t !! j = Some y →
  L (S i) (S j) =
  min3 (S (L i (S j))) (S (L (S i) j)) (subst_cost x y + L i j).
Proof.
  intros Hx Hy. unfold L.
  rewrite (take_S_r s i x), (take_S_r t j y) by done.
  apply lev_snoc.
Qed.

(** First loop: one single-cell row per prefix of [s]. *)
Lemma init_rows :
  for_loop (S (length s)) 0 (λ i d, Some (array_set [] d i [Some i])) []
  = Some (tbl 0 1).
Proof.
  destruct (for_loop_inv
    (λ i d, d = (λ k, [Some k]) <$> seq 0 i)
    (λ i d, Some (array_set [] d i [Some i])) (S (length s)) 0 [])
    as (d & -> & ->); [done| |].
  - intros k d _ ->. eexists; split; [done|].
    pose proof (array_set_length [] ((λ k, [Some k]) <$> seq 0 k) [Some k])
      as Hset.
    rewrite length_fmap, length_seq in Hset.
    rewrite Hset, seq_S, fmap_app. done.
  - f_equal. simpl "+". unfold tbl. apply list_fmap_ext.
    intros idx k [-> Hidx]%lookup_seq. unfold width.
    assert (part_row (0 + idx) 1 = [Some (0 + idx)]) as Hr.
    { unfold part_row. simpl. rewrite L_0_r by lia. done. }
    repeat case_decide; subst; try lia; done.
Qed.

(** Second loop: row 0 holds the lengths of the prefixes of [t]. *)
Lemma init_row0 :
  for_loop (S (length t)) 0 (λ j d, mset d 0 j (Some j)) (tbl 0 1)
  = Some (tbl 1 1).
Proof.
  destruct (for_loop_inv
    (λ j d, d = tbl 0 (j `max` 1))
    (λ j d, mset d 0 j (Some j)) (S (length t)) 0 (tbl 0 1))
    as (d & -> & ->); [done| |].
  - intros k d Hk ->. eexists; split; [|done].
    destruct k as [|k].
    + (* d[0][0] = 0 rewrites the cell that is already there *)
      unfold mset. rewrite tbl_lookup by lia. done.
    + replace (S k `max` 1) with (S k) by lia.
      replace (S (S k) `max` 1) with (S (S k)) by lia.
      replace (Some (S k)) with (Some (L 0 (S k)))
        by (by rewrite L_0_l by lia).
      apply mset_tbl. lia.
  - f_equal. replace ((0 + S (length t)) `max` 1) with (S (length t)) by lia.
    apply tbl_next_row.
Qed.

(** One cell of the main loop. *)
Lemma fill_cell i j :
  1 ≤ i ≤ length s → 1 ≤ j ≤ length t →
  mset (tbl i j) i j
    (cell_min3 (cell_add (mget (tbl i j) (i - 1) j) 1)
               (cell_add (mget (tbl i j) i (j - 1)) 1)
               (cell_add (mget (tbl i j) (i - 1) (j - 1))
                  (if bool_decide (s !! (i - 1) = t !! (j - 1)) then 0 else 1)))
  = Some (tbl i (S j)).
Proof.
  intros Hi Hj.
  destruct i as [|i]; [lia|]. destruct j as [|j]; [lia|].
  replace (S i - 1) with i by lia. replace (S j - 1) with j by lia.
  destruct (lookup_lt_is_Some_2 s i) as [x Hx]; [lia|].
  destruct (lookup_lt_is_Some_2 t j) as [y Hy]; [lia|].
  rewrite !mget_tbl; [| lia | unfold width; repeat case_decide; lia ..].
  rewrite Hx, Hy. simpl.
  rewrite <-mset_tbl by lia. do 2 f_equal.
  rewrite (L_S i j x y) by done. unfold min3, subst_cost.
  case_bool_decide; case_decide; simplify_eq; lia.
Qed.

Lemma fill_row i :
  1 ≤ i ≤ length s →
  for_loop (length t) 1
    (λ j d,
       let cost :=
         if bool_decide (s !! (i - 1) = t !! (j - 1)) then 0 else 1 in
       mset d i j
         (cell_min3 (cell_add (mget d (i - 1) j) 1)
                    (cell_add (mget d i (j - 1)) 1)
                    (cell_add (mget d (i - 1) (j - 1)) cost)))
    (tbl i 1)
  = Some (tbl (S i) 1).
Proof.
  intros Hi.
  edestruct (for_loop_inv (λ j d, d = tbl i j)) as (d & -> & ->);
    [done| |].
  - intros k d Hk ->. eexists; split; [|done].
    apply fill_cell; lia.
  - f_equal. apply tbl_next_row.
Qed.

Lemma levenshteinDistance_lev : levenshteinDistance s t = Some (lev s t).
Proof.
  unfold levenshteinDistance.
  case_bool_decide as Hst; [subst; by rewrite lev_refl|].
  case_bool_decide as Hs.
  { destruct s; [|done]. by rewrite lev_nil_l. }
  case_bool_decide as Ht.
  { destruct t; [|done]. by rewrite lev_nil_r. }
  rewrite init_rows. cbn [mbind option_bind].
  rewrite init_row0. cbn [mbind option_bind].
  edestruct (for_loop_inv (λ i d, d = tbl i 1)) as (d & -> & ->);
    [done| |].
  - intros k d Hk ->. eexists; split; [|done].
    apply fill_row. lia.
  - cbn [mbind option_bind].
    rewrite mget_tbl; [|lia|unfold width; case_decide; lia].
    unfold L. by rewrite !take_ge by lia.
Qed.
End TableFacts.

Example ex_lev : levenshteinDistance (js "kitten") (js "sitting") = Some 3.
Proof. vm_compute. reflexivity. Qed.

(** C10: for all strings, levenshteinDistance returns a natural number that
    is the least number of single-character insertions, deletions and
    substitutions turning [a] into [b]: that many edits do it, and no fewer
    do; it is symmetric, zero on equal strings, and obeys the triangle
    inequality. *)
Theorem levenshteinDistance_is_edit_distance (a b c : jsstring) :
  ∃ dab,
    levenshteinDistance a b = Some dab ∧
    edits dab a b ∧ (∀ n, edits n a b → dab ≤ n) ∧
    levenshteinDistance b a = Some dab ∧
    levenshteinDistance a a = Some 0 ∧
    ∃ dbc dac,
      levenshteinDistance b c = Some dbc ∧
      levenshteinDistance a c = Some dac ∧
      dac ≤ dab + dbc.
Proof.
  exists (lev a b). rewrite !levenshteinDistance_lev.
  split_and!; try done.
  - apply edits_lev.
  - intros n. apply lev_le_edits.
  - by rewrite lev_sym.
  - by rewrite lev_refl.
  - exists (lev b c), (lev a c). split_and!; try done. apply lev_triangle.
Qed.

(** ** The index *)

Lemma truthy_true (s : jsstring) : truthy s = true ↔ s ≠ [].
Proof. by destruct s. Qed.

Lemma truthy_false (s : jsstring) : truthy s = false ↔ s = [].
Proof. by destruct s. Qed.

Lemma registerAll_app es1 es2 ix :
  registerAll (es1 ++ es2) ix = registerAll es2 (registerAll es1 ix).
Proof. apply foldl_app. Qed.

Lemma validKeys_registerAll es ix :
  validKeys (registerAll es ix) = validKeys ix ++ es.*1.
Proof.
  revert ix. induction es as [|[k v] es IH]; intros ix; simpl.
  - by rewrite app_nil_r.
  - unfold registerAll in *. simpl. rewrite IH. simpl.
    by rewrite <-app_assoc.
Qed.

Lemma lookupMap_registerAll_Some es ix k v :
  lookupMap (registerAll es ix) !! k = Some v →
  lookupMap ix !! k = Some v ∨ (k, v) ∈ es.
Proof.
  revert ix. induction es as [|[k' v'] es IH]; intros ix; [by left|].
  unfold registerAll in *. simpl. intros [H|H]%IH.
  - simpl in H. destruct (decide (k' = k)) as [->|Hne].
    + rewrite lookup_insert_eq in H. simplify_eq. right. by left.
    + rewrite lookup_insert_ne in H by done. by left.
  - right. by right.
Qed.

Lemma lookupMap_registerAll_is_Some es ix k :
  is_Some (lookupMap (registerAll es ix) !! k) ↔
  is_Some (lookupMap ix !! k) ∨ k ∈ es.*1.
Proof.
  revert ix. induction es as [|[k' v'] es IH]; intros ix.
  - simpl. rewrite elem_of_nil. tauto.
  - unfold registerAll in *. simpl. rewrite IH. simpl.
    rewrite elem_of_cons, lookup_insert_is_Some.
    destruct (decide (k' = k)) as [->|Hne]; [tauto|].
    intuition congruence.
Qed.

(** ** The fuzzy search *)

Lemma abs_diff_lev (c k : jsstring) d :
  d < abs_diff (length k) (length c) → d < lev c k.
Proof. pose proof (lev_length_diff c k). unfold abs_diff. lia. Qed.

(** Skipping a key by its length never skips a key within the threshold. *)
Lemma fuzzy_step_lev c d st k :
  fuzzy_step c d st k =
  if bool_decide (lev c k ≤ d) && below (lev c k) st.2
  then (Some k, Some (lev c k)) else st.
Proof.
  unfold fuzzy_step. rewrite levenshteinDistance_lev.
  case_decide as Hp; [|done].
  apply abs_diff_lev in Hp. by rewrite bool_decide_eq_false_2 by lia.
Qed.

Lemma fuzzy_fold c d keys :
  let st := foldl (fuzzy_step c d) (None, None) keys in
  (st = (None, None) ∧ ∀ k, k ∈ keys → d < lev c k) ∨
  (∃ best, st = (Some best, Some (lev c best)) ∧ firstClosest c d keys best).
Proof.
  induction keys as [|k keys IH] using rev_ind; simpl.
  { left. split; [done|]. by intros k ?%elem_of_nil. }
  rewrite foldl_app. simpl. rewrite fuzzy_step_lev.
  destruct IH as [(Hst & Hfar)|(best & Hst & pre & post & Hkeys & Hd & Hpre & Hpost)];
    rewrite Hst; try subst keys; simpl.
  - case_bool_decide as Hk; simpl.
    + right. exists k. split; [done|]. exists keys, [].
      split_and!; [done|done| |by intros ? ?%elem_of_nil].
      intros k' Hk'. specialize (Hfar _ Hk'). lia.
    + left. split; [done|].
      intros k' [?| ->%list_elem_of_singleton]%elem_of_app; [auto|lia].
  - destruct (decide (lev c k ≤ d ∧ lev c k < lev c best)) as [[H1 H2]|Hn].
    + rewrite !bool_decide_eq_true_2 by done. simpl.
      right. exists k. split; [done|]. exists (pre ++ best :: post), [].
      split_and!; [done|done| |by intros ? ?%elem_of_nil].
      intros k' [Hk'|[ ->|Hk']%elem_of_cons]%elem_of_app.
      * specialize (Hpre _ Hk'). lia.
      * done.
      * specialize (Hpost _ Hk'). lia.
    + assert (bool_decide (lev c k ≤ d) && bool_decide (lev c k < lev c best)
              = false) as ->.
      { apply andb_false_iff.
        destruct (decide (lev c k ≤ d));
          [right|left]; apply bool_decide_eq_false_2; lia. }
      right. exists best. split; [done|]. exists pre, (post ++ [k]).
      split_and!; [by rewrite <-app_assoc|done|done|].
      intros k' [Hk'| ->%list_elem_of_singleton]%elem_of_app; [auto|lia].
Qed.

Lemma firstClosest_elem_of c d keys best :
  firstClosest c d keys best → best ∈ keys ∧ lev c best ≤ d.
Proof.
  intros (pre & post & -> & ? & _). split; [|done].
  apply elem_of_app. right. by left.
Qed.

(** The value of a key is the one of its last registration. *)
Lemma lookupMap_registerAll_last es ix k v :
  lookupMap (registerAll es ix) !! k = Some v →
  (k, v) ∈ es ∨ (lookupMap ix !! k = Some v ∧ k ∉ es.*1).
Proof.
  revert ix. induction es as [|[k' v'] es IH]; intros ix Hk.
  { right. split; [done|]. apply not_elem_of_nil. }
  unfold registerAll in *. simpl in Hk.
  apply IH in Hk as [Hin|[Hk Hes]].
  - left. by right.
  - simpl in Hk. destruct (decide (k' = k)) as [->|Hne].
    + rewrite lookup_insert_eq in Hk. simplify_eq. left. by left.
    + rewrite lookup_insert_ne in Hk by done. right. split; [done|].
      simpl. rewrite not_elem_of_cons. done.
Qed.

(** ** The duplicate filter *)

Lemma filterSeen_sublist seen l : filterSeen seen l `sublist_of` l.
Proof.
  revert seen. induction l as [|a l IH]; intros seen; simpl; [constructor|].
  case_bool_decide; by constructor.
Qed.

Lemma not_seen_union (x y : jsstring) (seen : gset jsstring) :
  x ∉ {[y]} ∪ seen ↔ y ≠ x ∧ x ∉ seen.
Proof.
  rewrite not_elem_of_union, not_elem_of_singleton.
  split; intros [? ?]; split; congruence.
Qed.

Lemma elem_of_filterSeen seen l t :
  t ∈ filterSeen seen l ↔
  ∃ i, l !! i = Some t ∧ (name t ∉ seen) ∧
       ∀ j u, j < i → l !! j = Some u → name u ≠ name t.
Proof.
  revert seen. induction l as [|a l IH]; intros seen; simpl.
  { rewrite elem_of_nil. split; [done|]. by intros (i & ? & _). }
  assert (t ∈ filterSeen ({[name a]} ∪ seen) l ↔
          ∃ i, (a :: l) !! S i = Some t ∧ (name t ∉ seen) ∧
               ∀ j u, j < S i → (a :: l) !! j = Some u → name u ≠ name t)
    as Hrest.
  { rewrite IH. split.
    - intros (i & Hi & [Ha Hseen]%not_seen_union & Hbefore). exists i.
      split_and!; [done|done|].
      intros [|j] u Hj Hu; simpl in Hu.
      + by simplify_eq.
      + apply (Hbefore j); [lia|done].
    - intros (i & Hi & Hseen & Hbefore). exists i.
      split_and!; [done| |].
      + specialize (Hbefore 0 a). simpl in Hbefore.
        apply not_seen_union. split; [|done]. apply Hbefore; [lia|done].
      + intros j u Hj Hu. apply (Hbefore (S j)); [lia|done]. }
  case_bool_decide as Hdup.
  - rewrite Hrest. split.
    + intros (i & ?). by exists (S i).
    + intros ([|i] & Hi & Hseen & Hbefore); [|by exists i].
      simpl in Hi. by simplify_eq.
  - rewrite elem_of_cons, Hrest. split.
    + intros [ ->|(i & ?)]; [|by exists (S i)].
      exists 0. split_and!; [done|done|]. intros; lia.
    + intros ([|i] & Hi & Hseen & Hbefore); [|right; by exists i].
      simpl in Hi. left. by simplify_eq.
Qed.

Lemma NoDup_filterSeen seen l : NoDup (name <$> filterSeen seen l).
Proof.
  revert seen. induction l as [|a l IH]; intros seen; simpl.
  { constructor. }
  case_bool_decide; [done|].
  rewrite fmap_cons. apply NoDup_cons. split; [|done].
  intros (t & Ht & (i & _ & [Ha _]%not_seen_union & _)%elem_of_filterSeen)
    %list_elem_of_fmap.
  done.
Qed.

Lemma filterSeen_covers seen l t :
  t ∈ l → name t ∉ seen → ∃ t', t' ∈ filterSeen seen l ∧ name t' = name t.
Proof.
  revert seen. induction l as [|a l IH]; intros seen Hin Hseen.
  { by apply elem_of_nil in Hin. }
  simpl. destruct (decide (name a = name t)) as [Heq|Hne].
  - rewrite bool_decide_eq_false_2 by (by rewrite Heq).
    exists a. split; [by left|done].
  - apply elem_of_cons in Hin as [ ->|Hin]; [done|].
    destruct (IH ({[name a]} ∪ seen)) as (t' & Ht' & Hn);
      [done|by apply not_seen_union|].
    exists t'. split; [|done]. case_bool_decide; [done|by right].
Qed.

Lemma omap_length_le {X Y} (f : X → option Y) l : length (omap f l) ≤ length l.
Proof. induction l as [|x l IH]; csimpl; [done|]. destruct (f x); simpl; lia. Qed.

Section LineFacts.
Context (toLowerCase : jsstring → jsstring).

Local Abbreviation lineEntries := (lineEntries toLowerCase).
Local Abbreviation registers := (registers toLowerCase).
Local Abbreviation processLine := (processLine toLowerCase).

Lemma processLine_entries targetLang ix line :
  processLine targetLang ix line = registerAll (lineEntries targetLang line) ix.
Proof.
  unfold processLine, lineEntries.
  repeat case_decide; try done.
  - destruct (truthy (column _ 0)); [|done].
    by destruct (truthy (column _ 1)).
  - destruct (truthy (targetValueOf _ _)); [|done].
    by destruct (truthy (column _ 0)), (truthy (column _ 1)),
      (truthy (column _ 2)).
Qed.

Lemma foldl_processLine targetLang lines ix :
  foldl (processLine targetLang) ix lines =
  registerAll (lines ≫= lineEntries targetLang) ix.
Proof.
  revert ix. induction lines as [|line lines IH]; intros ix; [done|].
  simpl. by rewrite IH, processLine_entries, registerAll_app.
Qed.

Lemma elem_of_lineEntries targetLang line k v :
  (k, v) ∈ lineEntries targetLang line ↔ registers targetLang line k v.
Proof.
  unfold lineEntries, registers.
  cbv zeta.
  repeat case_decide.
  - rewrite elem_of_nil. split; [done|]. intros [[? _]|[? _]]; lia.
  - destruct (truthy (column _ 0)) eqn:E0.
    + apply truthy_true in E0.
      destruct (truthy (column _ 1)) eqn:E1.
      * apply truthy_true in E1.
        rewrite !elem_of_cons, elem_of_nil. split.
        -- intros [?|[?|[]]]; simplify_eq; left; auto 6.
        -- intros [(_&->&_&[->| [_ ->]])|[? _]]; try lia; auto.
      * apply truthy_false in E1.
        rewrite !elem_of_cons, elem_of_nil. split.
        -- intros [?|[]]; simplify_eq; left; auto 6.
        -- intros [(_&->&_&[->| [? _]])|[? _]]; try lia; auto.
    + apply truthy_false in E0. rewrite elem_of_nil. split; [done|].
      intros [(_&->&?&_)|[? _]]; [done|lia].
  - destruct (truthy (targetValueOf _ _)) eqn:Et.
    + apply truthy_true in Et.
      rewrite !elem_of_app. split.
      * intros Hin. right. split; [lia|].
        destruct Hin as [Hin|[Hin|Hin]];
          [destruct (truthy (column _ 0)) eqn:E
          |destruct (truthy (column _ 1)) eqn:E
          |destruct (truthy (column _ 2)) eqn:E];
          try (by apply elem_of_nil in Hin);
          apply list_elem_of_singleton in Hin; simplify_eq;
          apply truthy_true in E; auto 6.
      * intros [[? _]|(_&->&_&Hk)]; [lia|].
        destruct Hk as [[E ->]|[[E ->]|[E ->]]]; apply truthy_true in E;
          rewrite E; [left|right;left|right;right];
          by apply list_elem_of_singleton.
    + apply truthy_false in Et. rewrite elem_of_nil. split; [done|].
      intros [[? _]|(_&->&?&_)]; [lia|done].
Qed.

(** A key of the map was registered by some line, and by no later line. *)
Lemma foldl_processLine_last targetLang lines ix k v :
  lookupMap (foldl (processLine targetLang) ix lines) !! k = Some v →
  (∃ pre line post,
     lines = pre ++ line :: post ∧ (k, v) ∈ lineEntries targetLang line ∧
     ∀ l', l' ∈ post → k ∉ (lineEntries targetLang l').*1) ∨
  (lookupMap ix !! k = Some v ∧
   ∀ l', l' ∈ lines → k ∉ (lineEntries targetLang l').*1).
Proof.
  revert ix. induction lines as [|line lines IH]; intros ix Hk.
  { right. split; [done|]. by intros l' ?%elem_of_nil. }
  simpl in Hk. apply IH in Hk as [(pre & l & post & -> & Hl & Hpost)|[Hk Hno]].
  - left. by exists (line :: pre), l, post.
  - rewrite processLine_entries in Hk.
    apply lookupMap_registerAll_last in Hk as [Hin|[Hk Hline]].
    + left. by exists [], line, lines.
    + right. split; [done|]. intros l' [ ->|?]%elem_of_cons; auto.
Qed.

End LineFacts.

Section TagIndexFacts.
Context (toLowerCase : jsstring → jsstring).
Context (tagDataCsv : jsstring).

Local Abbreviation lineEntries := (lineEntries toLowerCase).
Local Abbreviation registers := (registers toLowerCase).
Local Abbreviation buildIndex := (buildIndex toLowerCase tagDataCsv).
Local Abbreviation dataLines := (dataLines tagDataCsv).
Local Abbreviation createTagLookup := (createTagLookup toLowerCase tagDataCsv).
Local Abbreviation lookupIn := (lookupIn toLowerCase).
Local Abbreviation normalizeTags := (normalizeTags toLowerCase tagDataCsv).

Lemma buildIndex_entries targetLang :
  buildIndex targetLang =
  registerAll (dataLines ≫= lineEntries targetLang) emptyIndex.
Proof. apply foldl_processLine. Qed.

(** Every key pushed on [validKeys] is a key of [lookupMap], and
    conversely. *)
Lemma validKeys_lookupMap targetLang k :
  k ∈ validKeys (buildIndex targetLang) ↔
  is_Some (lookupMap (buildIndex targetLang) !! k).
Proof.
  rewrite buildIndex_entries, validKeys_registerAll,
    lookupMap_registerAll_is_Some.
  simpl. rewrite lookup_empty, is_Some_alt. tauto.
Qed.

(** Values in the map are never the empty string. *)
Lemma lookupMap_truthy targetLang k v :
  lookupMap (buildIndex targetLang) !! k = Some v → v ≠ [].
Proof.
  rewrite buildIndex_entries.
  intros [H|H]%lookupMap_registerAll_Some;
    [simpl in H; by rewrite lookup_empty in H|].
  apply list_elem_of_bind in H as (line & H & _).
  apply elem_of_lineEntries in H as [(_&_&?&_)|(_&_&?&_)]; done.
Qed.

(** A key of the index maps to the value given by the last line that
    registers it. *)
Lemma index_provenance targetLang k v :
  lookupMap (buildIndex targetLang) !! k = Some v →
  ∃ pre line post,
    dataLines = pre ++ line :: post ∧ registers targetLang line k v ∧
    ∀ l' v', l' ∈ post → ¬ registers targetLang l' k v'.
Proof.
  intros [(pre & line & post & Hd & Hl & Hpost)|[Hk _]]%foldl_processLine_last.
  - exists pre, line, post. split_and!; [done|by apply elem_of_lineEntries|].
    intros l' v' Hl' Hr%elem_of_lineEntries. apply (Hpost l' Hl').
    apply list_elem_of_fmap. by exists (k, v').
  - simpl in Hk. by rewrite lookup_empty in Hk.
Qed.

(** Whatever a line registers is a key of the index. *)
Lemma index_complete targetLang line k v :
  line ∈ dataLines → registers targetLang line k v →
  k ∈ validKeys (buildIndex targetLang) ∧
  is_Some (lookupMap (buildIndex targetLang) !! k).
Proof.
  intros Hline Hr%elem_of_lineEntries.
  assert (k ∈ validKeys (buildIndex targetLang)) as Hk.
  { rewrite buildIndex_entries, validKeys_registerAll. simpl.
    apply list_elem_of_fmap. exists (k, v). split; [done|].
    apply list_elem_of_bind. by exists line. }
  split; [done|]. by apply validKeys_lookupMap.
Qed.

(** What the lookup returns is a value of the map. *)
Lemma createTagLookup_value targetLang tagName v :
  createTagLookup targetLang tagName = Some v →
  ∃ k, lookupMap (buildIndex targetLang) !! k = Some v.
Proof.
  unfold createTagLookup, lookupIn.
  destruct (truthy tagName); simpl; [|done].
  destruct (lookupMap _ !! trim _) as [w|] eqn:E.
  - intros [= ->]. eauto.
  - destruct (foldl (fuzzy_step _ _) _ _).1 as [best|]; [|done].
    destruct (truthy best); [|done]. eauto.
Qed.

Lemma createTagLookup_truthy targetLang tagName v :
  createTagLookup targetLang tagName = Some v → truthy v = true.
Proof.
  intros [k Hk]%createTagLookup_value. apply truthy_true.
  by eapply lookupMap_truthy.
Qed.

(** C2, as the code has it: the empty candidate resolves to not-found, and
    for every other candidate, with [c] its lower-cased, trimmed form, the
    lookup
    - uses the threshold 0, 2 or 3 according to the length of [c]
      (below 4, below 8, otherwise);
    - returns the value registered for [c] when [c] is a key;
    - otherwise returns not-found when every key is farther from [c] than
      the threshold, and else the value registered for the first key of
      least distance;
    - so when [c] is shorter than 4 and is not a key, the answer is
      not-found.
    Distances are [lev], the number levenshteinDistance returns
    ([levenshteinDistance_lev]). *)
Theorem createTagLookup_resolve targetLang tagName :
  let ix := buildIndex targetLang in
  let c := trim (toLowerCase tagName) in
  let d := maxDistanceFor c in
  let found := createTagLookup targetLang tagName in
  (tagName = [] → found = None) ∧
  ((length c < 4 → d = 0) ∧ (4 ≤ length c < 8 → d = 2) ∧
   (8 ≤ length c → d = 3)) ∧
  (tagName ≠ [] →
   (∀ v, lookupMap ix !! c = Some v → found = Some v) ∧
   (c ∉ validKeys ix →
      ((∀ k, k ∈ validKeys ix → d < lev c k) → found = None) ∧
      ((∃ k, k ∈ validKeys ix ∧ lev c k ≤ d) →
         ∃ best, firstClosest c d (validKeys ix) best ∧
                 found = lookupMap ix !! best ∧ is_Some found) ∧
      (length c < 4 → found = None))).
Proof.
  intros ix c d found.
  assert ((length c < 4 → d = 0) ∧ (4 ≤ length c < 8 → d = 2) ∧
          (8 ≤ length c → d = 3)) as Hd.
  { subst d. unfold maxDistanceFor. repeat case_decide; lia. }
  split; [by intros ->|]. split; [done|]. intros Hne.
  assert (truthy tagName = true) as Ht by by apply truthy_true.
  split.
  { intros v Hv. subst found.
    unfold createTagLookup, lookupIn.
    rewrite Ht. simpl. fold c. fold ix. by rewrite Hv. }
  intros Hc.
  assert (lookupMap ix !! c = None) as Hnone.
  { apply eq_None_not_Some. intros Hs. apply Hc.
    by apply validKeys_lookupMap. }
  assert (found =
          match (foldl (fuzzy_step c d) (None, None) (validKeys ix)).1 with
          | Some bestMatch =>
              if truthy bestMatch then lookupMap ix !! bestMatch else None
          | None => None
          end) as Hfound.
  { subst found.
    unfold createTagLookup, lookupIn.
    rewrite Ht. simpl. fold c. fold ix. by rewrite Hnone. }
  destruct (fuzzy_fold c d (validKeys ix))
    as [[Hst Hfar]|(best & Hst & Hbest)]; rewrite Hst in Hfound; simpl in Hfound.
  - split_and!; [done| |done].
    intros (k & Hk & Hle). specialize (Hfar _ Hk). lia.
  - pose proof (firstClosest_elem_of _ _ _ _ Hbest) as [Hin Hle].
    assert (best ≠ []) as Hbne.
    { intros ->. rewrite lev_nil_r in Hle.
      destruct (decide (length c < 4)) as [Hs|Hs].
      - destruct Hd as (Hd & _). rewrite Hd in Hle by done.
        destruct c; [done|simpl in Hle; lia].
      - destruct Hd as (_ & Hd2 & Hd3).
        destruct (decide (length c < 8)); [rewrite Hd2 in Hle|rewrite Hd3 in Hle];
          lia. }
    apply truthy_true in Hbne. rewrite Hbne in Hfound.
    split_and!.
    + intros Hall. specialize (Hall _ Hin). lia.
    + intros _. exists best. split_and!; [done|done|].
      rewrite Hfound. by apply validKeys_lookupMap.
    + intros Hs. destruct Hd as (Hd & _). rewrite Hd in Hle by done.
      assert (c = best) as Heq by (apply lev_0_eq; lia).
      by rewrite Heq in Hc.
Qed.

Lemma renamed_fmap targetLang tag :
  renamed (createTagLookup targetLang) tag =
  (λ m, {| name := m; score := score tag |}) <$>
    createTagLookup targetLang (name tag).
Proof.
  unfold renamed.
  destruct (createTagLookup targetLang (name tag)) as [m|] eqn:E; [|done].
  by rewrite (createTagLookup_truthy _ _ _ E).
Qed.


End TagIndexFacts.

(** ** useTagData *)

Lemma find_first {X} (P : X → bool) l x :
  List.find P l = Some x ↔
  ∃ pre post, l = pre ++ x :: post ∧ (∀ y, y ∈ pre → P y = false) ∧ P x = true.
Proof.
  induction l as [|a l IH]; simpl.
  { split; [done|]. intros (pre & post & Heq & _). by destruct pre. }
  destruct (P a) eqn:Ea.
  - split.
    + intros [= ->]. exists [], l. split_and!; [done| |done].
      by intros y ?%elem_of_nil.
    + intros ([|b pre] & post & Heq & Hpre & Hx); simplify_eq/=; [done|].
      rewrite Hpre in Ea; [done|by left].
  - rewrite IH. split.
    + intros (pre & post & -> & Hpre & Hx). exists (a :: pre), post.
      split_and!; [done| |done].
      intros y [ ->|?]%elem_of_cons; auto.
    + intros ([|b pre] & post & Heq & Hpre & Hx); simplify_eq/=.
      * congruence.
      * exists pre, post. split_and!; [done| |done].
        intros y Hy. apply Hpre. by right.
Qed.

Lemma find_unique {X} (P : X → bool) l x x' :
  (∃ pre post, l = pre ++ x :: post ∧ (∀ y, y ∈ pre → P y = false) ∧ P x = true) →
  (∃ pre post, l = pre ++ x' :: post ∧ (∀ y, y ∈ pre → P y = false) ∧ P x' = true) →
  x = x'.
Proof. intros H1%find_first H2%find_first. congruence. Qed.

(** The format is read off the first data line, once. *)
Lemma isSimpleFormat_first lines :
  isSimpleFormat lines = true ↔
  ∃ line, isFirstDataLine lines line ∧ length (split comma line) = 2.
Proof.
  unfold isSimpleFormat, firstDataLine, isFirstDataLine. split.
  - destruct (List.find _ _) as [line|] eqn:E; [|done].
    intros Hb%bool_decide_eq_true. exists line. split; [|done].
    by apply find_first.
  - intros (line & Hfirst%find_first & Hlen). rewrite Hfirst.
    by apply bool_decide_eq_true.
Qed.

Lemma insertAll_Some es m k v :
  insertAll es m !! k = Some v → m !! k = Some v ∨ (k, v) ∈ es.
Proof.
  revert m. induction es as [|[k' v'] es IH]; intros m; [by left|].
  unfold insertAll in *. simpl. intros [H|H]%IH; [|right; by right].
  destruct (decide (k' = k)) as [ ->|Hne].
  - rewrite lookup_insert_eq in H. simplify_eq. right. by left.
  - rewrite lookup_insert_ne in H by done. by left.
Qed.

Lemma insertAll_is_Some es m k :
  is_Some (insertAll es m !! k) ↔ is_Some (m !! k) ∨ k ∈ es.*1.
Proof.
  revert m. induction es as [|[k' v'] es IH]; intros m.
  - simpl. rewrite elem_of_nil. tauto.
  - unfold insertAll in *. simpl. rewrite IH. simpl.
    rewrite elem_of_cons, lookup_insert_is_Some.
    destruct (decide (k' = k)) as [ ->|Hne]; [tauto|].
    intuition congruence.
Qed.

Lemma tagDataStep_entries simple st line :
  (tagDataStep simple st line).2 = insertAll (tagDataEntries simple line) st.2.
Proof.
  unfold tagDataStep, tagDataEntries, isDataLine. cbv zeta.
  destruct (bool_decide (0 < length (trim line)) &&
            negb (startsWith (js ",==") (trim line))); [|done].
  destruct (simple && _).
  - by destruct (truthy (column _ 0)), (truthy (column _ 1)).
  - case_bool_decide; [|done]. simpl.
    destruct (truthy (column _ descriptionIndex)); [|done].
    by destruct (truthy (column _ 0)), (truthy (column _ 1)),
      (truthy (column _ 2)).
Qed.

Lemma foldl_tagDataStep simple lines st :
  (foldl (tagDataStep simple) st lines).2 =
  insertAll (lines ≫= tagDataEntries simple) st.2.
Proof.
  revert st. induction lines as [|line lines IH]; intros st; [done|].
  simpl. rewrite IH, tagDataStep_entries. unfold insertAll.
  by rewrite foldl_app.
Qed.

Lemma elem_of_tagDataEntries simple line k desc :
  (k, desc) ∈ tagDataEntries simple line ↔ describes simple line k desc.
Proof.
  unfold tagDataEntries, describes. cbv zeta.
  set (values := split comma (trim line)).
  destruct (isDataLine line);
    [|rewrite elem_of_nil; split; [done|by intros (? & _)]].
  destruct simple; simpl.
  - case_bool_decide as Hlen; simpl.
    + destruct (truthy (column values 0)) eqn:E0;
        [apply truthy_true in E0|apply truthy_false in E0];
      (destruct (truthy (column values 1)) eqn:E1;
        [apply truthy_true in E1|apply truthy_false in E1]); simpl;
      rewrite ?list_elem_of_singleton, ?elem_of_nil; split;
      try (intros [= -> ->]; split_and!; auto; fail);
      try done;
      intros (_ & ? & ? & [(_ & _ & -> & ->)|(Hn & _)]); try done; try (by destruct Hn).
    + case_bool_decide as Hlen4; simpl.
      * destruct (truthy (column values descriptionIndex)) eqn:Ed;
          [apply truthy_true in Ed|apply truthy_false in Ed].
        -- rewrite !elem_of_app. split.
           ++ intros Hin.
              destruct Hin as [Hin|[Hin|Hin]];
                [destruct (truthy (column values 0)) eqn:E
                |destruct (truthy (column values 1)) eqn:E
                |destruct (truthy (column values 2)) eqn:E];
                try (by apply elem_of_nil in Hin);
                apply list_elem_of_singleton in Hin; simplify_eq;
                apply truthy_true in E;
                (split_and!; [done|done|done|]); right;
                (split_and!; [by intros [_ ?]|done|done|auto]).
           ++ intros (_ & Hk & _ & [(_ & ? & _)|(_ & _ & -> & Hcol)]); [done|].
              destruct Hcol as [ ->|[ ->| ->]]; apply truthy_true in Hk;
                rewrite Hk; [left|right;left|right;right];
                by apply list_elem_of_singleton.
        -- rewrite elem_of_nil. split; [done|].
           intros (_ & _ & ? & [(_ & ? & _)|(_ & _ & -> & _)]); done.
      * rewrite elem_of_nil. split; [done|].
        intros (_ & _ & _ & [(_ & ? & _)|(_ & ? & _)]); done.
  - case_bool_decide as Hlen4; simpl.
    + destruct (truthy (column values descriptionIndex)) eqn:Ed;
        [apply truthy_true in Ed|apply truthy_false in Ed].
      * rewrite !elem_of_app. split.
        -- intros Hin.
           destruct Hin as [Hin|[Hin|Hin]];
             [destruct (truthy (column values 0)) eqn:E
             |destruct (truthy (column values 1)) eqn:E
             |destruct (truthy (column values 2)) eqn:E];
             try (by apply elem_of_nil in Hin);
             apply list_elem_of_singleton in Hin; simplify_eq;
             apply truthy_true in E;
             (split_and!; [done|done|done|]); right;
             (split_and!; [by intros [? _]|done|done|auto]).
        -- intros (_ & Hk & _ & [(? & _)|(_ & _ & -> & Hcol)]); [done|].
           destruct Hcol as [ ->|[ ->| ->]]; apply truthy_true in Hk;
             rewrite Hk; [left|right;left|right;right];
             by apply list_elem_of_singleton.
      * rewrite elem_of_nil. split; [done|].
        intros (_ & _ & ? & [(? & _)|(_ & _ & -> & _)]); done.
    + rewrite elem_of_nil. split; [done|].
      intros (_ & _ & _ & [(? & _)|(_ & ? & _)]); done.
Qed.

(** An entry of the description map comes from a data line with a
    description; what such a line describes is in the map. *)
Lemma useTagData_provenance csv k desc :
  tagMap (useTagData (Some csv)) !! k = Some desc →
  ∃ line, line ∈ drop 1 (split newline csv) ∧
          describes (isSimpleFormat (split newline csv)) line k desc.
Proof.
  unfold useTagData. destruct (truthy csv); simpl; [|by rewrite lookup_empty].
  rewrite foldl_tagDataStep. simpl.
  intros [H|H]%insertAll_Some; [by rewrite lookup_empty in H|].
  apply list_elem_of_bind in H as (line & H & Hline).
  exists line. split; [done|]. by apply elem_of_tagDataEntries.
Qed.

Lemma useTagData_complete csv line k desc :
  csv ≠ [] → line ∈ drop 1 (split newline csv) →
  describes (isSimpleFormat (split newline csv)) line k desc →
  is_Some (tagMap (useTagData (Some csv)) !! k).
Proof.
  intros Hne%truthy_true Hline Hd%elem_of_tagDataEntries.
  unfold useTagData. rewrite Hne. simpl.
  rewrite foldl_tagDataStep. apply insertAll_is_Some. right.
  apply list_elem_of_fmap. exists (k, desc). split; [done|].
  apply list_elem_of_bind. by exists line.
Qed.

(** ** Index construction *)


(** ** Concrete datasets *)

Example ex_typo : createTagLookup asciiLower simpleCsv en (js "actoin")
                  = Some (js "Action").
Proof. vm_compute. reflexivity. Qed.

(** The scenarios of the specification: a typo of a simple-format tag, and
    an exact and a fuzzy match on a multilingual row, asked in [tc]. *)
Example ex_scenario_simple :
  createTagLookup asciiLower scenarioSimpleCsv sc (js "actoin") = Some (js "Action").
Proof. vm_compute. reflexivity. Qed.

Example ex_scenario_multilingual :
  createTagLookup asciiLower scenarioMultilingualCsv tc (js "Action")
    = Some [21205; 20316]%N ∧
  createTagLookup asciiLower scenarioMultilingualCsv tc (js "aciton")
    = Some [21205; 20316]%N.
Proof. split; vm_compute; reflexivity. Qed.

Example ex_short_typo : createTagLookup asciiLower simpleCsv en (js "abd") = None.
Proof. vm_compute. reflexivity. Qed.

(** C2 as stated fails, twice.
    The threshold follows the length of the trimmed candidate, not of the
    candidate: "abd " has length 4, for which the stated threshold is 2, and
    the registered key "abc" is one edit from its trimmed form and two from
    the candidate as written, yet it resolves to not-found, the trimmed form
    having length 3.
    What is returned is the value registered for the closest key, not that
    key: for "aciton" the registered keys are "action", at distance 2 and
    within the threshold of length 6, and two names at distance 6; the
    lookup returns the tc name registered for "action". *)
Lemma createTagLookup_as_stated_fails :
  (length (js "abd ") = 4 ∧
   js "abc" ∈ validKeys (buildIndex asciiLower simpleCsv en) ∧
   levenshteinDistance (js "abd ") (js "abc") = Some 2 ∧
   levenshteinDistance (trim (asciiLower (js "abd "))) (js "abc") = Some 1 ∧
   createTagLookup asciiLower simpleCsv en (js "abd ") = None) ∧
  (length (js "aciton") = 6 ∧
   validKeys (buildIndex asciiLower scenarioMultilingualCsv tc)
     = [js "action"; [21160; 20316]%N; [21205; 20316]%N] ∧
   levenshteinDistance (js "aciton")
     <$> validKeys (buildIndex asciiLower scenarioMultilingualCsv tc)
     = [Some 2; Some 6; Some 6] ∧
   createTagLookup asciiLower scenarioMultilingualCsv tc (js "aciton")
     = Some [21205; 20316]%N ∧
   [21205; 20316]%N ≠ js "action").
Proof.
  split; split_and!; try (vm_compute; reflexivity).
  - apply (proj1 (bool_decide_eq_true _)). vm_compute. reflexivity.
  - done.
Qed.

Lemma createTagLookup_resolve_witness :
  createTagLookup asciiLower simpleCsv en (js "Action") = Some (js "Action") ∧
  createTagLookup asciiLower simpleCsv en [] = None.
Proof.
  destruct (createTagLookup_resolve asciiLower simpleCsv en (js "Action"))
    as (_ & _ & Hrest).
  destruct Hrest as (Hexact & _); [done|].
  split; [apply Hexact; vm_compute; reflexivity|].
  destruct (createTagLookup_resolve asciiLower simpleCsv en []) as (Hempty & _).
  by apply Hempty.
Defined.


(** ** withRetry *)

Section WithRetryFacts.
Context {T : Type} (fn : nat → outcome T).
Context (baseDelay backoffFactor : N).

Local Abbreviation retryFrom := (retryFrom fn baseDelay backoffFactor).

(** An error the classifier takes for an authentication error or a bad
    request ends the loop at once: one call, no sleep. *)
Lemma retryFrom_terminal remaining attempt e :
  fn attempt = Throw e → terminal e = true →
  retryFrom remaining attempt = ([Called attempt], Throw e).
Proof.
  unfold terminal. intros Hfn Ht.
  destruct remaining; simpl; by rewrite Hfn, Ht.
Qed.

Lemma retryFrom_success remaining attempt v :
  fn attempt = Return v →
  retryFrom remaining attempt = ([Called attempt], Return v).
Proof. intros Hfn. destruct remaining; simpl; by rewrite Hfn. Qed.

(** While every call fails with an error the classifier does not take for
    terminal, all the attempts are made, each but the last followed by its
    backoff sleep, and the last error is thrown. *)
Lemma retryFrom_exhausts remaining attempt :
  (∀ n, attempt ≤ n ≤ attempt + remaining →
        ∃ e, fn n = Throw e ∧ terminal e = false) →
  let r := retryFrom remaining attempt in
  callsIn r.1 = seq attempt (S remaining) ∧
  sleepsIn r.1 =
    (λ i, (baseDelay * backoffFactor ^ N.of_nat i)%N) <$> seq attempt remaining ∧
  r.2 = fn (attempt + remaining).
Proof.
  revert attempt. induction remaining as [|remaining IH]; intros attempt Hfn.
  - destruct (Hfn attempt) as (e & He & Ht); [lia|].
    unfold terminal in Ht. simpl. rewrite He, Ht. simpl.
    by rewrite Nat.add_0_r, He.
  - destruct (Hfn attempt) as (e & He & Ht); [lia|].
    unfold terminal in Ht. cbn [retryFrom]. rewrite He, Ht.
    destruct (IH (S attempt)) as (Hc & Hs & Ho).
    { intros n Hn. apply Hfn. lia. }
    cbn [fst snd]. split_and!.
    + unfold callsIn in *. csimpl. by rewrite Hc.
    + unfold sleepsIn in *. csimpl. by rewrite Hs.
    + rewrite Ho. f_equal. lia.
Qed.

End WithRetryFacts.

Lemma retryFrom_ext {T} (f g : nat → outcome T) bd bf remaining attempt :
  (∀ n, f n = g n) →
  retryFrom f bd bf remaining attempt = retryFrom g bd bf remaining attempt.
Proof.
  intros Hfg. revert attempt.
  induction remaining as [|remaining IH]; intros attempt; simpl;
    rewrite Hfg; [done|].
  by rewrite IH.
Qed.

(** An aborted call is not terminal for the classifier: its message is
    "Aborted". *)
Lemma abortError_not_terminal : terminal abortError = false.
Proof. vm_compute. reflexivity. Qed.

(** A cancelled operation is retried like any failing one, for any budget
    and any delays. *)
Lemma withRetry_retries_cancelled {T} retries baseDelay backoffFactor :
  let r := withRetry (T:=T) (λ _, Throw abortError) retries baseDelay backoffFactor in
  callsIn r.1 = seq 0 (S retries) ∧
  sleepsIn r.1 =
    (λ i, (baseDelay * backoffFactor ^ N.of_nat i)%N) <$> seq 0 retries ∧
  r.2 = Throw abortError.
Proof.
  apply (retryFrom_exhausts (λ _, Throw abortError)).
  intros n _. exists abortError. split; [done|apply abortError_not_terminal].
Qed.

(** C1, the code at the failing input: the operation is cancelled (every
    call throws the AbortError, as [performGeneration] does once its signal
    is aborted); withRetry with its defaults calls it four times and sleeps
    1000, 2000 and 4000 ms before it lets the AbortError through. *)
Theorem withRetry_cancelled_runs_full_schedule :
  withRetryDefault (T:=jsstring) (λ _, Throw abortError) =
  ([Called 0; Slept 1000; Called 1; Slept 2000; Called 2; Slept 4000; Called 3],
   Throw abortError).
Proof. vm_compute. reflexivity. Qed.

(** C6, the code at the failing input: the error the OpenAI-compatible
    provider throws for HTTP 401 with the body message "Unauthorized" reads
    "Auth failed: Unauthorized"; the classifier finds neither "API key" nor
    "401" nor "403" in it, and withRetry makes all four attempts. *)
Theorem withRetry_retries_auth_failure :
  errMessage (openAIStatusError 401 (js "Unauthorized"))
    = js "Auth failed: Unauthorized" ∧
  withRetryDefault (T:=jsstring)
    (λ _, Throw (openAIStatusError 401 (js "Unauthorized"))) =
  ([Called 0; Slept 1000; Called 1; Slept 2000; Called 2; Slept 4000; Called 3],
   Throw (openAIStatusError 401 (js "Unauthorized"))).
Proof. split; vm_compute; reflexivity. Qed.

(** What does hold: an authentication failure whose message the classifier
    recognises is not retried, and a rate-limit error whose message it does
    not take for terminal gets the full schedule. *)
Example ex_auth_recognised :
  withRetryDefault (T:=jsstring)
    (λ _, Throw (openAIStatusError 401 (js "Incorrect API key provided"))) =
  ([Called 0], Throw (openAIStatusError 401 (js "Incorrect API key provided"))).
Proof. vm_compute. reflexivity. Qed.

Example ex_rate_limit :
  withRetryDefault (T:=jsstring)
    (λ _, Throw (openAIStatusError 429 (js "slow down"))) =
  ([Called 0; Slept 1000; Called 1; Slept 2000; Called 2; Slept 4000; Called 3],
   Throw (openAIStatusError 429 (js "slow down"))).
Proof. vm_compute. reflexivity. Qed.

Example ex_rate_limit_then_success :
  withRetryDefault
    (λ n, if decide (n < 2) then Throw (openAIStatusError 429 (js "slow down"))
          else Return (js "{}")) =
  ([Called 0; Slept 1000; Called 1; Slept 2000; Called 2], Return (js "{}")).
Proof. vm_compute. reflexivity. Qed.

(** ** The provider's post-processing *)

Section ProviderFacts.
Context (toLowerCase : jsstring → jsstring).
Context (tagDataCsv : jsstring).
Context (cleanJsonOutput : jsstring → jsstring).
Context (JSON_parse : jsstring → option ParsedValue).
Context (createPrompt : jsstring → GenerationSettings →
                        option (list jsstring) → option (list jsstring) → jsstring).
Context (backend : jsstring → nat → outcome jsstring).

Local Abbreviation postProcess :=
  (postProcess toLowerCase tagDataCsv cleanJsonOutput JSON_parse).
Local Abbreviation providerGenerateTags :=
  (providerGenerateTags toLowerCase tagDataCsv cleanJsonOutput JSON_parse
     createPrompt backend).

(** The tags a provider returns are the raw tags of the response, normalised
    against the compiled-in dataset. *)
Lemma postProcess_tags rawText settings r :
  postProcess rawText settings = Return r →
  ∃ parsed rawTags,
    JSON_parse (cleanJsonOutput rawText) = Some (ParsedObject parsed) ∧
    parsedTags parsed = Some rawTags ∧
    tags r = normalizeTags toLowerCase tagDataCsv rawTags
               (default sc (tagLanguage settings)).
Proof.
  unfold postProcess.
  destruct (truthy rawText); simpl; [|done].
  destruct (JSON_parse _) as [[|parsed]|]; [done| |done].
  destruct (parsedDescription parsed) as [d|]; [|done].
  destruct (parsedTags parsed) as [rawTags|] eqn:Et; [|done].
  destruct (truthy d); [|done].
  intros [= <-]. by exists parsed, rawTags.
Qed.

(** C9: as long as the backend answers the two prompts alike, a request and
    the same request with another tag-library text give the same result, and
    so the same normalised tags: the library text reaches the prompt and
    nothing else. *)
Theorem normalization_ignores_library (req : Request) (lib' : jsstring) :
  (∀ n,
     backend (createPrompt (tagLibraryCsv req) (settings req)
                (pinnedTags req) (excludedTags req)) n =
     backend (createPrompt lib' (settings req)
                (pinnedTags req) (excludedTags req)) n) →
  providerGenerateTags req = providerGenerateTags (withLibrary lib' req).
Proof.
  intros Hsame.
  unfold providerGenerateTags,
    withRetryDefault, withRetry.
  cbn [withLibrary tagLibraryCsv settings pinnedTags excludedTags].
  by rewrite (retryFrom_ext _ _ _ _ _ _ Hsame).
Qed.

End ProviderFacts.

Lemma normalization_ignores_library_witness :
  (∀ n,
     fixedBackend (libraryPrompt (tagLibraryCsv someRequest)
                     (settings someRequest) (pinnedTags someRequest)
                     (excludedTags someRequest)) n =
     fixedBackend (libraryPrompt (js "another,library")
                     (settings someRequest) (pinnedTags someRequest)
                     (excludedTags someRequest)) n) ∧
  providerGenerateTags asciiLower simpleCsv noCleaning fixedParse libraryPrompt
    fixedBackend someRequest =
  providerGenerateTags asciiLower simpleCsv noCleaning fixedParse libraryPrompt
    fixedBackend (withLibrary (js "another,library") someRequest).
Proof.
  split; [done|].
  apply (normalization_ignores_library asciiLower simpleCsv noCleaning fixedParse
           libraryPrompt fixedBackend someRequest (js "another,library")).
  done.
Defined.

Example ex_provider_result :
  providerGenerateTags asciiLower simpleCsv noCleaning fixedParse libraryPrompt
    fixedBackend someRequest =
  Return {| description := js "a cover";
            tags := [{| name := js "Action"; score := 90 |}] |}.
Proof. vm_compute. reflexivity. Qed.

(** ** The orchestrator *)

Lemma startsWith_app p s : startsWith p (p ++ s) = true.
Proof.
  induction p as [|a p IH]; simpl; [done|].
  by rewrite bool_decide_eq_true_2, IH.
Qed.

Lemma includes_prefix p s : includes p (p ++ s) = true.
Proof.
  destruct (p ++ s) eqn:E; simpl; rewrite <-E, startsWith_app; done.
Qed.

Lemma includes_refl p : includes p p = true.
Proof. rewrite <-(app_nil_r p) at 2. apply includes_prefix. Qed.

Lemma includes_app_r p a s : includes p s = true → includes p (a ++ s) = true.
Proof.
  intros H. induction a as [|c a IH]; simpl; [done|].
  rewrite IH. apply orb_true_r.
Qed.

Lemma combinedMessage_includes primary backup err failoverErr :
  includes (errMessage err)
    (combinedMessage primary backup err failoverErr) = true ∧
  includes (errMessage failoverErr)
    (combinedMessage primary backup err failoverErr) = true.
Proof.
  unfold combinedMessage. split.
  - do 3 apply includes_app_r. apply includes_prefix.
  - do 7 apply includes_app_r. apply includes_refl.
Qed.

Lemma backupCalls_primaryAttempt env req :
  backupCalls (primaryAttempt env req).1 = 0.
Proof. unfold primaryAttempt. by destruct (ensureProviderIsActive env). Qed.

Lemma backupCalls_app tr1 tr2 :
  backupCalls (tr1 ++ tr2) = backupCalls tr1 + backupCalls tr2.
Proof. unfold backupCalls. by rewrite omap_app, length_app. Qed.

(** C5, as the code has it: failover is enabled and a backup is named in
    the configuration.  When the primary fails with a cancellation, the
    cancellation is thrown on and the backup is neither built nor called.
    When it fails otherwise, the factory is asked for the backup; if it
    builds one, the backup is called exactly once, and if it throws, the
    backup is not called and the factory's error stands for the backup's
    failure.  The backup's result comes back with usedFailover and the
    backup's identity; a cancellation of the backup is thrown on as it is;
    any other failure of it gives one error whose message holds both
    messages. *)
Theorem generateTags_failover_protocol env config req backup err :
  enableFailover config = true →
  failoverProvider config = Some backup →
  (primaryAttempt env req).2 = Throw err →
  let r := generateTags env config req in
  let failed failoverErr :=
    if isAbortError failoverErr then r.2 = Throw failoverErr
    else ∃ msg, r.2 = Throw (newError msg) ∧
                includes (errMessage err) msg = true ∧
                includes (errMessage failoverErr) msg = true in
  (isAbortError err = true →
     r.2 = Throw err ∧ r.1 = (primaryAttempt env req).1 ∧ backupCalls r.1 = 0) ∧
  (isAbortError err = false →
     match createProvider env backup (failoverApiKey env backup) with
     | Return p =>
         backupCalls r.1 = 1 ∧
         match p req with
         | Return res =>
             r.2 = Return {| result := res; usedFailover := true;
                             providerName := backup |}
         | Throw failoverErr => failed failoverErr
         end
     | Throw failoverErr => backupCalls r.1 = 0 ∧ failed failoverErr
     end).
Proof.
  intros Hen Hbackup Hprimary r failed. subst r failed. unfold generateTags.
  rewrite Hprimary, Hen, Hbackup. split; intros Habort; rewrite Habort.
  - split_and!; [done|done|]. apply backupCalls_primaryAttempt.
  - assert (∀ failoverErr,
              if isAbortError failoverErr
              then failoverFailed config backup err failoverErr = Throw failoverErr
              else ∃ msg,
                  failoverFailed config backup err failoverErr
                    = Throw (newError msg) ∧
                  includes (errMessage err) msg = true ∧
                  includes (errMessage failoverErr) msg = true) as Hfailed.
    { intros failoverErr. unfold failoverFailed.
      destruct (isAbortError failoverErr); [done|].
      eexists. split; [done|]. apply combinedMessage_includes. }
    destruct (createProvider env backup _) as [p|failoverErr]; cbn [fst snd].
    + split; [by rewrite backupCalls_app, backupCalls_primaryAttempt|].
      destruct (p req) as [res|failoverErr]; [done|apply Hfailed].
    + split; [by rewrite backupCalls_app, backupCalls_primaryAttempt|].
      apply Hfailed.
Qed.

Lemma generateTags_failover_protocol_witness :
  enableFailover failoverConfig = true ∧
  failoverProvider failoverConfig = Some openai ∧
  (primaryAttempt failoverEnv someRequest).2 = Throw rejectedKey ∧
  (generateTags failoverEnv failoverConfig someRequest).2 =
    Return {| result := someResult; usedFailover := true; providerName := openai |}.
Proof.
  split_and!; [done..|].
  destruct (generateTags_failover_protocol failoverEnv failoverConfig
              someRequest openai rejectedKey)
    as [_ Hfail]; [done..|].
  destruct (Hfail eq_refl) as [_ Hres]. exact Hres.
Defined.

(** C5 as stated fails: failover is enabled and [openai] is configured as
    the backup, the primary fails with an error that is no cancellation, but
    no key is stored for [openai]; the factory throws and the backup is not
    called at all. *)
Lemma backup_without_key_is_not_called :
  enableFailover failoverConfig = true ∧
  failoverProvider failoverConfig = Some openai ∧
  (primaryAttempt noBackupKeyEnv someRequest).2 = Throw rejectedKey ∧
  isAbortError rejectedKey = false ∧
  backupCalls (generateTags noBackupKeyEnv failoverConfig someRequest).1 = 0.
Proof. vm_compute. split_and!; reflexivity. Qed.

(** Without failover the error is thrown on, a [TypeError] as the
    cannot-connect error. *)
Lemma generateTags_no_failover env config req err :
  enableFailover config = false →
  (primaryAttempt env req).2 = Throw err →
  isAbortError err = false →
  (generateTags env config req).2 =
  if decide (errClass err = TypeError) then Throw (newError cannotConnectMessage)
  else Throw err.
Proof.
  intros Hen Hprimary Habort. unfold generateTags.
  by rewrite Hprimary, Hen, Habort.
Qed.

Example ex_backup_without_key :
  generateTags noBackupKeyEnv failoverConfig someRequest =
  ([CalledPrimary; CreatedBackup openai None],
   Throw (newError (combinedMessage gemini openai rejectedKey
                      (newError (js "OpenAI provider requires an API Key."))))).
Proof. vm_compute. reflexivity. Qed.

(** ** The batch run *)

Lemma updateItem_unique itemId f l1 x l2 :
  id x = itemId → itemId ∉ id <$> l1 → itemId ∉ id <$> l2 →
  updateItem itemId f (l1 ++ x :: l2) = l1 ++ f x :: l2.
Proof.
  intros Hx H1 H2. unfold updateItem.
  rewrite fmap_app, fmap_cons, decide_True by done.
  f_equal; [|f_equal].
  - rewrite <-(list_fmap_id l1) at 2. apply list_fmap_ext.
    intros _ y Hy%list_elem_of_lookup_2. rewrite decide_False; [done|].
    intros <-. apply H1. by apply list_elem_of_fmap_2.
  - rewrite <-(list_fmap_id l2) at 2. apply list_fmap_ext.
    intros _ y Hy%list_elem_of_lookup_2. rewrite decide_False; [done|].
    intros <-. apply H2. by apply list_elem_of_fmap_2.
Qed.

Lemma NoDup_ids_split (l1 : list BatchItem) x l2 :
  NoDup (id <$> (l1 ++ x :: l2)) →
  (id x ∉ id <$> l1) ∧ (id x ∉ id <$> l2).
Proof.
  rewrite fmap_app, fmap_cons.
  intros (H1 & H2 & H3)%NoDup_app. apply NoDup_cons in H3 as [H3 _].
  split; [|done]. intros Hin. apply (H2 _ Hin). by left.
Qed.

Section BatchFacts.
Context (env : BatchItem → Awaited).

Local Abbreviation batchLoop := (batchLoop env).
Local Abbreviation generateBatch := (generateBatch env).
Local Abbreviation cancelled := (cancelled env).
Local Abbreviation undisturbed := (undisturbed env).
Local Abbreviation completedAmong := (completedAmong env).
Local Abbreviation failedAmong := (failedAmong env).
Local Abbreviation processed := (processed env).

Lemma id_processed i : id (processed i) = id i.
Proof.
  unfold processed. case_decide; [done|].
  by destruct (settled (env i)).
Qed.

(** The loop up to and including the item whose call is cancelled. *)
Lemma batchLoop_cancelled item post pre :
  ∀ done st c f,
    batchItems st = done ++ pre ++ item :: post →
    NoDup (id <$> batchItems st) →
    batchController st = Some false →
    forallb (λ i, bool_decide (status i = completed) || undisturbed i) pre = true →
    status item ≠ completed →
    cancelled item = true →
    ∃ st',
      batchLoop (pre ++ item :: post) st c f =
        (st', c + completedAmong pre, f + failedAmong pre) ∧
      batchItems st' =
        done ++ (processed <$> pre) ++ withStatus pending item :: post ∧
      batchSummary st' = batchSummary st ∧
      batchToasts st' =
        batchToasts st ++
        (if pressedStop (env item) then [BatchStoppedToast] else []).
Proof.
  induction pre as [|x pre IH]; intros done st c f Hitems Hnodup Hctl Hpre Hitem Hcan.
  - (* the cancelled item *)
    simpl in *. rewrite Hctl. simpl. rewrite decide_False by done.
    unfold cancelled in Hcan.
    destruct (settled (env item)) as [|err] eqn:Hsettled; [done|].
    rewrite Hcan.
    rewrite Hitems in Hnodup. apply NoDup_ids_split in Hnodup as [Hd Hp].
    eexists. split_and!.
    + unfold completedAmong, failedAmong. simpl. by rewrite !Nat.add_0_r.
    + destruct (pressedStop (env item)); unfold batchStopGeneration;
        simpl; rewrite ?Hctl; simpl; rewrite Hitems;
        rewrite (updateItem_unique _ _ done item post) by done;
        by rewrite (updateItem_unique _ _ done _ post) by done.
    + destruct (pressedStop (env item)); unfold batchStopGeneration;
        simpl; rewrite ?Hctl; done.
    + destruct (pressedStop (env item)); unfold batchStopGeneration;
        simpl; rewrite ?Hctl; simpl; [done|by rewrite app_nil_r].
  - simpl in Hpre. apply andb_true_iff in Hpre as [Hx Hpre].
    cbn [app batchLoop]. rewrite Hctl. cbn [signalAborted].
    assert (completedAmong (x :: pre) =
            (if countsCompleted env x then 1 else 0) + completedAmong pre) as Hc.
    { unfold completedAmong. rewrite filter_cons.
      destruct (countsCompleted env x); by case_decide. }
    assert (failedAmong (x :: pre) =
            (if countsCompleted env x then 0 else 1) + failedAmong pre) as Hf.
    { unfold failedAmong. rewrite filter_cons.
      destruct (countsCompleted env x); by case_decide. }
    rewrite Hc, Hf.
    assert (done ++ (x :: pre) ++ item :: post
            = done ++ x :: (pre ++ item :: post)) as Hassoc by done.
    rewrite Hassoc in Hitems.
    pose proof Hnodup as Hnd. rewrite Hitems in Hnd.
    apply NoDup_ids_split in Hnd as [Hd Hp].
    destruct (decide (status x = completed)) as [Hdone|Hnotdone].
    + (* counted and skipped *)
      destruct (IH (done ++ [x]) st (S c) f) as (st' & Hloop & Hst' & Hsum & Htoast);
        [by rewrite <-app_assoc|done..|].
      exists st'. split_and!; [|..|done|done].
      * rewrite Hloop. unfold countsCompleted.
        rewrite bool_decide_eq_true_2 by done. simpl. do 2 f_equal; lia.
      * rewrite Hst', <-app_assoc. simpl. unfold processed.
        by rewrite decide_True by done.
    + rewrite bool_decide_eq_false_2 in Hx by done. simpl in Hx.
      unfold undisturbed in Hx.
      apply andb_true_iff in Hx as [Hstop%negb_true_iff Hcanx%negb_true_iff].
      unfold cancelled in Hcanx.
      simpl. rewrite Hctl, Hstop.
      destruct (settled (env x)) as [response|err] eqn:Hsettled.
      * (* completed *)
        set (st1 := onItemSuccess _ _ _).
        destruct (IH (done ++ [withCompleted (result response) x]) st1 (S c) f)
          as (st' & Hloop & Hst' & Hsum & Htoast); [| |done..|].
        { subst st1. simpl. rewrite Hitems.
          rewrite (updateItem_unique _ _ done x _) by done.
          rewrite (updateItem_unique _ _ done _ _) by done.
          by rewrite <-app_assoc. }
        { subst st1. simpl. rewrite Hitems.
          rewrite (updateItem_unique _ _ done x _) by done.
          rewrite (updateItem_unique _ _ done _ _) by done.
          rewrite Hitems in Hnodup.
          by rewrite fmap_app, fmap_cons in *. }
        exists st'. split_and!; [|..|done|done].
        -- rewrite Hloop. unfold countsCompleted. rewrite Hsettled.
           rewrite orb_true_r. do 2 f_equal; lia.
        -- rewrite Hst', <-app_assoc. simpl.
           unfold processed at 2.
           by rewrite decide_False, Hsettled by done.
      * (* failed, not cancelled *)
        rewrite Hcanx.
        set (st1 := setBatchItems _ _).
        destruct (IH (done ++ [withError (errMessage err) x]) st1 c (S f))
          as (st' & Hloop & Hst' & Hsum & Htoast); [| |done..|].
        { subst st1. simpl. rewrite Hitems.
          rewrite (updateItem_unique _ _ done x _) by done.
          rewrite (updateItem_unique _ _ done _ _) by done.
          by rewrite <-app_assoc. }
        { subst st1. simpl. rewrite Hitems.
          rewrite (updateItem_unique _ _ done x _) by done.
          rewrite (updateItem_unique _ _ done _ _) by done.
          rewrite Hitems in Hnodup.
          by rewrite fmap_app, fmap_cons in *. }
        exists st'. split_and!; [|..|done|done].
        -- rewrite Hloop. unfold countsCompleted. rewrite Hsettled.
           rewrite bool_decide_eq_false_2 by done. simpl. do 2 f_equal; lia.
        -- rewrite Hst', <-app_assoc. simpl.
           unfold processed at 2.
           by rewrite decide_False, Hsettled by done.
Qed.

(** C7, as the code has it: the call of an item is cancelled, and no call
    before it was disturbed.  The item goes back to pending, the items after
    it are left as they were, and the items before it are as the loop
    processed them.  The aggregate report (summary and toast) is emitted
    after the loop exactly when an item was counted as completed or failed
    before the cancellation. *)
Theorem generateBatch_cancelled st pre item post :
  isProcessing st = false →
  batchItems st = pre ++ item :: post →
  NoDup (id <$> batchItems st) →
  forallb (λ i, bool_decide (status i = completed) || undisturbed i) pre = true →
  status item ≠ completed →
  cancelled item = true →
  let st' := generateBatch true st in
  let c := completedAmong pre in
  let f := failedAmong pre in
  batchItems st' = (processed <$> pre) ++ withStatus pending item :: post ∧
  batchSummary st' = (if decide (0 < c + f) then Some (c, f) else None) ∧
  batchToasts st' =
    batchToasts st ++
    (if pressedStop (env item) then [BatchStoppedToast] else []) ++
    (if decide (0 < c + f) then [BatchFinishedToast c f] else []).
Proof.
  intros Hidle Hitems Hnodup Hpre Hitem Hcan st' c f. subst st'.
  unfold generateBatch. rewrite Hidle. cbn [negb orb].
  set (st1 := {| batchItems := batchItems st; batchSummary := None;
                 isProcessing := true; batchController := Some false |}).
  destruct (batchLoop_cancelled item post pre [] st1 0 0)
    as (st2 & Hloop & Hst2 & Hsum & Htoast); [done..|].
  change (0 + completedAmong pre) with c in Hloop.
  change (0 + failedAmong pre) with f in Hloop.
  rewrite Hitems, Hloop. simpl in Hst2, Hsum, Htoast.
  destruct (decide (0 < c + f)) as [Hpos|Hzero].
  - assert (bool_decide (0 < c) || bool_decide (0 < f) = true) as ->.
    { apply orb_true_iff. destruct (decide (0 < c)); [left|right];
        apply bool_decide_eq_true_2; lia. }
    split_and!.
    + destruct pre; simpl;
        destruct (from_option truthy false (activeBatchItemId st)); simpl;
        by rewrite Hst2.
    + by destruct pre; simpl;
        destruct (from_option truthy false (activeBatchItemId st)).
    + destruct pre; simpl;
        destruct (from_option truthy false (activeBatchItemId st)); simpl;
        by rewrite Htoast, <-app_assoc.
  - assert (bool_decide (0 < c) || bool_decide (0 < f) = false) as ->.
    { apply orb_false_iff. split; apply bool_decide_eq_false_2; lia. }
    simpl. split_and!; [done|by rewrite Hsum|by rewrite Htoast, app_nil_r].
Qed.

End BatchFacts.

(** C7 as stated fails: of five pending items the third is cancelled while
    it is processing; it goes back to pending and the last two are left
    alone, but the items completed before it are reported: the summary is
    set and the toast is sent. *)
Lemma batch_report_emitted_after_cancellation :
  let st' := generateBatch stopAtThird true fiveItems in
  status <$> batchItems st' = [completed; completed; pending; pending; pending] ∧
  batchSummary st' = Some (2, 0) ∧
  batchToasts st' = [BatchStoppedToast; BatchFinishedToast 2 0].
Proof. vm_compute. split_and!; reflexivity. Qed.

Lemma generateBatch_cancelled_witness :
  isProcessing fiveItems = false ∧
  batchItems fiveItems =
    (batchItemNamed <$> ["item1"; "item2"]%string) ++
    batchItemNamed "item3" :: (batchItemNamed <$> ["item4"; "item5"]%string) ∧
  NoDup (id <$> batchItems fiveItems) ∧
  forallb (λ i, bool_decide (status i = completed) || undisturbed stopAtThird i)
    (batchItemNamed <$> ["item1"; "item2"]%string) = true ∧
  status (batchItemNamed "item3") ≠ completed ∧
  cancelled stopAtThird (batchItemNamed "item3") = true ∧
  batchSummary (generateBatch stopAtThird true fiveItems) = Some (2, 0).
Proof.
  assert (NoDup (id <$> batchItems fiveItems)) as Hnodup.
  { apply (bool_decide_unpack _). vm_compute. exact I. }
  split_and!; [done|done|exact Hnodup|done|done|done|].
  destruct (generateBatch_cancelled stopAtThird fiveItems
              (batchItemNamed <$> ["item1"; "item2"]%string)
              (batchItemNamed "item3")
              (batchItemNamed <$> ["item4"; "item5"]%string))
    as (_ & Hsummary & _); [done|done|exact Hnodup|done|done|done|].
  exact Hsummary.
Defined.

(** ** The single-item controller *)

(** Starting a generation aborts the controller the ref holds and puts a
    fresh one in the ref. *)
Lemma generate_aborts_current isRegeneration st c :
  singleController st = Some c → c < length (controllers st) →
  let st' := generate true isRegeneration st in
  controllers st' !! c = Some true ∧
  singleController st' = Some (length (controllers st)) ∧
  controllers st' !! length (controllers st) = Some false.
Proof.
  intros Hc Hlt. simpl. unfold abortCurrent. rewrite Hc. split_and!.
  - rewrite lookup_app_l by (by rewrite length_insert).
    by apply list_lookup_insert_eq.
  - done.
  - rewrite lookup_app_r by (by rewrite length_insert).
    by rewrite length_insert, Nat.sub_diag.
Qed.

(** When the call of a superseded generation settles, its [finally] empties
    the ref, whichever controller it holds. *)
Lemma settle_clears_ref g o st :
  g ∈ awaiting st → singleController (settle g o st) = None.
Proof.
  intros Hg. unfold settle. rewrite bool_decide_eq_true_2 by done.
  by destruct o.
Qed.

(** So a generation [g'] whose token is in the ref loses it when another
    generation settles: its token stays live, and the next start does not
    abort it. *)
Lemma settle_orphans_live_token g o g' isRegeneration st :
  g ∈ awaiting st → g' ∈ awaiting st → g ≠ g' →
  controllers st !! g' = Some false →
  let st' := generate true isRegeneration (settle g o st) in
  g' ∈ liveTokens st' ∧ length (controllers st) ∈ liveTokens st'.
Proof.
  intros Hg Hg' Hne Hlive st'.
  assert (singleController (settle g o st) = None) as Href
    by by apply settle_clears_ref.
  assert (controllers (settle g o st) = controllers st) as Hctl.
  { unfold settle. rewrite bool_decide_eq_true_2 by done. by destruct o. }
  assert (g' ∈ awaiting (settle g o st)) as Hwait.
  { unfold settle. rewrite bool_decide_eq_true_2 by done.
    destruct o; simpl; apply list_elem_of_filter; by split. }
  subst st'. unfold liveTokens. simpl. unfold abortCurrent.
  rewrite Href, Hctl. split; apply list_elem_of_filter; split.
  - rewrite lookup_app_l; [done|]. by eapply lookup_lt_Some.
  - apply elem_of_app. by left.
  - by rewrite lookup_app_r, Nat.sub_diag.
  - apply elem_of_app. right. by left.
Qed.

(** C8, the code at the failing input: generation 0 is stopped and
    generation 1 is started; the call of generation 0 then settles with the
    AbortError and its [finally] empties the ref, which holds the token of
    generation 1; generation 2 finds no token to abort.  The tokens of
    generations 1 and 2 are both live, and generation 1 reaches its success
    effects after generation 2 has started. *)
Theorem single_generation_token_leak :
  let before := runSingle (take 4 threeGenerations) in
  let st := runSingle threeGenerations in
  singleController before = None ∧ liveTokens before = [1] ∧
  liveTokens st = [1; 2] ∧ controllers st = [true; false; false] ∧
  effects (runSingle (threeGenerations ++ [Settle 1 (Return someResponse)])) =
    [Started 0; StoppedToast; Started 1; Started 2; DoneToast 1;
     OnSuccess 1 someResult].
Proof. vm_compute. split_and!; reflexivity. Qed.

(** The same without the stop button: generation 1 started while
    generation 0 is in flight. *)
Example ex_token_leak_by_restart :
  let evs := [Generate true false; Generate true true;
              Settle 0 (Throw abortError); Generate true true] in
  liveTokens (runSingle evs) = [1; 2].
Proof. vm_compute. reflexivity. Qed.

(** * Further properties of the code *)

(** ** cleanJsonOutput *)

Lemma trimStart_suffix s : trimStart s `suffix_of` s.
Proof.
  induction s as [|c s IH]; simpl; [done|].
  destruct (isWhiteSpace c); [by apply suffix_cons_r|done].
Qed.

Lemma trimEnd_prefix s : trimEnd s `prefix_of` s.
Proof.
  apply prefix_suffix_reverse. unfold trimEnd. rewrite reverse_involutive.
  apply trimStart_suffix.
Qed.

Lemma matchStart_suffix pat s rest :
  matchStart pat s = Some rest → rest `suffix_of` s.
Proof.
  revert s. induction pat as [|cls pat IH]; intros [|c s]; simpl; try done.
  - by intros [= ->].
  - by intros [= ->].
  - case_bool_decide; [|done]. intros Hr%IH. by apply suffix_cons_r.
Qed.

Lemma removeOpening_suffix pat s : removeOpening pat s `suffix_of` s.
Proof.
  unfold removeOpening. destruct (matchStart pat s) as [rest|] eqn:E; [|done].
  etrans; [apply trimStart_suffix|by eapply matchStart_suffix].
Qed.

Lemma removeClosing_prefix s : removeClosing s `prefix_of` s.
Proof.
  unfold removeClosing.
  destruct (matchStart fence (reverse s)) as [rest|] eqn:E; [|done].
  apply prefix_suffix_reverse. rewrite reverse_involutive.
  etrans; [apply trimStart_suffix|by eapply matchStart_suffix].
Qed.

Lemma not_elem_of_suffix (c : code_unit) (l1 l2 : jsstring) :
  l1 `suffix_of` l2 → c ∉ l2 → c ∉ l1.
Proof. intros [k ->] H Hin. apply H, elem_of_app. by right. Qed.

Lemma not_elem_of_prefix (c : code_unit) (l1 l2 : jsstring) :
  l1 `prefix_of` l2 → c ∉ l2 → c ∉ l1.
Proof. intros [k ->] H Hin. apply H, elem_of_app. by left. Qed.

(** The operations at the start work on what precedes a code unit that is
    neither white space nor in the pattern. *)
Lemma trimStart_keeps c pre body :
  isWhiteSpace c = false →
  trimStart (pre ++ c :: body) = trimStart pre ++ c :: body.
Proof.
  intros Hc. induction pre as [|x pre IH]; simpl; [by rewrite Hc|].
  by destruct (isWhiteSpace x).
Qed.

Lemma matchStart_keeps c pat pre body :
  Forall (λ cls, c ∉ cls) pat →
  matchStart pat (pre ++ c :: body) =
  (λ r, r ++ c :: body) <$> matchStart pat pre.
Proof.
  intros Hpat. revert pre.
  induction Hpat as [|cls pat Hcls Hpat IH]; intros [|x pre]; simpl; try done.
  - by rewrite bool_decide_eq_false_2.
  - case_bool_decide; [apply IH|done].
Qed.

Lemma removeOpening_keeps c pat pre body :
  isWhiteSpace c = false → Forall (λ cls, c ∉ cls) pat →
  removeOpening pat (pre ++ c :: body) = removeOpening pat pre ++ c :: body.
Proof.
  intros Hc Hpat. unfold removeOpening.
  rewrite (matchStart_keeps c) by done.
  destruct (matchStart pat pre) as [r|]; simpl; [|done].
  by apply trimStart_keeps.
Qed.

Lemma trimEnd_keeps c body post :
  isWhiteSpace c = false →
  trimEnd (body ++ c :: post) = body ++ c :: trimEnd post.
Proof.
  intros Hc. unfold trimEnd.
  rewrite reverse_app, reverse_cons, <-app_assoc. cbn [app].
  rewrite trimStart_keeps by done.
  by rewrite reverse_app, reverse_cons, reverse_involutive, <-app_assoc.
Qed.

Lemma removeClosing_keeps c body post :
  isWhiteSpace c = false → Forall (λ cls, c ∉ cls) fence →
  removeClosing (body ++ c :: post) = body ++ c :: removeClosing post.
Proof.
  intros Hc Hpat. unfold removeClosing.
  rewrite reverse_app, reverse_cons, <-app_assoc. cbn [app].
  rewrite (matchStart_keeps c) by done.
  destruct (matchStart fence (reverse post)) as [r|]; cbn [fmap option_fmap option_map].
  - rewrite trimStart_keeps by done.
    by rewrite reverse_app, reverse_cons, reverse_involutive, <-app_assoc.
  - done.
Qed.

Lemma indexOf_first c pre body :
  c ∉ pre → indexOf c (pre ++ c :: body) = Some (length pre).
Proof.
  induction pre as [|x pre IH]; simpl; intros Hc.
  - by rewrite bool_decide_eq_true_2.
  - apply not_elem_of_cons in Hc as [Hx Hc].
    rewrite bool_decide_eq_false_2 by done. by rewrite IH.
Qed.

Lemma lastIndexOf_None c s : c ∉ s → lastIndexOf c s = None.
Proof.
  induction s as [|x s IH]; simpl; [done|].
  intros [Hx Hc]%not_elem_of_cons. rewrite IH by done.
  by rewrite bool_decide_eq_false_2.
Qed.

Lemma lastIndexOf_last c body post :
  c ∉ post → lastIndexOf c (body ++ c :: post) = Some (length body).
Proof.
  intros Hc. induction body as [|x body IH]; simpl.
  - rewrite lastIndexOf_None by done. by rewrite bool_decide_eq_true_2.
  - by rewrite IH.
Qed.

Lemma lbrace_plain :
  isWhiteSpace lbrace = false ∧ Forall (λ cls, lbrace ∉ cls) fenceJson ∧
  Forall (λ cls, lbrace ∉ cls) fence.
Proof.
  split_and!; [done| |];
    repeat (apply Forall_cons; split;
            [apply (proj1 (bool_decide_eq_false _)); vm_compute; reflexivity|]);
    apply Forall_nil_2.
Qed.

Lemma rbrace_plain :
  isWhiteSpace rbrace = false ∧ Forall (λ cls, rbrace ∉ cls) fence.
Proof.
  split; [done|].
  repeat (apply Forall_cons; split;
          [apply (proj1 (bool_decide_eq_false _)); vm_compute; reflexivity|]);
    apply Forall_nil_2.
Qed.

Lemma cleanJsonOutput_framed (pre mid post : jsstring) :
  lbrace ∉ pre → rbrace ∉ post →
  cleanJsonOutput (pre ++ lbrace :: mid ++ rbrace :: post)
  = lbrace :: mid ++ [rbrace].
Proof.
  intros Hpre Hpost.
  destruct lbrace_plain as (Hlw & Hlj & Hlf).
  destruct rbrace_plain as (Hrw & Hrf).
  unfold cleanJsonOutput.
  assert (truthy (pre ++ lbrace :: mid ++ rbrace :: post) = true) as ->
    by by destruct pre.
  cbn [negb].
  assert (∀ p q, p ++ lbrace :: mid ++ rbrace :: q
                 = (p ++ lbrace :: mid) ++ rbrace :: q) as Hassoc
    by (intros; by rewrite <-app_assoc).
  change (trim ?s) with (trimEnd (trimStart s)).
  rewrite (trimStart_keeps lbrace) by done.
  set (p1 := trimStart pre).
  assert (lbrace ∉ p1) as Hp1
    by (eapply not_elem_of_suffix; [apply trimStart_suffix|done]).
  rewrite Hassoc, (trimEnd_keeps rbrace), <-Hassoc by done.
  set (q1 := trimEnd post).
  assert (rbrace ∉ q1) as Hq1
    by (eapply not_elem_of_prefix; [apply trimEnd_prefix|done]).
  rewrite (removeOpening_keeps lbrace) by done.
  set (p2 := removeOpening fenceJson p1).
  assert (lbrace ∉ p2) as Hp2
    by (eapply not_elem_of_suffix; [apply removeOpening_suffix|done]).
  rewrite Hassoc, (removeClosing_keeps rbrace), <-Hassoc by done.
  set (q2 := removeClosing q1).
  assert (rbrace ∉ q2) as Hq2
    by (eapply not_elem_of_prefix; [apply removeClosing_prefix|done]).
  rewrite (removeOpening_keeps lbrace) by done.
  set (p3 := removeOpening fence p2).
  assert (lbrace ∉ p3) as Hp3
    by (eapply not_elem_of_suffix; [apply removeOpening_suffix|done]).
  rewrite Hassoc, (removeClosing_keeps rbrace), <-Hassoc by done.
  set (q3 := removeClosing q2).
  assert (rbrace ∉ q3) as Hq3
    by (eapply not_elem_of_prefix; [apply removeClosing_prefix|done]).
  rewrite indexOf_first by done.
  rewrite Hassoc, lastIndexOf_last, <-Hassoc by done.
  rewrite length_app. cbn [length].
  rewrite bool_decide_eq_true_2 by lia.
  unfold substring.
  rewrite Nat.min_l, Nat.max_r by lia.
  rewrite drop_app_length.
  replace (length p3 + S (length mid) + 1 - length p3)
    with (length (lbrace :: mid ++ [rbrace]))
    by (cbn [length]; rewrite length_app; simpl; lia).
  change (lbrace :: mid ++ rbrace :: q3)
    with ((lbrace :: mid) ++ [rbrace] ++ q3).
  rewrite app_assoc.
  by rewrite take_app_length.
Qed.

(** X1: whatever surrounds it (prose, white space, a Markdown fence), the
    text from the first opening brace to the last closing brace is what
    cleanJsonOutput returns, when that closing brace comes after the opening
    one; and cleaning the result again changes nothing. *)
Theorem cleanJsonOutput_extracts_object (pre mid post : jsstring) :
  lbrace ∉ pre → rbrace ∉ post →
  let text := pre ++ lbrace :: mid ++ rbrace :: post in
  cleanJsonOutput text = lbrace :: mid ++ [rbrace] ∧
  cleanJsonOutput (cleanJsonOutput text) = cleanJsonOutput text.
Proof.
  intros Hpre Hpost text. subst text.
  rewrite (cleanJsonOutput_framed pre mid post) by done. split; [done|].
  apply (cleanJsonOutput_framed [] mid []); apply not_elem_of_nil.
Qed.

Lemma cleanJsonOutput_extracts_object_witness :
  cleanJsonOutput fencedAnswer = bareObject.
Proof.
  destruct (cleanJsonOutput_extracts_object
              (js "Here you go:" ++ [newline] ++ js "```json" ++ [newline])
              (js " " ++ dquote ++ js "tags" ++ dquote ++ js ": [] ")
              ([newline] ++ js "```")) as [H _].
  - apply (proj1 (bool_decide_eq_false _)). vm_compute. reflexivity.
  - apply (proj1 (bool_decide_eq_false _)). vm_compute. reflexivity.
  - exact H.
Defined.

Lemma partOf_trans s t u : partOf s t → partOf t u → partOf s u.
Proof.
  intros (a & b & ->) (a' & b' & ->). exists (a' ++ a), (b ++ b').
  by rewrite <-!app_assoc.
Qed.

Lemma partOf_suffix s t : s `suffix_of` t → partOf s t.
Proof. intros [k ->]. exists k, []. by rewrite app_nil_r. Qed.

Lemma partOf_prefix s t : s `prefix_of` t → partOf s t.
Proof. intros [k ->]. by exists [], k. Qed.

Lemma partOf_substring a b s : partOf (substring a b s) s.
Proof.
  unfold substring. set (lo := a `min` b). set (n := a `max` b - lo).
  exists (take lo s), (drop n (drop lo s)).
  by rewrite take_drop, take_drop.
Qed.

(** X2: cleanJsonOutput only removes: for the empty text it returns the
    empty object, and for any other text a contiguous part of that text,
    with nothing added or changed. *)
Theorem cleanJsonOutput_only_removes (text : jsstring) :
  (text = [] ∧ cleanJsonOutput text = js "{}") ∨
  (text ≠ [] ∧ partOf (cleanJsonOutput text) text ∧
   length (cleanJsonOutput text) ≤ length text).
Proof.
  destruct text as [|c text]; [by left|right].
  split; [done|].
  assert (partOf (cleanJsonOutput (c :: text)) (c :: text)) as Hpart.
  { unfold cleanJsonOutput. cbn [truthy negb].
    set (c0 := trim (c :: text)).
    set (c1 := removeClosing (removeOpening fenceJson c0)).
    set (c2 := removeClosing (removeOpening fence c1)).
    assert (partOf c0 (c :: text)) as H0.
    { subst c0. change (trim ?s) with (trimEnd (trimStart s)).
      eapply partOf_trans;
        [apply partOf_prefix, trimEnd_prefix|apply partOf_suffix, trimStart_suffix]. }
    assert (partOf c1 c0) as H1.
    { subst c1. eapply partOf_trans;
        [apply partOf_prefix, removeClosing_prefix
        |apply partOf_suffix, removeOpening_suffix]. }
    assert (partOf c2 c1) as H2.
    { subst c2. eapply partOf_trans;
        [apply partOf_prefix, removeClosing_prefix
        |apply partOf_suffix, removeOpening_suffix]. }
    assert (partOf c2 (c :: text)) as H
      by (eapply partOf_trans; [|eapply partOf_trans]; done).
    destruct (indexOf lbrace c2), (lastIndexOf rbrace c2); try done.
    case_bool_decide; [|done].
    eapply partOf_trans; [apply partOf_substring|done]. }
  split; [done|].
  destruct Hpart as (a & b & Hab).
  rewrite Hab at 2. rewrite !length_app. lia.
Qed.

(** ** Images *)

Lemma split_no_sep sep s : sep ∉ s → split sep s = [s].
Proof.
  induction s as [|c s IH]; simpl; [done|].
  intros [Hc Hs]%not_elem_of_cons.
  rewrite bool_decide_eq_false_2 by done. by rewrite IH.
Qed.

Lemma split_first sep a b :
  sep ∉ a → split sep (a ++ sep :: b) = a :: split sep b.
Proof.
  induction a as [|c a IH]; simpl.
  - intros _. by rewrite bool_decide_eq_true_2.
  - intros [Hc Ha]%not_elem_of_cons.
    rewrite bool_decide_eq_false_2 by done. by rewrite IH.
Qed.

Lemma fileToGenerativePart_dataUrl (header payload mime : jsstring) :
  comma ∉ header → comma ∉ payload →
  fileToGenerativePart (header ++ comma :: payload) mime = (Some payload, mime).
Proof.
  intros Hh Hp. unfold fileToGenerativePart.
  by rewrite split_first, split_no_sep by done.
Qed.

(** X3: whatever GeminiProvider.generateImage returns is a JPEG data URL
    built from the image bytes it received, which were not empty and were
    received on a signal that was not aborted; fileToGenerativePart gets
    the same bytes back out of it (base64 text holds no comma). *)
Theorem generated_image_round_trip (aborted : bool)
    (response : outcome (option jsstring)) (url mime : jsstring) :
  geminiGenerateImage aborted response = Return url →
  ∃ imageBytes,
    aborted = false ∧ response = Return (Some imageBytes) ∧ imageBytes ≠ [] ∧
    url = js "data:image/jpeg;base64," ++ imageBytes ∧
    startsWith (js "data:") url = true ∧
    (comma ∉ imageBytes →
     fileToGenerativePart url mime = (Some imageBytes, mime)).
Proof.
  unfold geminiGenerateImage. destruct aborted; [done|].
  destruct response as [[imageBytes|]|e]; try done.
  destruct (truthy imageBytes) eqn:Ht; [|done].
  intros Heq.
  assert (url = js "data:image/jpeg;base64," ++ imageBytes) as -> by congruence.
  clear Heq. exists imageBytes. split_and!; [done|done| |done| |].
  - by apply truthy_true.
  - vm_compute. reflexivity.
  - intros Hc.
    apply (fileToGenerativePart_dataUrl (js "data:image/jpeg;base64"));
      [|done].
    apply (proj1 (bool_decide_eq_false _)). vm_compute. reflexivity.
Qed.

Lemma generated_image_round_trip_witness :
  fileToGenerativePart (js "data:image/jpeg;base64,AAECAw==") (js "image/jpeg")
  = (Some (js "AAECAw=="), js "image/jpeg").
Proof.
  destruct (generated_image_round_trip false (Return (Some (js "AAECAw==")))
              (js "data:image/jpeg;base64,AAECAw==") (js "image/jpeg"))
    as (bytes & _ & Hr & _ & _ & _ & Hpart); [reflexivity|].
  injection Hr as <-. apply Hpart.
  apply (proj1 (bool_decide_eq_false _)). vm_compute. reflexivity.
Defined.

(** ** withRetry *)

Lemma retrySchedule_step bd bf attempt n :
  attempt < n →
  retrySchedule bd bf attempt n =
  Called attempt :: Slept (bd * bf ^ N.of_nat attempt)%N ::
    retrySchedule bd bf (S attempt) n.
Proof.
  intros Hlt. unfold retrySchedule.
  replace (n - attempt) with (S (n - S attempt)) by lia.
  by rewrite seq_S_start || (cbn [seq]; csimpl).
Qed.

Lemma retryFrom_trace {T} (fn : nat → outcome T) bd bf remaining attempt :
  let r := retryFrom fn bd bf remaining attempt in
  ∃ n, attempt ≤ n ≤ attempt + remaining ∧
       r.1 = retrySchedule bd bf attempt n ∧
       r.2 = fn n ∧
       (∀ k, attempt ≤ k < n → ∃ e, fn k = Throw e ∧ terminal e = false) ∧
       (n = attempt + remaining ∨ (∃ v, fn n = Return v) ∨
        (∃ e, fn n = Throw e ∧ terminal e = true)).
Proof.
  assert (retrySchedule bd bf attempt attempt = [Called attempt]) as Hsame.
  { unfold retrySchedule. by rewrite Nat.sub_diag. }
  revert attempt Hsame.
  induction remaining as [|remaining IH]; intros attempt Hsame; cbn zeta.
  - exists attempt. cbn [retryFrom].
    destruct (fn attempt) as [v|e] eqn:Hfn; cbn [fst snd].
    + split_and!; [lia|lia|by rewrite Hsame|done|intros; lia|eauto].
    + destruct (isAuthError (errMessage e) || isBadRequest (errMessage e));
        cbn [fst snd]; (split_and!; [lia|lia|by rewrite Hsame|done|intros; lia|left; lia]).
  - cbn [retryFrom].
    destruct (fn attempt) as [v|e] eqn:Hfn; cbn [fst snd].
    + exists attempt. split_and!; [lia|lia|by rewrite Hsame|done|intros; lia|eauto].
    + destruct (isAuthError (errMessage e) || isBadRequest (errMessage e))
        eqn:Hterm; cbn [fst snd].
      * exists attempt. split_and!; [lia|lia|by rewrite Hsame|done|intros; lia|].
        right. right. by exists e.
      * destruct (IH (S attempt)) as (n & Hn & Htr & Hout & Hbefore & Hstop).
        { unfold retrySchedule. by rewrite Nat.sub_diag. }
        exists n. split_and!; [lia|lia| |done| |].
        -- rewrite retrySchedule_step by lia. cbn zeta in Htr. by rewrite Htr.
        -- intros k Hk. destruct (decide (k = attempt)) as [->|Hne].
           ++ by exists e.
           ++ apply Hbefore. lia.
        -- destruct Hstop as [->|Hstop]; [left; lia|by right].
Qed.

Lemma delaysInRange_lt bd bf n k :
  delaysInRange bd bf n = true → k < n → (bd * bf ^ N.of_nat k < 2 ^ 31)%N.
Proof.
  unfold delaysInRange. rewrite forallb_forall. intros Hall Hk.
  specialize (Hall k). rewrite in_seq in Hall.
  apply andb_true_iff in Hall as [_ Hlt]; [|lia].
  by apply N.ltb_lt.
Qed.

Lemma retrySchedule_calls_sleeps bd bf a m :
  callsIn (retrySchedule bd bf a (a + m)) = seq a (S m) ∧
  sleepsIn (retrySchedule bd bf a (a + m))
    = (λ k, (bd * bf ^ N.of_nat k)%N) <$> seq a m.
Proof.
  revert a. induction m as [|m IH]; intros a.
  - unfold retrySchedule. rewrite Nat.add_0_r, Nat.sub_diag. done.
  - rewrite retrySchedule_step by lia.
    replace (a + S m) with (S a + m) by lia.
    destruct (IH (S a)) as [Hc Hs].
    change (callsIn (Called a :: Slept ?d :: ?l)) with (a :: callsIn l).
    change (sleepsIn (Called a :: Slept ?d :: ?l)) with (d :: sleepsIn l).
    by rewrite Hc, Hs.
Qed.

Lemma retrySchedule_sleeps_in_range bd bf n :
  delaysInRange bd bf n = true →
  Forall (λ ms, (ms < 2 ^ 31)%N) (sleepsIn (retrySchedule bd bf 0 n)).
Proof.
  intros Hexact. destruct (retrySchedule_calls_sleeps bd bf 0 n) as [_ Hs].
  simpl in Hs. rewrite Hs. apply Forall_fmap, Forall_forall.
  intros k Hk%elem_of_seq. simpl. apply (delaysInRange_lt bd bf n); [done|lia].
Qed.

Lemma delaysInRange_le bd bf n m :
  delaysInRange bd bf m = true → n ≤ m → delaysInRange bd bf n = true.
Proof.
  unfold delaysInRange. rewrite !forallb_forall. intros Hall Hle k Hk.
  apply Hall. rewrite in_seq in *. lia.
Qed.



(** X5: withRetry recovers from transient failures: when call [k], within
    the integer budget, is the first to succeed, the calls before it failed
    with errors that are not terminal and the k delays are integers whose
    powers and products stay below 2^31, the result is that success, after
    exactly the calls 0..k and the k sleeps between them, each below 2^31. *)
Theorem withRetry_recovers {T} (fn : nat → outcome T) (retries : nat)
    (baseDelay backoffFactor : N) (k : nat) (v : T) :
  delaysInRange baseDelay backoffFactor k = true →
  k ≤ retries →
  fn k = Return v →
  (∀ j, j < k → ∃ e, fn j = Throw e ∧ terminal e = false) →
  withRetry fn retries baseDelay backoffFactor =
    (retrySchedule baseDelay backoffFactor 0 k, Return v) ∧
  Forall (λ ms, (ms < 2 ^ 31)%N)
    (sleepsIn (withRetry fn retries baseDelay backoffFactor).1).
Proof.
  intros Hexact Hk Hv Hbefore.
  destruct (retryFrom_trace fn baseDelay backoffFactor retries 0)
    as (n & Hn & Htr & Hout & Hnb & Hstop).
  assert (n = k) as ->.
  { destruct (decide (n < k)) as [Hlt|Hge].
    - destruct (Hbefore n Hlt) as (e & He & Hte).
      destruct Hstop as [->|[(w & Hw)|(e' & He' & Hte')]];
        [lia|congruence|congruence].
    - destruct (decide (k < n)) as [Hgt|?]; [|lia].
      destruct (Hnb k) as (e & He & _); [lia|congruence]. }
  unfold withRetry.
  destruct (retryFrom fn baseDelay backoffFactor retries 0) as [tr out].
  simpl in *. rewrite Htr, Hout, Hv. split; [done|].
  by apply retrySchedule_sleeps_in_range.
Qed.

Lemma withRetry_recovers_witness :
  withRetryDefault limitedTwice =
  ([Called 0; Slept 1000; Called 1; Slept 2000; Called 2], Return (js "{}")).
Proof.
  destruct (withRetry_recovers limitedTwice 3 1000 2 2 (js "{}")) as [H _].
  - reflexivity.
  - lia.
  - reflexivity.
  - intros j Hj. exists (openAIStatusError 429 (js "slow down")).
    split; [|vm_compute; reflexivity].
    unfold limitedTwice. by rewrite decide_True.
  - exact H.
Defined.

(** ** levenshteinDistance and the fuzzy search *)

Lemma lev_le_max {A} `{EqDecision A} (a b : list A) :
  lev a b ≤ length a `max` length b.
Proof.
  revert b. induction a as [|x a IHa]; intros b.
  - rewrite lev_nil_l. lia.
  - induction b as [|y b IHb].
    + rewrite lev_nil_r. lia.
    + rewrite lev_cons. pose proof (subst_cost_le x y).
      pose proof (IHa b). unfold min3. cbn [length]. lia.
Qed.

(** X6: the distance is never below the difference of the two lengths and
    never above the longer length; in particular the distance to the empty
    string is the length. *)
Theorem levenshteinDistance_bounds (s t : jsstring) :
  ∃ d, levenshteinDistance s t = Some d ∧
       abs_diff (length s) (length t) ≤ d ∧
       d ≤ length s `max` length t ∧
       levenshteinDistance s [] = Some (length s) ∧
       levenshteinDistance [] t = Some (length t).
Proof.
  exists (lev s t). rewrite !levenshteinDistance_lev.
  split_and!; [done| |apply lev_le_max|by rewrite lev_nil_r|done].
  pose proof (lev_length_diff s t). unfold abs_diff. lia.
Qed.

(** The length test at the top of the fuzzy loop is an optimisation
    only: a step of the loop does what it would do without the test, since
    a key it skips is farther away than the threshold. *)
Lemma fuzzy_step_length_test_redundant (normalizedInput : jsstring)
    (maxDistance : nat) (st : fuzzy_state) (key : jsstring) :
  fuzzy_step normalizedInput maxDistance st key =
  match levenshteinDistance normalizedInput key with
  | Some dist =>
      if bool_decide (dist ≤ maxDistance) && below dist st.2
      then (Some key, Some dist) else st
  | None => st
  end.
Proof. rewrite fuzzy_step_lev. by rewrite levenshteinDistance_lev. Qed.

(** ** normalizeTags *)

Lemma trimStart_idemp s : trimStart (trimStart s) = trimStart s.
Proof.
  induction s as [|c s IH]; simpl; [done|].
  destruct (isWhiteSpace c) eqn:E; [done|]. simpl. by rewrite E.
Qed.

Lemma trimStart_fixed_prefix u v :
  trimStart u = u → v `prefix_of` u → trimStart v = v.
Proof.
  intros Hu [k ->]. destruct v as [|c v]; [done|].
  simpl in *. destruct (isWhiteSpace c); [|done].
  pose proof (trimStart_suffix (v ++ k)) as Hs%suffix_length.
  rewrite Hu in Hs. simpl in Hs. lia.
Qed.

Lemma trimEnd_idemp s : trimEnd (trimEnd s) = trimEnd s.
Proof. unfold trimEnd. by rewrite reverse_involutive, trimStart_idemp. Qed.

Lemma trim_idemp s : trim (trim s) = trim s.
Proof.
  assert (∀ x, trim x = trimEnd (trimStart x)) as E by done.
  rewrite !E.
  rewrite (trimStart_fixed_prefix (trimStart s) (trimEnd (trimStart s)));
    [apply trimEnd_idemp|apply trimStart_idemp|apply trimEnd_prefix].
Qed.

Lemma column_trimmed parts i : trim (column parts i) = column parts i.
Proof.
  unfold column. destruct (parts !! i); simpl; [apply trim_idemp|done].
Qed.

Lemma filterSeen_app seen a b :
  filterSeen seen (a ++ b) =
  filterSeen seen a ++ filterSeen (list_to_set (name <$> a) ∪ seen) b.
Proof.
  revert seen. induction a as [|x a IH]; intros seen; simpl.
  - by rewrite (left_id_L ∅ (∪)).
  - assert (∀ X : gset jsstring,
              ({[name x]} ∪ X) ∪ seen = X ∪ ({[name x]} ∪ seen)) as Hc.
    { intros X. by rewrite (comm_L (∪) {[name x]} X), <-(assoc_L (∪)). }
    rewrite IH, Hc. by case_bool_decide.
Qed.

Lemma filterSeen_filter (s seen : gset jsstring) l :
  filterSeen (s ∪ seen) l = filter (λ t, name t ∉ s) (filterSeen seen l).
Proof.
  revert seen. induction l as [|x l IH]; intros seen; simpl; [done|].
  assert ({[name x]} ∪ (s ∪ seen) = s ∪ ({[name x]} ∪ seen)) as Hcomm.
  { rewrite !(assoc_L (∪)). f_equal. apply (comm_L (∪)). }
  rewrite Hcomm, IH.
  destruct (decide (name x ∈ seen)) as [Hs|Hs].
  - rewrite !bool_decide_eq_true_2; [done|done|].
    apply elem_of_union. by right.
  - rewrite (bool_decide_eq_false_2 (name x ∈ seen)) by done.
    destruct (decide (name x ∈ s)) as [Hx|Hx].
    + rewrite bool_decide_eq_true_2 by (apply elem_of_union; by left).
      by rewrite filter_cons_False by (intros Hn; by apply Hn).
    + rewrite bool_decide_eq_false_2
        by (intros [?|?]%elem_of_union; done).
      by rewrite filter_cons_True by done.
Qed.

Lemma names_filterSeen l (n : jsstring) :
  n ∈ name <$> filterSeen ∅ l ↔ n ∈ name <$> l.
Proof.
  rewrite !list_elem_of_fmap. split.
  - intros (t & -> & Ht). exists t. split; [done|].
    eapply elem_of_sublist; [done|apply filterSeen_sublist].
  - intros (t & -> & Ht).
    destruct (filterSeen_covers ∅ l t Ht) as (t' & Ht' & Hn);
      [apply not_elem_of_empty|].
    by exists t'.
Qed.

Section NormalizeFacts.
Context (toLowerCase : jsstring → jsstring).
Context (tagDataCsv : jsstring).

Local Abbreviation registers := (registers toLowerCase).
Local Abbreviation buildIndex := (buildIndex toLowerCase tagDataCsv).
Local Abbreviation dataLines := (dataLines tagDataCsv).
Local Abbreviation createTagLookup := (createTagLookup toLowerCase tagDataCsv).
Local Abbreviation normalizeTags := (normalizeTags toLowerCase tagDataCsv).

(** Where the name of a returned tag comes from. *)
Lemma normalizeTags_provenance targetLang
    (tags : list GeneratedTag) (t : GeneratedTag) :
  t ∈ normalizeTags tags targetLang →
  name t ≠ [] ∧ trim (name t) = name t ∧
  (∃ t0, t0 ∈ tags ∧ score t0 = score t ∧
         createTagLookup targetLang (name t0) = Some (name t)) ∧
  (∃ line k, line ∈ dataLines ∧ registers targetLang line k (name t)).
Proof.
  unfold normalizeTags. intros Ht.
  apply (λ H, elem_of_sublist _ _ _ H (filterSeen_sublist _ _)) in Ht.
  apply list_elem_of_omap in Ht as (t0 & Ht0 & Hr).
  rewrite renamed_fmap in Hr.
  destruct (createTagLookup targetLang (name t0)) as [m|] eqn:Hm; [|done].
  simpl in Hr. injection Hr as <-. simpl.
  pose proof Hm as (k & Hk)%createTagLookup_value.
  pose proof Hk as (pre & line & post & Hd & Hreg & _)%index_provenance.
  split_and!.
  - by eapply lookupMap_truthy.
  - destruct Hreg as [(_ & -> & _)|(_ & -> & _)];
      [|destruct targetLang]; apply column_trimmed.
  - by exists t0.
  - exists line, k. split; [|done]. rewrite Hd.
    apply elem_of_app. right. by left.
Qed.

(** X7: strict mode: every tag normalizeTags returns carries a name taken
    from the dataset: a column, trimmed and not empty, of a data line that
    registers it; and the tag is one of the input tags, renamed by the
    lookup, with its score. *)
Theorem normalizeTags_names_from_library targetLang
    (tags : list GeneratedTag) (t : GeneratedTag) :
  t ∈ normalizeTags tags targetLang →
  name t ≠ [] ∧ trim (name t) = name t ∧
  (∃ t0, t0 ∈ tags ∧ score t0 = score t ∧
         createTagLookup targetLang (name t0) = Some (name t)) ∧
  (∃ line k, line ∈ dataLines ∧ registers targetLang line k (name t)).
Proof. apply normalizeTags_provenance. Qed.

(** X8: normalizeTags of two lists put end to end: the result for the first
    list, followed by the result for the second list without the tags whose
    name the first result already has.  So appending raw tags never changes
    the tags accepted before. *)
Theorem normalizeTags_app targetLang (tags1 tags2 : list GeneratedTag) :
  normalizeTags (tags1 ++ tags2) targetLang =
  normalizeTags tags1 targetLang ++
  filter (λ t, name t ∉ name <$> normalizeTags tags1 targetLang)
    (normalizeTags tags2 targetLang).
Proof.
  unfold normalizeTags. rewrite omap_app, filterSeen_app. f_equal.
  rewrite filterSeen_filter. apply list_filter_iff.
  intros t. by rewrite elem_of_list_to_set, names_filterSeen.
Qed.

End NormalizeFacts.

Lemma normalizeTags_names_from_library_witness :
  js "Action" ≠ [] ∧ trim (js "Action") = js "Action".
Proof.
  assert ({| name := js "Action"; score := 90 |} ∈
          normalizeTags asciiLower simpleCsv
            [{| name := js "actoin"; score := 90 |}] en) as Hin.
  { assert (normalizeTags asciiLower simpleCsv
              [{| name := js "actoin"; score := 90 |}] en
            = [{| name := js "Action"; score := 90 |}]) as ->
      by (vm_compute; reflexivity).
    by left. }
  destruct (normalizeTags_names_from_library asciiLower simpleCsv en _ _ Hin)
    as (Hne & Htrim & _).
  split; [exact Hne|exact Htrim].
Defined.

(** X9: a dataset that is its header line only (no line break) registers
    nothing: the lookup rejects every candidate and normalizeTags returns
    no tag. *)
Theorem header_only_dataset_rejects_all (toLowerCase : jsstring → jsstring)
    (tagDataCsv : jsstring) (targetLang : Lang) (tags : list GeneratedTag) :
  newline ∉ tagDataCsv →
  (∀ tagName, createTagLookup toLowerCase tagDataCsv targetLang tagName = None) ∧
  normalizeTags toLowerCase tagDataCsv tags targetLang = [].
Proof.
  intros Hnl.
  assert (buildIndex toLowerCase tagDataCsv targetLang = emptyIndex) as Hix.
  { unfold buildIndex, dataLines. by rewrite split_no_sep. }
  assert (∀ tagName,
            createTagLookup toLowerCase tagDataCsv targetLang tagName = None)
    as Hnone.
  { intros tagName. unfold createTagLookup. rewrite Hix. unfold lookupIn.
    destruct (truthy tagName); simpl; [|done]. by rewrite lookup_empty. }
  split; [done|]. unfold normalizeTags.
  induction tags as [|t tags IH]; [done|].
  csimpl. unfold renamed at 1. by rewrite Hnone.
Qed.

Lemma header_only_dataset_rejects_all_witness :
  normalizeTags asciiLower (js "tag,definition")
    [{| name := js "tag"; score := 90 |}] en = [].
Proof.
  apply (header_only_dataset_rejects_all asciiLower (js "tag,definition") en).
  apply (proj1 (bool_decide_eq_false _)). vm_compute. reflexivity.
Defined.

(** ** useTagData *)

(** X10: the description map never holds an empty key or an empty
    description, and both are free of surrounding white space. *)
Theorem useTagData_entries_clean (csvContent : option jsstring)
    (k desc : jsstring) :
  tagMap (useTagData csvContent) !! k = Some desc →
  k ≠ [] ∧ desc ≠ [] ∧ trim k = k ∧ trim desc = desc.
Proof.
  destruct csvContent as [csv|]; [|simpl; by rewrite lookup_empty].
  intros (line & _ & Hd)%useTagData_provenance.
  destruct Hd as (_ & Hk & Hdesc & Hcols). split_and!; [done|done| |].
  - destruct Hcols as [(_ & _ & -> & _)|(_ & _ & _ & [ ->|[ ->| ->]])];
      apply column_trimmed.
  - destruct Hcols as [(_ & _ & _ & ->)|(_ & _ & -> & _)];
      apply column_trimmed.
Qed.

Lemma useTagData_entries_clean_witness :
  [25136; 39717; 22580; 26223]%N ≠ [] ∧
  trim (js "action") = js "action".
Proof.
  destruct (useTagData_entries_clean (Some scenarioMultilingualCsv)
              (js "action") [25136; 39717; 22580; 26223]%N)
    as (_ & Hd & Hk & _); [vm_compute; reflexivity|].
  split; [exact Hd|exact Hk].
Defined.

Lemma split_no_sep_in sep s w : w ∈ split sep s → sep ∉ w.
Proof.
  revert w. induction s as [|c s IH]; simpl; intros w.
  - intros ->%list_elem_of_singleton. apply not_elem_of_nil.
  - case_bool_decide as Hc.
    + intros [ ->|Hw]%elem_of_cons; [apply not_elem_of_nil|by apply IH].
    + destruct (split sep s) as [|w0 ws] eqn:E.
      * intros ->%list_elem_of_singleton.
        apply not_elem_of_cons. split; [done|apply not_elem_of_nil].
      * intros [ ->|Hw]%elem_of_cons.
        -- apply not_elem_of_cons. split; [done|]. apply IH. by left.
        -- apply IH. by right.
Qed.

Lemma split_join sep (l : list jsstring) :
  l ≠ [] → Forall (λ w, sep ∉ w) l → split sep (join [sep] l) = l.
Proof.
  intros Hne Hl. induction Hl as [|w l Hw Hl IH]; [done|].
  destruct l as [|w' l].
  - simpl. by apply split_no_sep.
  - change (join [sep] (w :: w' :: l)) with (w ++ sep :: join [sep] (w' :: l)).
    rewrite split_first by done. by rewrite IH.
Qed.

Lemma not_elem_of_trim (c : code_unit) s : c ∉ s → c ∉ trim s.
Proof.
  intros Hc. change (trim s) with (trimEnd (trimStart s)).
  eapply not_elem_of_prefix; [apply trimEnd_prefix|].
  eapply not_elem_of_suffix; [apply trimStart_suffix|done].
Qed.

Lemma tagDataStep_rows simple st line :
  (tagDataStep simple st line).1 =
  st.1 ++ from_option (λ r, [r]) [] (keptRow simple line).
Proof.
  unfold tagDataStep, keptRow, isDataLine. cbv zeta.
  destruct (bool_decide (0 < length (trim line)) &&
            negb (startsWith (js ",==") (trim line)));
    [|by rewrite app_nil_r].
  destruct (simple && _).
  - destruct (truthy (column _ 0)); simpl; [done|by rewrite app_nil_r].
  - case_bool_decide; simpl; [done|by rewrite app_nil_r].
Qed.

Lemma foldl_tagDataStep_rows simple lines st :
  (foldl (tagDataStep simple) st lines).1 = st.1 ++ omap (keptRow simple) lines.
Proof.
  revert st. induction lines as [|line lines IH]; intros st.
  - by rewrite app_nil_r.
  - simpl. rewrite IH, tagDataStep_rows. csimpl.
    destruct (keptRow simple line); simpl; [|by rewrite app_nil_r].
    by rewrite <-app_assoc.
Qed.

Lemma keptRow_clean simple line r :
  newline ∉ line → keptRow simple line = Some r →
  r = trim line ∧ r ≠ [] ∧ startsWith (js ",==") r = false ∧
  trim r = r ∧ newline ∉ r.
Proof.
  intros Hnl. unfold keptRow, isDataLine. cbv zeta.
  destruct (bool_decide (0 < length (trim line))) eqn:Hlen; [|done].
  destruct (startsWith (js ",==") (trim line)) eqn:Hsep; [done|].
  apply bool_decide_eq_true in Hlen. simpl.
  intros Hr. assert (r = trim line) as ->.
  { destruct (simple && _) in Hr.
    - destruct (truthy (column _ 0)); by simplify_eq.
    - case_bool_decide; by simplify_eq. }
  split_and!; [done| |done|apply trim_idemp|by apply not_elem_of_trim].
  intros E. rewrite E in Hlen. simpl in Hlen. lia.
Qed.

Lemma omap_sublist_fmap {X Y} (f : X → option Y) (g : X → Y) l :
  (∀ x y, f x = Some y → y = g x) → omap f l `sublist_of` (g <$> l).
Proof.
  intros Hfg. induction l as [|x l IH]; csimpl; [constructor|].
  destruct (f x) as [y|] eqn:E; simpl.
  - rewrite (Hfg _ _ E). by constructor.
  - by constructor.
Qed.

(** X11: the tag library handed to the model is the header of the detected
    format followed by rows of the dataset: split at the line breaks it is
    the header and then the kept rows; these are data lines of the dataset
    in their order, trimmed, none empty and none a separator line. *)
Theorem useTagData_library (csv : jsstring) :
  csv ≠ [] →
  let lines := split newline csv in
  ∃ rows,
    rows `sublist_of` (trim <$> drop 1 lines) ∧
    Forall (λ r, r ≠ [] ∧ startsWith (js ",==") r = false ∧ trim r = r) rows ∧
    split newline (tagLibrary (useTagData (Some csv))) =
      libraryHeader (isSimpleFormat lines) ::
      (if decide (rows = []) then [[]] else rows).
Proof.
  intros Hne%truthy_true lines.
  set (simple := isSimpleFormat lines).
  exists (omap (keptRow simple) (drop 1 lines)).
  assert (∀ line, line ∈ drop 1 lines → newline ∉ line) as Hnl.
  { intros line Hin. eapply (split_no_sep_in newline csv).
    eapply elem_of_sublist; [done|]. apply sublist_drop. }
  assert (Forall (λ r, r ≠ [] ∧ startsWith (js ",==") r = false ∧
                       trim r = r ∧ newline ∉ r)
            (omap (keptRow simple) (drop 1 lines))) as Hclean.
  { apply Forall_forall. intros r (line & Hline & Hr)%list_elem_of_omap.
    destruct (keptRow_clean simple line r) as (_ & ? & ? & ? & ?); auto. }
  split_and!.
  - apply omap_sublist_fmap. intros line r Hr.
    unfold keptRow in Hr. cbv zeta in Hr.
    destruct (isDataLine line); [|done].
    destruct (simple && _) in Hr.
    + destruct (truthy (column _ 0)); by simplify_eq.
    + case_bool_decide; by simplify_eq.
  - eapply Forall_impl; [exact Hclean|]. by intros r (? & ? & ? & _).
  - unfold useTagData. rewrite Hne. cbn [negb tagLibrary].
    fold lines. fold simple. rewrite foldl_tagDataStep_rows. cbn [fst app].
    change (if simple then simpleHeader else multilingualHeader)
      with (libraryHeader simple).
    rewrite split_first
      by (unfold libraryHeader; destruct simple;
          apply (proj1 (bool_decide_eq_false _)); vm_compute; reflexivity).
    f_equal. case_decide as Hrows.
    + by rewrite Hrows.
    + apply split_join; [done|].
      eapply Forall_impl; [exact Hclean|]. by intros r (_ & _ & _ & ?).
Qed.

Lemma useTagData_library_witness :
  ∃ rows,
    split newline (tagLibrary (useTagData (Some scenarioSimpleCsv))) =
      libraryHeader (isSimpleFormat (split newline scenarioSimpleCsv)) ::
      (if decide (rows = []) then [[]] else rows).
Proof.
  destruct (useTagData_library scenarioSimpleCsv) as (rows & _ & _ & Hsplit);
    [done|].
  exists rows. exact Hsplit.
Defined.

(** ** Canonical names and descriptions

    createTagLookup splits a line as it is, useTagData splits the trimmed
    line; the columns, trimmed, are the same. *)

Lemma trimStart_nil_iff s : trimStart s = [] ↔ Forall (λ c, isWhiteSpace c = true) s.
Proof.
  induction s as [|c s IH]; simpl; [by split|].
  destruct (isWhiteSpace c) eqn:E.
  - rewrite IH. split; [by constructor|by inversion 1].
  - split; [done|]. inversion 1; congruence.
Qed.

Lemma trimStart_ws_l w s :
  Forall (λ c, isWhiteSpace c = true) w → trimStart (w ++ s) = trimStart s.
Proof. induction 1 as [|c w Hc _ IH]; simpl; [done|by rewrite Hc]. Qed.

Lemma trimStart_app_r s w :
  trimStart s ≠ [] → trimStart (s ++ w) = trimStart s ++ w.
Proof.
  induction s as [|c s IH]; simpl; [done|].
  by destruct (isWhiteSpace c).
Qed.

Lemma trimStart_decomp s :
  ∃ w, s = w ++ trimStart s ∧ Forall (λ c, isWhiteSpace c = true) w.
Proof.
  induction s as [|c s (w & Hs & Hw)]; simpl; [by exists []|].
  destruct (isWhiteSpace c) eqn:E.
  - exists (c :: w). split; [by rewrite Hs at 1|by constructor].
  - by exists [].
Qed.

Lemma trimEnd_decomp s :
  ∃ w, s = trimEnd s ++ w ∧ Forall (λ c, isWhiteSpace c = true) w.
Proof.
  destruct (trimStart_decomp (reverse s)) as (w & Hs & Hw).
  exists (reverse w). split; [|by apply Forall_reverse].
  unfold trimEnd. rewrite <-reverse_app, <-Hs. by rewrite reverse_involutive.
Qed.

Lemma trimEnd_ws_r s w :
  Forall (λ c, isWhiteSpace c = true) w → trimEnd (s ++ w) = trimEnd s.
Proof.
  intros Hw. unfold trimEnd.
  by rewrite reverse_app, trimStart_ws_l by by apply Forall_reverse.
Qed.

Lemma trim_ws_l w s :
  Forall (λ c, isWhiteSpace c = true) w → trim (w ++ s) = trim s.
Proof. intros Hw. unfold trim. by rewrite trimStart_ws_l. Qed.

Lemma trim_ws_r s w :
  Forall (λ c, isWhiteSpace c = true) w → trim (s ++ w) = trim s.
Proof.
  intros Hw.
  assert (∀ x, trim x = trimEnd (trimStart x)) as E by done.
  rewrite !E.
  destruct (decide (trimStart s = [])) as [Hs|Hs].
  - rewrite Hs. apply trimStart_nil_iff in Hs.
    assert (trimStart (s ++ w) = []) as ->; [|done].
    apply trimStart_nil_iff, Forall_app. by split.
  - rewrite trimStart_app_r by done. by apply trimEnd_ws_r.
Qed.

Lemma ws_no_comma w : Forall (λ c, isWhiteSpace c = true) w → comma ∉ w.
Proof.
  intros Hw Hin. rewrite Forall_forall in Hw. by specialize (Hw _ Hin).
Qed.

Lemma split_prefix_nosep sep w s :
  sep ∉ w →
  ∃ h t, split sep s = h :: t ∧ split sep (w ++ s) = (w ++ h) :: t.
Proof.
  intros Hw. induction w as [|c w IH]; simpl.
  - destruct s as [|c s]; simpl; [by eexists _, _|].
    case_bool_decide; [by eexists _, _|].
    destruct (split sep s); by eexists _, _.
  - apply not_elem_of_cons in Hw as [Hc Hw].
    destruct (IH Hw) as (h & t & Hs & Hws).
    exists h, t. split; [done|].
    by rewrite bool_decide_eq_false_2, Hws by done.
Qed.

Lemma split_suffix_nosep sep s w :
  sep ∉ w →
  ∃ ini lst, split sep s = ini ++ [lst] ∧ split sep (s ++ w) = ini ++ [lst ++ w].
Proof.
  intros Hw. induction s as [|c s (ini & lst & Hs & Hsw)]; simpl.
  - exists [], []. split; [done|]. by apply split_no_sep.
  - case_bool_decide.
    + exists ([] :: ini), lst. by rewrite Hs, Hsw.
    + rewrite Hs, Hsw. destruct ini as [|i0 ini]; simpl.
      * by exists [], (c :: lst).
      * by exists ((c :: i0) :: ini), lst.
Qed.

Lemma split_trim_columns line :
  trim <$> split comma (trim line) = trim <$> split comma line.
Proof.
  assert (∀ x, trim x = trimEnd (trimStart x)) as E by done.
  destruct (trimStart_decomp line) as (w1 & H1 & Hw1).
  destruct (trimEnd_decomp (trimStart line)) as (w2 & H2 & Hw2).
  rewrite E. set (m := trimEnd (trimStart line)) in *.
  transitivity (trim <$> split comma (trimStart line)).
  - rewrite H2.
    destruct (split_suffix_nosep comma m w2) as (ini & lst & -> & ->);
      [by apply ws_no_comma|].
    by rewrite !fmap_app, !list_fmap_singleton, trim_ws_r.
  - rewrite H1 at 2.
    destruct (split_prefix_nosep comma w1 (trimStart line))
      as (h & t & -> & ->); [by apply ws_no_comma|].
    by rewrite !fmap_cons, trim_ws_l.
Qed.

Lemma column_fmap parts i : column parts i = default [] ((trim <$> parts) !! i).
Proof. unfold column. rewrite list_lookup_fmap. by destruct (parts !! i). Qed.

Lemma column_split_trim line i :
  column (split comma (trim line)) i = column (split comma line) i.
Proof. by rewrite !column_fmap, split_trim_columns. Qed.

Lemma length_split_trim line :
  length (split comma (trim line)) = length (split comma line).
Proof.
  rewrite <-(length_fmap trim), split_trim_columns. apply length_fmap.
Qed.

(** X12: the dataset is used twice, by normalizeTags for the names and by
    useTagData for the descriptions shown with them.  When every line after
    the header that has two columns or more is a data line with more than
    four columns and a description, every tag normalizeTags returns, in any
    target language, has a description in the map of useTagData. *)
Theorem canonical_names_have_descriptions (toLowerCase : jsstring → jsstring)
    (csv : jsstring) (targetLang : Lang) (tags : list GeneratedTag)
    (t : GeneratedTag) :
  (∀ line, line ∈ drop 1 (split newline csv) →
           2 ≤ length (split comma line) →
           isDataLine line = true ∧
           descriptionIndex < length (split comma line) ∧
           column (split comma line) descriptionIndex ≠ []) →
  t ∈ normalizeTags toLowerCase csv tags targetLang →
  is_Some (tagMap (useTagData (Some csv)) !! name t).
Proof.
  intros Hwf Ht.
  apply normalizeTags_provenance in Ht
    as (Hne & _ & _ & line & k & Hline & Hreg).
  unfold dataLines in Hline.
  assert (csv ≠ []) as Hcsv.
  { intros ->. by apply elem_of_nil in Hline. }
  assert (isSimpleFormat (split newline csv) = false) as Hsimple.
  { unfold isSimpleFormat, firstDataLine.
    destruct (List.find _ _) as [first|] eqn:Hfind; [|done].
    apply find_first in Hfind as (pre & post & Hd & _ & _).
    apply bool_decide_eq_false_2. intros Hlen.
    destruct (Hwf first) as (_ & Hlt & _); [|lia|unfold descriptionIndex in Hlt; lia].
    rewrite Hd. apply elem_of_app. right. by left. }
  assert (2 < length (split comma line) ∧
          name t = targetValueOf targetLang (split comma line)) as [Hlen Hv].
  { destruct Hreg as [(Hlen & _)|(Hlen & Hv & _)]; [|done].
    destruct (Hwf line Hline) as (_ & Hlt & _); [lia|].
    unfold descriptionIndex in Hlt. lia. }
  destruct (Hwf line Hline) as (Hdata & Hlt & Hdesc); [lia|].
  eapply (useTagData_complete csv line (name t)
            (column (split comma line) descriptionIndex)); [done|done|].
  rewrite Hsimple. unfold describes. cbv zeta.
  rewrite !column_split_trim, length_split_trim.
  split_and!; [done|done|done|]. right.
  split_and!; [by intros [? _]|done|done|].
  rewrite Hv. destruct targetLang; simpl; auto.
Qed.

Lemma canonical_names_have_descriptions_witness :
  is_Some (tagMap (useTagData (Some scenarioMultilingualCsv))
             !! [21160; 20316]%N).
Proof.
  apply (canonical_names_have_descriptions asciiLower scenarioMultilingualCsv
           sc [{| name := js "Action"; score := 90 |}]
           {| name := [21160; 20316]%N; score := 90 |}).
  - intros line Hline _.
    assert (drop 1 (split newline scenarioMultilingualCsv) =
            [js "action," ++ [21160; 20316]%N ++ js "," ++ [21205; 20316]%N
             ++ js ",," ++ [25136; 39717; 22580; 26223]%N]) as E
      by (vm_compute; reflexivity).
    rewrite E in Hline. apply list_elem_of_singleton in Hline as ->.
    split_and!; [vm_compute; reflexivity|vm_compute; lia|].
    apply (proj1 (truthy_true _)). vm_compute. reflexivity.
  - assert (normalizeTags asciiLower scenarioMultilingualCsv
              [{| name := js "Action"; score := 90 |}] sc
            = [{| name := [21160; 20316]%N; score := 90 |}]) as ->
      by (vm_compute; reflexivity).
    by left.
Defined.

(** ** llmService: the factory and the active provider *)

Lemma given_orElse_default a (d : jsstring) :
  d ≠ [] → given (orElse a (Some d)) = true.
Proof.
  intros Hd%truthy_true. unfold orElse, given.
  destruct a as [s|]; simpl; [|done].
  destruct (truthy s) eqn:E; simpl; done.
Qed.

Lemma given_true a : given a = true ↔ ∃ s, a = Some s ∧ s ≠ [].
Proof.
  unfold given. destruct a as [s|]; simpl.
  - rewrite truthy_true. split; [eauto|by intros (? & [= <-] & ?)].
  - split; [done|by intros (? & ? & _)].
Qed.

Lemma createProvider_cases (envApiKey : option jsstring)
    (storage : LlmService.Storage) (providerType : LlmProvider)
    (overrideConfig : LlmService.PartialLlmConfig) :
  match LlmService.createProvider envApiKey storage providerType overrideConfig with
  | Return (LlmService.GeminiProvider finalApiKey) =>
      providerType = gemini ∧ finalApiKey ≠ []
  | Return (LlmService.OpenAICompatibleProvider c) =>
      providerType ≠ gemini ∧
      given (LlmService.compatBaseUrl c) = true ∧
      given (LlmService.compatModelName c) = true ∧
      (providerType = openai ∨ providerType = grok →
       given (LlmService.compatApiKey c) = true)
  | Throw e =>
      (providerType = gemini ∧
       e = newError (js "Gemini API key is not provided in settings and not found in the environment.")) ∨
      (providerType = openai ∧
       e = newError (js "OpenAI provider requires an API Key.")) ∨
      (providerType = grok ∧
       e = newError (js "Grok provider requires an API Key.")) ∨
      (providerType = custom ∧
       e = newError (js "Custom Endpoint provider requires a Base URL."))
  end.
Proof.
  unfold LlmService.createProvider.
  set (key := orElse _ (LlmService.apiKey _)).
  set (url := orElse _ (LlmService.baseUrl _)).
  set (model := orElse _ (LlmService.modelName _)).
  assert (∀ (d : jsstring) u, d ≠ [] →
            LlmService.newOpenAICompatibleProvider
              {| LlmService.compatBaseUrl := orElse url (Some d);
                 LlmService.compatApiKey := key;
                 LlmService.compatModelName := u |}
            = Return (LlmService.OpenAICompatibleProvider
                 {| LlmService.compatBaseUrl := orElse url (Some d);
                    LlmService.compatApiKey := key;
                    LlmService.compatModelName := u |})) as Hnew.
  { intros d u Hd. unfold LlmService.newOpenAICompatibleProvider. simpl.
    by rewrite given_orElse_default. }
  destruct providerType.
  - (* gemini *)
    unfold LlmService.newGeminiProvider.
    destruct (orElse key envApiKey) as [k|]; [|by left].
    destruct (truthy k) eqn:Hk; [|by left].
    split; [done|by apply truthy_true].
  - (* openai *)
    destruct (given key) eqn:Hkey; simpl; [|right; by left].
    rewrite Hnew by done. simpl.
    split_and!; [done|by apply given_orElse_default
                |by apply given_orElse_default|done].
  - (* grok *)
    destruct (given key) eqn:Hkey; simpl; [|right; right; by left].
    rewrite Hnew by done. simpl.
    split_and!; [done|by apply given_orElse_default
                |by apply given_orElse_default|done].
  - (* ollama *)
    rewrite Hnew by done. simpl.
    split_and!; [done|by apply given_orElse_default
                |by apply given_orElse_default|by intros [?|?]].
  - (* lmstudio *)
    rewrite Hnew by done. simpl.
    split_and!; [done|by apply given_orElse_default
                |by apply given_orElse_default|by intros [?|?]].
  - (* custom *)
    destruct (given url) eqn:Hurl; simpl; [|right; right; by right].
    unfold LlmService.newOpenAICompatibleProvider. simpl. rewrite Hurl. simpl.
    split_and!; [done|done|by apply given_orElse_default|by intros [?|?]].
Qed.

Lemma createProvider_kinds (envApiKey : option jsstring)
    (storage : LlmService.Storage) (providerType : LlmProvider)
    (overrideConfig : LlmService.PartialLlmConfig) :
  match LlmService.createProvider envApiKey storage providerType overrideConfig with
  | Return (LlmService.GeminiProvider finalApiKey) =>
      providerType = gemini ∧ finalApiKey ≠ []
  | Return (LlmService.OpenAICompatibleProvider c) =>
      providerType ≠ gemini ∧ given (LlmService.compatBaseUrl c) = true
  | Throw e => True
  end.
Proof.
  pose proof (createProvider_cases envApiKey storage providerType
                overrideConfig) as H.
  destruct (LlmService.createProvider _ _ _ _) as [[key|c]|e]; [done| |done].
  by destruct H as (? & ? & _).
Qed.

(** X13: what the factory can do.  For gemini it builds a Gemini object
    with a non-empty key or throws for want of a key; for the other
    providers it builds an OpenAI-compatible object whose base URL and model
    name are never empty, with a non-empty key for openai and grok; it throws
    only for a missing key (gemini, openai, grok) or a missing base URL
    (custom), so never for ollama and lmstudio; and the constructor's own
    base-URL check never fires. *)
Theorem createProvider_outcomes (envApiKey : option jsstring)
    (storage : LlmService.Storage) (providerType : LlmProvider)
    (overrideConfig : LlmService.PartialLlmConfig) :
  match LlmService.createProvider envApiKey storage providerType overrideConfig with
  | Return (LlmService.GeminiProvider finalApiKey) =>
      providerType = gemini ∧ finalApiKey ≠ []
  | Return (LlmService.OpenAICompatibleProvider c) =>
      providerType ≠ gemini ∧
      given (LlmService.compatBaseUrl c) = true ∧
      given (LlmService.compatModelName c) = true ∧
      (providerType = openai ∨ providerType = grok →
       given (LlmService.compatApiKey c) = true)
  | Throw e =>
      (providerType = gemini ∧
       e = newError (js "Gemini API key is not provided in settings and not found in the environment.")) ∨
      (providerType = openai ∧
       e = newError (js "OpenAI provider requires an API Key.")) ∨
      (providerType = grok ∧
       e = newError (js "Grok provider requires an API Key.")) ∨
      (providerType = custom ∧
       e = newError (js "Custom Endpoint provider requires a Base URL."))
  end.
Proof. apply createProvider_cases. Qed.

(** X14: ensureProviderIsActive.  A provider that is active is returned as
    it is, whatever the storage holds now; what is returned is the active
    provider afterwards; and when it throws, nothing became active and the
    error is the one of reading the stored configuration or the one of the
    factory: the final check for a missing provider never fires. *)
Theorem ensureProviderIsActive_outcomes (envApiKey : option jsstring)
    (storage : LlmService.Storage)
    (activeProvider : option LlmService.ProviderInstance) :
  let r := LlmService.ensureProviderIsActive envApiKey storage activeProvider in
  (∀ p, activeProvider = Some p → r = (Some p, Return p)) ∧
  (∀ p, r.2 = Return p → r.1 = Some p) ∧
  (∀ e, r.2 = Throw e →
        activeProvider = None ∧ r.1 = None ∧
        (LlmService.configItem storage = Corrupt e ∨
         ∃ config,
           LlmService.getLlmConfig storage = Return config ∧
           LlmService.createProvider envApiKey storage
             (default gemini (LlmService.configProvider config)) config
           = Throw e)).
Proof.
  cbv zeta. unfold LlmService.ensureProviderIsActive.
  destruct activeProvider as [p|]; simpl.
  { split_and!; [by intros ? [= ->]|by intros ? [= ->]|done]. }
  split; [done|].
  destruct (LlmService.getLlmConfig storage) as [config|e0] eqn:Hcfg; simpl.
  - unfold LlmService.setActiveProvider.
    destruct (LlmService.createProvider _ _ _ _) as [p|e0] eqn:Hnew; simpl.
    + split; [by intros ? [= ->]|done].
    + split; [done|]. intros e [= ->]. split_and!; [done|done|].
      right. by exists config.
  - split; [done|]. intros e [= ->]. split_and!; [done|done|]. left.
    unfold LlmService.getLlmConfig in Hcfg.
    destruct (LlmService.configItem storage); by simplify_eq.
Qed.

Lemma newGeminiProvider_key envApiKey key :
  LlmService.newGeminiProvider envApiKey key =
  if given (orElse key envApiKey)
  then Return (LlmService.GeminiProvider (default [] (orElse key envApiKey)))
  else Throw (newError (js
    "Gemini API key is not provided in settings and not found in the environment.")).
Proof.
  unfold LlmService.newGeminiProvider, given.
  destruct (orElse key envApiKey) as [k|]; simpl; [|done].
  by destruct (truthy k).
Qed.

Lemma orElse_dropped (b m : option jsstring) :
  orElse match b with
         | Some k => if truthy k then Some k else None
         | None => None
         end m = orElse b m.
Proof.
  destruct b as [k|]; simpl; [|done].
  destruct (truthy k) eqn:E; simpl; by rewrite ?E.
Qed.

(** X15: the key of a Gemini backup.  When the failover provider is gemini,
    the object the orchestrator builds for it carries the stored backup key
    if there is one, else the stored main key, else the key of the
    environment; with none of them the construction throws. *)
Theorem gemini_backup_key (envApiKey : option jsstring)
    (storage : LlmService.Storage)
    (activeProvider : option LlmService.ProviderInstance)
    (serve : LlmService.ProviderInstance → ProviderService) :
  let env := environment envApiKey storage activeProvider serve in
  let creds := LlmService.getStoredCredentials storage gemini in
  let key := orElse (orElse (LlmService.backupApiKey creds)
                       (LlmService.apiKey creds)) envApiKey in
  createProvider env gemini (failoverApiKey env gemini) =
  if given key
  then Return (serve (LlmService.GeminiProvider (default [] key)))
  else Throw (newError (js
    "Gemini API key is not provided in settings and not found in the environment.")).
Proof.
  cbv zeta. unfold failoverApiKey. rewrite decide_True by done.
  cbn [createProvider backupApiKey environment].
  unfold LlmService.createProvider. cbn [LlmService.configApiKey].
  rewrite orElse_dropped, newGeminiProvider_key.
  by destruct (given _).
Qed.

(** ** Failover with the providers the factory builds *)

Lemma environment_createProvider_nokey envApiKey storage activeProvider serve
    backup overrideApiKey :
  backup = openai ∨ backup = grok →
  given (orElse overrideApiKey
           (LlmService.apiKey (LlmService.getStoredCredentials storage backup)))
    = false →
  createProvider (environment envApiKey storage activeProvider serve)
    backup overrideApiKey =
  Throw (newError (if decide (backup = openai)
                   then js "OpenAI provider requires an API Key."
                   else js "Grok provider requires an API Key.")).
Proof.
  intros Hb Hkey. cbn [createProvider environment].
  unfold LlmService.createProvider. cbn [LlmService.configApiKey].
  destruct Hb as [ ->| ->]; rewrite Hkey; done.
Qed.

(** X16: a backup that needs a key and has none.  With openai or grok as
    the failover provider and no key stored for it, a primary failure that
    is not a cancellation makes the orchestrator build no backup object and
    call no backup: it throws the combined error, whose second part is the
    factory's complaint about the key. *)
Theorem failover_to_provider_without_key (envApiKey : option jsstring)
    (storage : LlmService.Storage)
    (activeProvider : option LlmService.ProviderInstance)
    (serve : LlmService.ProviderInstance → ProviderService)
    (config : LlmConfig) (req : Request) (backup : LlmProvider)
    (err : JsError) :
  let env := environment envApiKey storage activeProvider serve in
  backup = openai ∨ backup = grok →
  given (LlmService.apiKey (LlmService.getStoredCredentials storage backup))
    = false →
  enableFailover config = true →
  failoverProvider config = Some backup →
  (primaryAttempt env req).2 = Throw err →
  isAbortError err = false →
  backupCalls (generateTags env config req).1 = 0 ∧
  (generateTags env config req).2 =
    Throw (newError (combinedMessage (provider config) backup err
             (newError (if decide (backup = openai)
                        then js "OpenAI provider requires an API Key."
                        else js "Grok provider requires an API Key.")))).
Proof.
  intros env Hb Hkey Hen Hfp Hprimary Habort.
  assert (failoverApiKey env backup = None) as Hfk.
  { unfold failoverApiKey. rewrite decide_False; [done|].
    destruct Hb as [ ->| ->]; done. }
  unfold generateTags. rewrite Hprimary, Habort, Hen, Hfp, Hfk.
  subst env. rewrite environment_createProvider_nokey by done.
  cbn [fst snd]. split.
  - rewrite backupCalls_app, backupCalls_primaryAttempt. done.
  - unfold failoverFailed. by destruct (decide (backup = openai)).
Qed.

Lemma failover_to_provider_without_key_witness :
  backupCalls
    (generateTags
       (environment None geminiOnlyStorage
          (Some (LlmService.GeminiProvider (js "AIza-main")))
          (λ _ _, Throw rejectedKey))
       failoverConfig someRequest).1 = 0.
Proof.
  destruct (failover_to_provider_without_key None geminiOnlyStorage
              (Some (LlmService.GeminiProvider (js "AIza-main")))
              (λ _ _, Throw rejectedKey) failoverConfig someRequest openai
              rejectedKey) as [H _]; try done.
  by left.
Defined.

(** ** explainTag *)

(** X17: explainTag never reports the backup's failure.  Whatever it throws
    is the error of the primary attempt, or the cannot-connect error when
    that one is a TypeError; this also holds when the backup call is
    cancelled: the AbortError of the backup is not passed on.  And a text it
    returns is the answer of the primary or of the backup. *)
Theorem explainTag_outcomes {Req} (env : ServiceEnvironment Req jsstring)
    (config : LlmConfig) (req : Req) :
  (∀ e, (explainTag env config req).2 = Throw e →
        ∃ err, explainPrimary env req = Throw err ∧
               (e = err ∨
                (isAbortError err = false ∧ errClass err = TypeError ∧
                 e = newError explainConnectMessage))) ∧
  (∀ text, (explainTag env config req).2 = Return text →
           explainPrimary env req = Return text ∨
           ∃ backup key p,
             enableFailover config = true ∧
             failoverProvider config = Some backup ∧
             createService env backup key = Return p ∧
             p req = Return text) ∧
  backupCalls (explainTag env config req).1 ≤ 1.
Proof.
  unfold explainTag, explainPrimary.
  set (primary := match activeService env with
                  | Return p => ([CalledPrimary], p req)
                  | Throw e => ([], Throw e)
                  end).
  assert (primary.2 = match activeService env with
                      | Return p => p req
                      | Throw e => Throw e
                      end) as Hp2
    by (subst primary; by destruct (activeService env)).
  assert (backupCalls primary.1 = 0) as Hp1
    by (subst primary; by destruct (activeService env)).
  rewrite <-Hp2. clear Hp2.
  destruct primary.2 as [text|err] eqn:Hprimary; cbn [fst snd].
  { split_and!; [done|intros ? [= ->]; by left|lia]. }
  destruct (isAbortError err) eqn:Habort; cbn [fst snd].
  { split_and!; [|done|lia]. intros e [= <-]. exists err. auto. }
  set (after := if decide (errClass err = TypeError)
                then Throw (newError explainConnectMessage) else Throw err).
  assert (∀ e, after = Throw e →
               ∃ err0, Throw (T:=jsstring) err = Throw err0 ∧
                       (e = err0 ∨
                        (isAbortError err0 = false ∧ errClass err0 = TypeError ∧
                         e = newError explainConnectMessage))) as Hafter.
  { intros e He. exists err. split; [done|]. subst after.
    case_decide; simplify_eq; auto. }
  assert (∀ text, after ≠ Return text) as Hnot
    by (intros text; subst after; by case_decide).
  destruct (enableFailover config) eqn:Hen;
    [|cbn [fst snd]; split_and!; [done|by intros ? ?%Hnot|lia]].
  destruct (failoverProvider config) as [backup|] eqn:Hfp;
    [|cbn [fst snd]; split_and!; [done|by intros ? ?%Hnot|lia]].
  set (key := if decide (backup = gemini) then _ else None).
  destruct (createService env backup key) as [p|e0] eqn:Hnew; cbn [fst snd].
  - split_and!.
    + intros e. destruct (p req); [done|apply Hafter].
    + intros text Htext. right. exists backup, key, p.
      split_and!; [done|done|done|].
      destruct (p req) as [text'|]; [congruence|by apply Hnot in Htext].
    + rewrite backupCalls_app, Hp1. cbv. lia.
  - split_and!; [done|by intros ? ?%Hnot|].
    rewrite backupCalls_app, Hp1. cbv. lia.
Qed.

(** The cancelled backup, concretely: the server error of the primary is
    what comes out. *)
Example ex_explain_cancelled_backup :
  explainTag cancelledBackupEnv failoverConfig () =
  ([CalledPrimary; CreatedBackup openai None; CalledBackup openai],
   Throw serverError).
Proof. vm_compute. reflexivity. Qed.

(** ** generateImage and sendChatMessage *)

(** X18: the optional methods.  Once a provider other than gemini has been
    made active, generateImage and sendChatMessage throw their
    not-supported errors without any call; with gemini active they are the
    call of the Gemini object, made with its key. *)
Theorem optional_methods_need_gemini (envApiKey : option jsstring)
    (storage : LlmService.Storage) (config : LlmService.PartialLlmConfig)
    (activeProvider activeProvider' : option LlmService.ProviderInstance)
    (call : jsstring → outcome jsstring) :
  LlmService.setActiveProvider envApiKey storage config activeProvider
    = (activeProvider', Return ()) →
  if decide (default gemini (LlmService.configProvider config) = gemini)
  then ∃ key, key ≠ [] ∧
         (generateImage envApiKey storage call activeProvider').2 = call key ∧
         (sendChatMessage envApiKey storage call activeProvider').2 = call key
  else (generateImage envApiKey storage call activeProvider').2
         = Throw (newError imageUnsupportedMessage) ∧
       (sendChatMessage envApiKey storage call activeProvider').2
         = Throw (newError chatUnsupportedMessage).
Proof.
  unfold LlmService.setActiveProvider.
  pose proof (createProvider_kinds envApiKey storage
                (default gemini (LlmService.configProvider config)) config)
    as Hkind.
  destruct (LlmService.createProvider _ _ _ _) as [p|e]; [|done].
  intros [= <-].
  unfold generateImage, sendChatMessage, optionalMethod.
  cbn [LlmService.ensureProviderIsActive].
  destruct p as [key|c]; destruct Hkind as [Hp Hrest].
  - rewrite decide_True by done. by exists key.
  - by rewrite decide_False by done.
Qed.

Lemma optional_methods_need_gemini_witness :
  (generateImage None geminiOnlyStorage (λ _, Return (js "data:,"))
     (LlmService.setActiveProvider None geminiOnlyStorage ollamaConfig None).1).2
  = Throw (newError imageUnsupportedMessage).
Proof.
  pose proof (optional_methods_need_gemini None geminiOnlyStorage ollamaConfig
                None
                (LlmService.setActiveProvider None geminiOnlyStorage
                   ollamaConfig None).1
                (λ _, Return (js "data:,")) eq_refl) as H.
  rewrite decide_False in H by done. exact (proj1 H).
Defined.

(** ** SettingsModal.handleSave *)

(** X19: saving settings whose provider cannot be built.  Both storage items
    are written, but the provider that was active stays active: the next
    request is served by it, while the stored configuration already names
    the provider chosen in the form. *)
Theorem handleSave_failure_keeps_old_provider (envApiKey : option jsstring)
    (form : SettingsForm) (old : LlmService.ProviderInstance) :
  (handleSave envApiKey form (Some old)).2 = SavedNotInitialized →
  let storage := (handleSave envApiKey form (Some old)).1.1 in
  let active := (handleSave envApiKey form (Some old)).1.2 in
  active = Some old ∧
  LlmService.ensureProviderIsActive envApiKey storage active
    = (Some old, Return old) ∧
  LlmService.getLlmConfig storage = Return (savedConfig form) ∧
  provider (LlmService.toLlmConfig (savedConfig form))
    = activeProviderType form ∧
  (∀ p, LlmService.getStoredCredentials storage p = credentials form p).
Proof.
  unfold handleSave, LlmService.setActiveProvider.
  destruct (LlmService.createProvider _ _ _ _) as [p|e]; [done|].
  intros _. cbn [fst snd]. split_and!; done.
Qed.

Lemma handleSave_failure_keeps_old_provider_witness :
  (handleSave None openAIWithoutKeyForm
     (Some (LlmService.GeminiProvider (js "AIza-main")))).1.2
  = Some (LlmService.GeminiProvider (js "AIza-main")).
Proof.
  destruct (handleSave_failure_keeps_old_provider None openAIWithoutKeyForm
              (LlmService.GeminiProvider (js "AIza-main")))
    as (H & _); [vm_compute; reflexivity|exact H].
Defined.

(** ** The providers *)

Lemma withRetry_result {T} (fn : nat → outcome T) retries bd bf :
  ∃ n, n ≤ retries ∧ (withRetry fn retries bd bf).2 = fn n.
Proof.
  destruct (retryFrom_trace fn bd bf retries 0) as (n & Hn & _ & Hout & _).
  exists n. split; [lia|done].
Qed.

Lemma includes_auth_failed msg :
  includes (js "Auth failed") (js "Auth failed: " ++ msg) = true.
Proof.
  replace (js "Auth failed: " ++ msg)
    with (js "Auth failed" ++ (js ": " ++ msg)) by reflexivity.
  apply includes_prefix.
Qed.

Section OpenAIProviderFacts.
Context (toLowerCase : jsstring → jsstring).
Context (tagDataCsv : jsstring).
Context (JSON_parse : jsstring → option ParsedValue).
Context (createPrompt : jsstring → GenerationSettings →
                        option (list jsstring) → option (list jsstring) → jsstring).
Context (fetched : jsstring → nat → outcome FetchResponse).

Local Abbreviation openAIPostProcess :=
  (openAIPostProcess toLowerCase tagDataCsv JSON_parse).
Local Abbreviation openAIGenerateTags :=
  (openAIGenerateTags toLowerCase tagDataCsv JSON_parse createPrompt fetched).

(** X20: an endpoint that answers 401 or 403.  As long as the bodies of its
    answers are not the JSON value null, generateTags of the
    OpenAI-compatible provider ends with its authentication error, however
    many attempts withRetry makes and whatever message the bodies carry. *)
Theorem openAI_auth_status_reported (req : Request) :
  (∀ attempt, ∃ httpStatus errorMessage,
     fetched (createPrompt (tagLibraryCsv req) (settings req)
                (pinnedTags req) (excludedTags req)) attempt
       = Return (NotOk httpStatus (BodyMessage errorMessage)) ∧
     (httpStatus = 401 ∨ httpStatus = 403)) →
  openAIGenerateTags req = Throw (newError openAIAuthFailedMessage).
Proof.
  intros Hfetch. unfold openAIGenerateTags, withRetryDefault.
  set (prompt := createPrompt _ _ _ _) in *.
  destruct (withRetry_result
              (λ attempt, openAIPerformGeneration (fetched prompt attempt))
              3 1000 2) as (n & _ & ->).
  destruct (Hfetch n) as (st & msg & -> & Hst). simpl.
  assert (openAIStatusError st msg = newError (js "Auth failed: " ++ msg)) as ->.
  { unfold openAIStatusError. destruct Hst as [ ->| ->]; by vm_compute. }
  unfold openAIRethrow.
  assert (isAbortError (newError (js "Auth failed: " ++ msg)) = false) as ->
    by done.
  cbn [newError errMessage]. by rewrite includes_auth_failed.
Qed.

(** With the body null on every attempt, whatever the status, reading the
    message throws, and the provider ends with that TypeError. *)
Lemma openAI_null_body (req : Request) :
  (∀ attempt, ∃ httpStatus,
     fetched (createPrompt (tagLibraryCsv req) (settings req)
                (pinnedTags req) (excludedTags req)) attempt
       = Return (NotOk httpStatus BodyNull)) →
  openAIGenerateTags req = Throw nullBodyError.
Proof.
  intros Hfetch. unfold openAIGenerateTags, withRetryDefault.
  set (prompt := createPrompt _ _ _ _) in *.
  destruct (withRetry_result
              (λ attempt, openAIPerformGeneration (fetched prompt attempt))
              3 1000 2) as (n & _ & ->).
  destruct (Hfetch n) as (st & ->). reflexivity.
Qed.

(** X21: what the OpenAI-compatible provider returns.  A result has a
    description that is not empty, and its tags are the raw tags of the
    answer normalised against the compiled-in dataset, in the language of the
    settings (sc by default): no name twice, every name a non-empty trimmed
    column of a line of the dataset. *)
Theorem openAI_result_is_normalized (req : Request) (r : GeneratedTagsResult) :
  openAIGenerateTags req = Return r →
  description r ≠ [] ∧
  (∃ rawTags,
     tags r = normalizeTags toLowerCase tagDataCsv rawTags
                (default sc (tagLanguage (settings req)))) ∧
  NoDup (name <$> tags r) ∧
  (∀ t, t ∈ tags r →
        name t ≠ [] ∧ trim (name t) = name t ∧
        ∃ line k, line ∈ dataLines tagDataCsv ∧
                  registers toLowerCase (default sc (tagLanguage (settings req)))
                    line k (name t)).
Proof.
  unfold openAIGenerateTags.
  destruct (withRetryDefault _).2 as [rawText|e]; [|done].
  destruct (openAIPostProcess rawText (settings req)) as [r'|e] eqn:Hpost;
    [|done].
  intros [= ->]. unfold openAIPostProcess in Hpost.
  destruct (given rawText); simpl in Hpost; [|done].
  destruct (JSON_parse _) as [[|parsed]|]; [done| |done].
  destruct (parsedDescription parsed) as [d|]; [|done].
  destruct (parsedTags parsed) as [rawTags|]; [|done].
  destruct (truthy d) eqn:Hd; [|done].
  injection Hpost as <-. cbn [description tags].
  split_and!.
  - by apply truthy_true.
  - by exists rawTags.
  - apply NoDup_filterSeen.
  - intros t Ht.
    apply normalizeTags_provenance in Ht as (? & ? & _ & ?). done.
Qed.

(** The OpenAI-compatible provider, like the Gemini one, uses the
    supplied tag-library text for the prompt only: with the answers of the
    endpoint held fixed, another library text gives the same result. *)
Lemma openAI_normalization_ignores_library (req : Request) (lib' : jsstring) :
  (∀ n,
     fetched (createPrompt (tagLibraryCsv req) (settings req)
                (pinnedTags req) (excludedTags req)) n =
     fetched (createPrompt lib' (settings req)
                (pinnedTags req) (excludedTags req)) n) →
  openAIGenerateTags req = openAIGenerateTags (withLibrary lib' req).
Proof.
  intros Hsame. unfold openAIGenerateTags, withRetryDefault, withRetry.
  cbn [withLibrary tagLibraryCsv settings pinnedTags excludedTags].
  rewrite (retryFrom_ext
             (λ attempt, openAIPerformGeneration (fetched _ attempt))
             (λ attempt, openAIPerformGeneration
                (fetched (createPrompt lib' (settings req) (pinnedTags req)
                            (excludedTags req)) attempt))); [done|].
  intros n. by rewrite Hsame.
Qed.

End OpenAIProviderFacts.

Lemma openAI_auth_status_reported_witness :
  openAIGenerateTags asciiLower simpleCsv fixedParse libraryPrompt
    unauthorized someRequest
  = Throw (newError openAIAuthFailedMessage).
Proof.
  apply (openAI_auth_status_reported asciiLower simpleCsv fixedParse
           libraryPrompt unauthorized someRequest).
  intros attempt. exists 401, (js "Unauthorized"). split; [reflexivity|by left].
Defined.

Example ex_unauthorized_null_body :
  (withRetryDefault
     (λ attempt, openAIPerformGeneration
                   (unauthorizedNullBody (libraryPrompt [] someSettings None None)
                      attempt))).1
  = [Called 0; Slept 1000; Called 1; Slept 2000; Called 2; Slept 4000; Called 3]
  ∧
  openAIGenerateTags asciiLower simpleCsv fixedParse libraryPrompt
    unauthorizedNullBody someRequest
  = Throw nullBodyError.
Proof. split; vm_compute; reflexivity. Qed.

Lemma openAI_result_is_normalized_witness :
  NoDup [js "Action"].
Proof.
  destruct (openAI_result_is_normalized asciiLower simpleCsv fixedParse
              libraryPrompt (λ _ _, Return (Ok (Return (Some (js "{...}")))))
              someRequest
              {| description := js "a cover";
                 tags := [{| name := js "Action"; score := 90 |}] |})
    as (_ & _ & Hnodup & _); [vm_compute; reflexivity|exact Hnodup].
Defined.

Lemma openAI_normalization_ignores_library_witness :
  openAIGenerateTags asciiLower simpleCsv fixedParse libraryPrompt
    unauthorized someRequest =
  openAIGenerateTags asciiLower simpleCsv fixedParse libraryPrompt
    unauthorized (withLibrary (js "another,library") someRequest).
Proof.
  apply (openAI_normalization_ignores_library asciiLower simpleCsv
           fixedParse libraryPrompt unauthorized someRequest
           (js "another,library")).
  done.
Defined.

(** X22: prose and fences around the object do not matter.  For both
    providers, an answer that wraps a JSON object (from its first opening
    brace to its last closing brace) in any text is post-processed exactly
    like the bare object. *)
Theorem providers_ignore_wrapping (toLowerCase : jsstring → jsstring)
    (tagDataCsv : jsstring)
    (JSON_parse JSON_parse_value : jsstring → option ParsedValue)
    (settings : GenerationSettings) (pre mid post : jsstring) :
  lbrace ∉ pre → rbrace ∉ post →
  let object := lbrace :: mid ++ [rbrace] in
  let answer := pre ++ object ++ post in
  postProcess toLowerCase tagDataCsv cleanJsonOutput JSON_parse answer settings
  = postProcess toLowerCase tagDataCsv cleanJsonOutput JSON_parse object settings
  ∧
  openAIPostProcess toLowerCase tagDataCsv JSON_parse_value (Some answer) settings
  = openAIPostProcess toLowerCase tagDataCsv JSON_parse_value (Some object)
      settings.
Proof.
  intros Hpre Hpost object answer.
  assert (cleanJsonOutput answer = object) as Ha.
  { subst answer object. cbn [app]. rewrite <-app_assoc. cbn [app].
    by apply cleanJsonOutput_framed. }
  assert (cleanJsonOutput object = object) as Ho.
  { apply (cleanJsonOutput_framed [] mid []); apply not_elem_of_nil. }
  assert (truthy answer = true) as Hta by (subst answer; by destruct pre).
  assert (truthy object = true) as Hto by done.
  unfold postProcess, openAIPostProcess, given.
  change (default [] (Some ?x)) with x.
  cbn [from_option]. rewrite Hta, Hto, Ha, Ho.
  split; reflexivity.
Qed.

Lemma providers_ignore_wrapping_witness :
  postProcess asciiLower simpleCsv cleanJsonOutput fixedParse fencedAnswer
    someSettings
  = postProcess asciiLower simpleCsv cleanJsonOutput fixedParse bareObject
      someSettings.
Proof.
  destruct (providers_ignore_wrapping asciiLower simpleCsv fixedParse
              fixedParse someSettings
              (js "Here you go:" ++ [newline] ++ js "```json" ++ [newline])
              (js " " ++ dquote ++ js "tags" ++ dquote ++ js ": [] ")
              ([newline] ++ js "```")) as [H _].
  - apply (proj1 (bool_decide_eq_false _)). vm_compute. reflexivity.
  - apply (proj1 (bool_decide_eq_false _)). vm_compute. reflexivity.
  - exact H.
Defined.

(** ** The batch run, whatever happens *)

Lemma updateItem_twice_ids x g l :
  (∀ i, id (g i) = id i ∧ base64 (g i) = base64 i) →
  id <$> updateItem x g (updateItem x (withStatus processing) l) = id <$> l ∧
  base64 <$> updateItem x g (updateItem x (withStatus processing) l)
    = base64 <$> l.
Proof.
  intros Hg. unfold updateItem. rewrite <-!list_fmap_compose.
  split; apply list_fmap_ext; intros _ i _; simpl;
    (destruct (decide (id i = x)); simpl;
     [rewrite decide_True by done;
      by destruct (Hg (withStatus processing i))
     |by rewrite decide_False by done]).
Qed.

Lemma updateItem_twice_noneProcessing x g l :
  (∀ i, status (g i) ≠ processing) →
  noneProcessing l →
  noneProcessing (updateItem x g (updateItem x (withStatus processing) l)).
Proof.
  intros Hg Hl. unfold noneProcessing, updateItem in *.
  rewrite <-list_fmap_compose. apply Forall_fmap.
  eapply Forall_impl; [exact Hl|]. intros i Hi. simpl.
  destruct (decide (id i = x)) as [Hx|Hx]; simpl.
  - rewrite decide_True by done. apply Hg.
  - by rewrite decide_False by done.
Qed.

Lemma keeps_refl st : keeps st st.
Proof. by split_and!. Qed.

Lemma keeps_trans st st1 st2 : keeps st st1 → keeps st1 st2 → keeps st st2.
Proof.
  intros (H1 & H2 & H3 & H4) (K1 & K2 & K3 & K4).
  split_and!; [auto|congruence..].
Qed.

Lemma keeps_step st st1 x g :
  (∀ i, id (g i) = id i ∧ base64 (g i) = base64 i ∧ status (g i) ≠ processing) →
  batchItems st1 =
    updateItem x g (updateItem x (withStatus processing) (batchItems st)) →
  batchSummary st1 = batchSummary st →
  keeps st st1.
Proof.
  intros Hg Hitems Hsum.
  destruct (updateItem_twice_ids x g (batchItems st)) as [? ?];
    [intros i; destruct (Hg i) as (? & ? & ?); done|].
  unfold keeps. rewrite Hitems. split_and!; [|done..].
  apply updateItem_twice_noneProcessing.
  intros i; destruct (Hg i) as (? & ? & ?); done.
Qed.

Lemma batchLoop_invariants env items : ∀ st c f,
  let r := batchLoop env items st c f in
  keeps st r.1.1 ∧ c ≤ r.1.2 ∧ f ≤ r.2 ∧ r.1.2 + r.2 ≤ c + f + length items.
Proof.
  induction items as [|item items IH]; intros st c f; cbn zeta.
  { simpl. split_and!; [apply keeps_refl|lia..]. }
  cbn [batchLoop].
  destruct (signalAborted (batchController st)).
  { simpl. split_and!; [apply keeps_refl|lia..]. }
  destruct (decide (status item = completed)).
  { destruct (IH st (S c) f) as (? & ? & ? & ?).
    cbn [length]. split_and!; [done|lia..]. }
  assert (∀ st1 c1 f1,
            keeps st st1 → c ≤ c1 → f ≤ f1 → c1 + f1 ≤ S (c + f) →
            let r := batchLoop env items st1 c1 f1 in
            keeps st r.1.1 ∧ c ≤ r.1.2 ∧ f ≤ r.2 ∧
            r.1.2 + r.2 ≤ c + f + length (item :: items)) as Hrest.
  { intros st1 c1 f1 Hk Hc Hf Hcf.
    destruct (IH st1 c1 f1) as (? & ? & ? & ?).
    cbn zeta. cbn [length].
    split_and!; [by eapply keeps_trans|lia..]. }
  cbn [batchController setActiveBatchItemId setBatchItems].
  destruct (batchController st) as [b|] eqn:Hctl.
  - assert (∀ g, (∀ i, id (g i) = id i ∧ base64 (g i) = base64 i ∧
                          status (g i) ≠ processing) →
                 ∀ st1,
                   batchItems st1 =
                     updateItem (id item) g
                       (batchItems
                          (if pressedStop (env item)
                           then batchStopGeneration
                                  (setActiveBatchItemId (Some (id item))
                                     (setBatchItems
                                        (updateItem (id item)
                                           (withStatus processing)) st))
                           else setActiveBatchItemId (Some (id item))
                                  (setBatchItems
                                     (updateItem (id item)
                                        (withStatus processing)) st))) →
                   batchSummary st1 =
                     batchSummary
                       (if pressedStop (env item)
                        then batchStopGeneration
                               (setActiveBatchItemId (Some (id item))
                                  (setBatchItems
                                     (updateItem (id item)
                                        (withStatus processing)) st))
                        else setActiveBatchItemId (Some (id item))
                               (setBatchItems
                                  (updateItem (id item)
                                     (withStatus processing)) st)) →
                   keeps st st1) as Hsettle.
    { intros g Hg st1 Hitems Hsum.
      apply (keeps_step _ _ (id item) g Hg).
      - rewrite Hitems. destruct (pressedStop (env item)); [|done].
        unfold batchStopGeneration. simpl. by rewrite Hctl.
      - rewrite Hsum. destruct (pressedStop (env item)); [|done].
        unfold batchStopGeneration. simpl. by rewrite Hctl. }
    destruct (settled (env item)) as [response|err] eqn:Hsettled;
      [|destruct (isAbortError err) eqn:Habort].
    + apply Hrest; [|lia..].
      by apply (Hsettle (withCompleted (result response))).
    + cbn [fst snd length]. split_and!; [|lia..].
      by apply (Hsettle (withStatus pending)).
    + apply Hrest; [|lia..].
      by apply (Hsettle (withError (errMessage err))).
  - apply Hrest; [|lia..].
    by apply (keeps_step _ _ (id item) (withError nullSignalMessage)).
Qed.

(** X23: whatever happens during a batch run (successes, failures, a stop,
    a cancellation), generateBatch never adds, removes or reorders items and
    never changes their image; if no item was in the processing state
    before, none is afterwards; when it ran, it ends with the processing flag
    off and the controller cleared; and a summary it writes counts at least
    one and at most as many items as there are. *)
Theorem generateBatch_invariants (env : BatchItem → Awaited)
    (tagDataLoaded : bool) (st : BatchState) :
  let st' := generateBatch env tagDataLoaded st in
  id <$> batchItems st' = id <$> batchItems st ∧
  base64 <$> batchItems st' = base64 <$> batchItems st ∧
  (noneProcessing (batchItems st) → noneProcessing (batchItems st')) ∧
  (isProcessing st = false → tagDataLoaded = true →
   isProcessing st' = false ∧ batchController st' = None ∧
   match batchSummary st' with
   | Some (completedCount, failedCount) =>
       0 < completedCount + failedCount ≤ length (batchItems st)
   | None => True
   end).
Proof.
  cbn zeta. unfold generateBatch.
  destruct (isProcessing st) eqn:Hproc; simpl.
  { split_and!; done. }
  destruct tagDataLoaded; simpl; [|split_and!; done].
  set (st1 := {| batchItems := batchItems st; batchSummary := None;
                 isProcessing := true; batchController := Some false |}).
  pose proof (batchLoop_invariants env (batchItems st) st1 0 0) as H.
  destruct (batchLoop env (batchItems st) st1 0 0) as [[st2 c] f] eqn:Hloop.
  cbn zeta in H. simpl in H.
  destruct H as ((Hnp & Hid & Hb64 & Hsum) & _ & _ & Hcf).
  destruct (bool_decide (0 < c) || bool_decide (0 < f)) eqn:Hreport.
  - assert (0 < c + f).
    { apply orb_true_iff in Hreport
        as [H%bool_decide_eq_true|H%bool_decide_eq_true]; lia. }
    destruct (batchItems st) as [|first rest] eqn:Hitems;
      [|destruct (negb (from_option truthy false (activeBatchItemId st)))];
      simpl; (split_and!; [done|done|done|]);
      intros _ _; (split_and!; [done|done|lia|simpl in Hcf; lia]).
  - simpl. split_and!; [done|done|done|]. intros _ _. by rewrite Hsum.
Qed.

(** ** The batch run, item by item *)

Section BatchRuns.
Context (env : BatchItem → Awaited).

Local Abbreviation batchLoop := (batchLoop env).
Local Abbreviation generateBatch := (generateBatch env).
Local Abbreviation undisturbed := (undisturbed env).
Local Abbreviation cancelled := (cancelled env).
Local Abbreviation completedAmong := (completedAmong env).
Local Abbreviation failedAmong := (failedAmong env).
Local Abbreviation processed := (processed env).
Local Abbreviation successOf := (successOf env).

Lemma completedAmong_cons x l :
  completedAmong (x :: l) =
  (if countsCompleted env x then 1 else 0) + completedAmong l.
Proof.
  unfold completedAmong. rewrite filter_cons.
  destruct (countsCompleted env x); by case_decide.
Qed.

Lemma failedAmong_cons x l :
  failedAmong (x :: l) = (if countsCompleted env x then 0 else 1) + failedAmong l.
Proof.
  unfold failedAmong. rewrite filter_cons.
  destruct (countsCompleted env x); by case_decide.
Qed.

Lemma completed_failed_length l :
  completedAmong l + failedAmong l = length l.
Proof.
  induction l as [|x l IH]; [done|].
  rewrite completedAmong_cons, failedAmong_cons. cbn [length].
  destruct (countsCompleted env x); lia.
Qed.

(** The loop over items whose calls nobody disturbs, followed by the rest of
    the snapshot. *)
Lemma batchLoop_prefix pre rest :
  ∀ done st c f,
    batchItems st = done ++ pre ++ rest →
    NoDup (id <$> batchItems st) →
    batchController st = Some false →
    forallb (λ i, bool_decide (status i = completed) || undisturbed i) pre = true →
    ∃ st1,
      batchLoop (pre ++ rest) st c f =
        batchLoop rest st1 (c + completedAmong pre) (f + failedAmong pre) ∧
      batchItems st1 = done ++ (processed <$> pre) ++ rest ∧
      batchController st1 = Some false ∧
      batchSummary st1 = batchSummary st ∧
      batchToasts st1 = batchToasts st ∧
      itemSuccesses st1 = itemSuccesses st ++ omap successOf pre.
Proof.
  induction pre as [|x pre IH]; intros done st c f Hitems Hnodup Hctl Hpre.
  { exists st. unfold completedAmong, failedAmong. simpl.
    rewrite !Nat.add_0_r, app_nil_r. done. }
  simpl in Hpre. apply andb_true_iff in Hpre as [Hx Hpre].
  cbn [app batchLoop]. rewrite Hctl. cbn [signalAborted].
  rewrite completedAmong_cons, failedAmong_cons.
  assert (done ++ (x :: pre) ++ rest = done ++ x :: (pre ++ rest)) as Hassoc
    by done.
  rewrite Hassoc in Hitems.
  pose proof Hnodup as Hnd. rewrite Hitems in Hnd.
  apply NoDup_ids_split in Hnd as [Hd Hp].
  destruct (decide (status x = completed)) as [Hdone|Hnotdone].
  - destruct (IH (done ++ [x]) st (S c) f)
      as (st1 & Hloop & Hst1 & Hc1 & Hsum & Htoast & Hsucc);
      [by rewrite <-app_assoc|done..|].
    exists st1. split_and!; [| |done..|].
    + rewrite Hloop. unfold countsCompleted.
      rewrite bool_decide_eq_true_2 by done. simpl. f_equal; lia.
    + rewrite Hst1, <-app_assoc. simpl. unfold processed.
      by rewrite decide_True by done.
    + rewrite Hsucc. csimpl. unfold successOf at 2.
      by rewrite decide_True by done.
  - rewrite bool_decide_eq_false_2 in Hx by done. simpl in Hx.
    unfold undisturbed in Hx.
    apply andb_true_iff in Hx as [Hstop%negb_true_iff Hcanx%negb_true_iff].
    unfold cancelled in Hcanx.
    simpl. rewrite Hctl, Hstop.
    destruct (settled (env x)) as [response|err] eqn:Hsettled.
    + set (st0 := onItemSuccess _ _ _).
      destruct (IH (done ++ [withCompleted (result response) x]) st0 (S c) f)
        as (st1 & Hloop & Hst1 & Hc1 & Hsum & Htoast & Hsucc); [| |done..|].
      { subst st0. simpl. rewrite Hitems.
        rewrite (updateItem_unique _ _ done x _) by done.
        rewrite (updateItem_unique _ _ done _ _) by done.
        by rewrite <-app_assoc. }
      { subst st0. simpl. rewrite Hitems.
        rewrite (updateItem_unique _ _ done x _) by done.
        rewrite (updateItem_unique _ _ done _ _) by done.
        rewrite Hitems in Hnodup.
        by rewrite fmap_app, fmap_cons in *. }
      exists st1. split_and!; [| |done..|].
      * rewrite Hloop. unfold countsCompleted. rewrite Hsettled.
        rewrite orb_true_r. f_equal; lia.
      * rewrite Hst1, <-app_assoc. simpl. unfold processed at 2.
        by rewrite decide_False, Hsettled by done.
      * rewrite Hsucc. subst st0. csimpl. unfold successOf at 2.
        rewrite decide_False, Hsettled by done. simpl.
        by rewrite <-app_assoc.
    + rewrite Hcanx.
      set (st0 := setBatchItems _ _).
      destruct (IH (done ++ [withError (errMessage err) x]) st0 c (S f))
        as (st1 & Hloop & Hst1 & Hc1 & Hsum & Htoast & Hsucc); [| |done..|].
      { subst st0. simpl. rewrite Hitems.
        rewrite (updateItem_unique _ _ done x _) by done.
        rewrite (updateItem_unique _ _ done _ _) by done.
        by rewrite <-app_assoc. }
      { subst st0. simpl. rewrite Hitems.
        rewrite (updateItem_unique _ _ done x _) by done.
        rewrite (updateItem_unique _ _ done _ _) by done.
        rewrite Hitems in Hnodup.
        by rewrite fmap_app, fmap_cons in *. }
      exists st1. split_and!; [| |done..|].
      * rewrite Hloop. unfold countsCompleted. rewrite Hsettled.
        rewrite bool_decide_eq_false_2 by done. simpl. f_equal; lia.
      * rewrite Hst1, <-app_assoc. simpl. unfold processed at 2.
        by rewrite decide_False, Hsettled by done.
      * rewrite Hsucc. csimpl. unfold successOf at 2.
        by rewrite decide_False, Hsettled by done.
Qed.

(** The loop once the controller is gone. *)
Lemma batchLoop_stopped items :
  ∀ done st c f,
    batchItems st = done ++ items →
    NoDup (id <$> batchItems st) →
    batchController st = None →
    ∃ st1,
      batchLoop items st c f =
        (st1, c + completedIn items, f + (length items - completedIn items)) ∧
      batchItems st1 = done ++ (afterStop <$> items) ∧
      batchSummary st1 = batchSummary st ∧
      batchToasts st1 = batchToasts st ∧
      itemSuccesses st1 = itemSuccesses st.
Proof.
  induction items as [|x items IH]; intros done st c f Hitems Hnodup Hctl.
  { exists st. unfold completedIn. simpl. rewrite !Nat.add_0_r. done. }
  cbn [batchLoop]. rewrite Hctl. cbn [signalAborted].
  assert (completedIn (x :: items) =
          (if decide (status x = completed) then 1 else 0) + completedIn items)
    as Hcount.
  { unfold completedIn. rewrite filter_cons. by case_decide. }
  assert (completedIn items ≤ length items) as Hle
    by (unfold completedIn; apply length_filter).
  pose proof Hnodup as Hnd. rewrite Hitems in Hnd.
  apply NoDup_ids_split in Hnd as [Hd Hp].
  destruct (decide (status x = completed)) as [Hdone|Hnotdone].
  - destruct (IH (done ++ [x]) st (S c) f)
      as (st1 & Hloop & Hst1 & Hsum & Htoast & Hsucc);
      [by rewrite <-app_assoc|done..|].
    exists st1. split_and!; [| |done..].
    + rewrite Hloop, Hcount. cbn [length]. f_equal; [f_equal|..]; lia.
    + rewrite Hst1, <-app_assoc. simpl. unfold afterStop at 2.
      by rewrite decide_True by done.
  - simpl. rewrite Hctl.
    set (st0 := setBatchItems _ _).
    destruct (IH (done ++ [withError nullSignalMessage x]) st0 c (S f))
      as (st1 & Hloop & Hst1 & Hsum & Htoast & Hsucc); [| |done|].
    { subst st0. simpl. rewrite Hitems.
      rewrite (updateItem_unique _ _ done x _) by done.
      rewrite (updateItem_unique _ _ done _ _) by done.
      by rewrite <-app_assoc. }
    { subst st0. simpl. rewrite Hitems.
      rewrite (updateItem_unique _ _ done x _) by done.
      rewrite (updateItem_unique _ _ done _ _) by done.
      rewrite Hitems in Hnodup.
      by rewrite fmap_app, fmap_cons in *. }
    exists st1. split_and!; [| |done..].
    + rewrite Hloop, Hcount. cbn [length].
      replace (f + (S (length items) - (0 + completedIn items)))
        with (S f + (length items - completedIn items)) by lia.
      done.
    + rewrite Hst1, <-app_assoc. simpl. unfold afterStop at 2.
      by rewrite decide_False by done.
Qed.



End BatchRuns.



(** ** The single-item controller in every reachable state *)

Lemma liveTokens_spec st g :
  g ∈ liveTokens st ↔ controllers st !! g = Some false ∧ g ∈ awaiting st.
Proof. unfold liveTokens. by rewrite list_elem_of_filter. Qed.

Lemma length_abortCurrent st : length (abortCurrent st) = length (controllers st).
Proof.
  unfold abortCurrent. destruct (singleController st); [|done].
  apply length_insert.
Qed.

Lemma singleInvariant_initial : singleInvariant initialSingle.
Proof.
  unfold singleInvariant. simpl. split_and!; try done.
  - intros ? ? ?%elem_of_nil. done.
  - intros ? ?%elem_of_nil. done.
Qed.

Lemma singleInvariant_step st ev :
  singleInvariant st → singleInvariant (hookStep st ev).
Proof.
  intros Hinv. pose proof Hinv as (Href & Hload & Htimers & Hwait).
  destruct ev as [[loaded isRegeneration|g o|]|]; simpl; [| | |done].
  - (* generate *)
    unfold generate. destruct loaded; simpl; [|done].
    unfold singleInvariant. simpl. split_and!.
    + intros g [= <-]. rewrite length_app, length_abortCurrent. simpl.
      split; [lia|]. apply liveTokens_spec. simpl. split.
      * rewrite lookup_app_r by (rewrite length_abortCurrent; lia).
        by rewrite length_abortCurrent, Nat.sub_diag.
      * apply elem_of_app. right. by left.
    + by destruct isRegeneration.
    + intros owner ms Hin.
      repeat (apply elem_of_cons in Hin as [[= -> _]|Hin]; [done|]).
      by apply elem_of_nil in Hin.
    + intros g [Hg| ->%list_elem_of_singleton]%elem_of_app;
        rewrite length_app, length_abortCurrent; simpl; [|lia].
      apply Hwait in Hg. lia.
  - (* settle *)
    unfold settle. case_bool_decide as Hg; [|done].
    assert (∀ h, h ∈ filter (λ h, h ≠ g) (awaiting st) →
                 h < length (controllers st)) as Hwait'.
    { intros h [_ Hh]%list_elem_of_filter. by apply Hwait. }
    destruct o as [response|err]; unfold singleInvariant; simpl;
      (split_and!; [done|done|by intros ? ? ?%elem_of_nil|done]).
  - (* stop *)
    unfold stopGeneration.
    destruct (singleController st) as [c|] eqn:Hc; [|done].
    unfold singleInvariant. simpl. split_and!.
    + done.
    + done.
    + by intros ? ? ?%elem_of_nil.
    + intros g Hg. rewrite length_abortCurrent. by apply Hwait.
Qed.

Lemma singleInvariant_foldl evs st :
  singleInvariant st → singleInvariant (foldl hookStep st evs).
Proof.
  revert st. induction evs as [|ev evs IH]; intros st Hst; [done|].
  simpl. by apply IH, singleInvariant_step.
Qed.

(** X26: in every state the hook can reach, by any sequence of starts,
    stops, settled calls and resets: a controller in the ref is the newest
    one, it is not aborted and its generation is in flight; a loading step is
    shown only while the ref holds a controller; pending progress timers
    belong to the generation whose controller is in the ref; and every
    generation in flight has its controller. *)
Theorem useSingleGenerator_invariant (evs : list HookEvent) :
  let st := runHook evs in
  (∀ g, singleController st = Some g →
        S g = length (controllers st) ∧
        controllers st !! g = Some false ∧ g ∈ awaiting st) ∧
  (is_Some (loadingStep st) → is_Some (singleController st)) ∧
  (∀ owner ms, (owner, ms) ∈ loadingTimers st →
               singleController st = Some owner) ∧
  (∀ g, g ∈ awaiting st → is_Some (controllers st !! g)).
Proof.
  cbn zeta.
  destruct (singleInvariant_foldl evs initialSingle singleInvariant_initial)
    as (Href & Hload & Htimers & Hwait).
  fold (runHook evs) in *. split_and!; [| |done|].
  - intros g Hg. destruct (Href g Hg) as [Hlen Hlive].
    apply liveTokens_spec in Hlive. tauto.
  - intros [step Hstep]. destruct (singleController (runHook evs)); [done|].
    rewrite Hload in Hstep; done.
  - intros g Hg. apply lookup_lt_is_Some. by apply Hwait.
Qed.

(** ** When the token invariant does hold *)

Lemma filter_nil_iff {X} (P : X → Prop) `{∀ x, Decision (P x)} l :
  filter P l = [] ↔ ∀ x, x ∈ l → ¬ P x.
Proof.
  induction l as [|a l IH]; simpl.
  - split; [by intros _ ? ?%elem_of_nil|done].
  - rewrite filter_cons. case_decide as Ha.
    + split; [done|]. intros Hall. destruct (Hall a); [by left|done].
    + rewrite IH. split.
      * intros Hall x [ ->|?]%elem_of_cons; auto.
      * intros Hall x Hx. apply Hall. by right.
Qed.

Lemma one_token_step st ev :
  singleInvariant st → liveTokens st = refToken st →
  match ev with
  | Step (Settle g _) =>
      g ∈ awaiting st →
      singleController st = None ∨ singleController st = Some g
  | _ => True
  end →
  liveTokens (hookStep st ev) = refToken (hookStep st ev).
Proof.
  intros (Href & _ & _ & Hwait) Hlive Htimely.
  assert (∀ h, h ∈ awaiting st → controllers st !! h = Some false →
               singleController st = Some h) as Honly.
  { intros h Hh Hfalse.
    assert (h ∈ liveTokens st) as Hin by by apply liveTokens_spec.
    rewrite Hlive in Hin. unfold refToken in Hin.
    destruct (singleController st); [|by apply elem_of_nil in Hin].
    by apply list_elem_of_singleton in Hin as ->. }
  destruct ev as [[loaded isRegeneration|g o|]|]; simpl; [| | |done].
  - (* generate *)
    unfold generate. destruct loaded; simpl; [|done].
    unfold liveTokens, refToken. simpl.
    rewrite filter_app, filter_cons_True, filter_nil
      by (rewrite lookup_app_r by (rewrite length_abortCurrent; lia);
          by rewrite length_abortCurrent, Nat.sub_diag).
    replace (filter _ (awaiting st)) with (@nil nat); [done|].
    symmetry. apply filter_nil_iff. intros h Hh Hfalse.
    pose proof (Hwait h Hh) as Hlt.
    rewrite lookup_app_l in Hfalse by (by rewrite length_abortCurrent).
    unfold abortCurrent in Hfalse.
    destruct (singleController st) as [c|] eqn:Hc.
    + destruct (decide (c = h)) as [ ->|Hne].
      * rewrite list_lookup_insert_eq in Hfalse by done. done.
      * rewrite list_lookup_insert_ne in Hfalse by done.
        specialize (Honly h Hh Hfalse). congruence.
    + by specialize (Honly h Hh Hfalse).
  - (* settle *)
    unfold settle. case_bool_decide as Hg; [|done].
    assert (filter (λ h, controllers st !! h = Some false)
              (filter (λ h, h ≠ g) (awaiting st)) = []) as Hnone.
    { apply filter_nil_iff. intros h [Hne Hh]%list_elem_of_filter Hfalse.
      specialize (Honly h Hh Hfalse).
      destruct (Htimely Hg) as [Hn|Hs]; congruence. }
    destruct o; unfold liveTokens, refToken; simpl; by rewrite Hnone.
  - (* stop *)
    unfold stopGeneration.
    destruct (singleController st) as [c|] eqn:Hc; [|done].
    unfold liveTokens, refToken. simpl.
    apply filter_nil_iff. intros h Hh Hfalse.
    pose proof (Hwait h Hh) as Hlt.
    unfold abortCurrent in Hfalse. rewrite Hc in Hfalse.
    destruct (decide (c = h)) as [ ->|Hne].
    + rewrite list_lookup_insert_eq in Hfalse by done. done.
    + rewrite list_lookup_insert_ne in Hfalse by done.
      specialize (Honly h Hh Hfalse). congruence.
Qed.

Lemma one_token_foldl evs st :
  singleInvariant st → liveTokens st = refToken st → timely st evs →
  liveTokens (foldl hookStep st evs) = refToken (foldl hookStep st evs).
Proof.
  revert st. induction evs as [|ev evs IH]; intros st Hinv Hlive Ht; [done|].
  destruct Ht as [Hev Ht]. simpl. apply IH; [|by apply one_token_step|done].
  by apply singleInvariant_step.
Qed.

(** X27: as long as no call settles while the ref holds the controller of
    another generation, the token discipline holds: the only token that is in
    flight and not aborted is the one in the ref, so there is at most one,
    and none once the ref is empty. *)
Theorem timely_runs_have_one_token (evs : list HookEvent) :
  timely initialSingle evs →
  liveTokens (runHook evs) = refToken (runHook evs) ∧
  length (liveTokens (runHook evs)) ≤ 1.
Proof.
  intros Ht.
  assert (liveTokens (runHook evs) = refToken (runHook evs)) as Hlive.
  { apply one_token_foldl; [apply singleInvariant_initial|done|done]. }
  split; [done|]. rewrite Hlive. unfold refToken.
  destruct (singleController _); simpl; lia.
Qed.

Lemma timely_runs_have_one_token_witness :
  liveTokens (runHook oneAfterTheOther) = [2].
Proof.
  destruct (timely_runs_have_one_token oneAfterTheOther) as [H _].
  - simpl. split_and!; try done; intros _; by (left + right).
  - exact H.
Defined.

(** ** The flags of a response *)

(** X28: a response of the orchestrator tells the truth about its origin.
    Either it is not marked as failover, carries the configured provider and
    the result of the primary call, and no backup was built or called; or it
    is marked as failover, failover was enabled, it carries the failover
    provider and the result of the one backup call, made after the primary
    attempt had failed with an error that is not a cancellation. *)
Theorem generateTags_response_flags (env : Environment) (config : LlmConfig)
    (req : Request) (response : GenerationResponse) :
  (generateTags env config req).2 = Return response →
  (usedFailover response = false ∧
   providerName response = provider config ∧
   (primaryAttempt env req).2 = Return (result response) ∧
   (generateTags env config req).1 = [CalledPrimary])
  ∨
  (usedFailover response = true ∧
   ∃ backup err p,
     enableFailover config = true ∧ failoverProvider config = Some backup ∧
     providerName response = backup ∧
     (primaryAttempt env req).2 = Throw err ∧ isAbortError err = false ∧
     createProvider env backup (failoverApiKey env backup) = Return p ∧
     p req = Return (result response) ∧
     backupCalls (generateTags env config req).1 = 1).
Proof.
  unfold generateTags.
  destruct (primaryAttempt env req).2 as [r|err] eqn:Hprimary; cbn [fst snd].
  { intros [= <-]. left. split_and!; [done..|].
    unfold primaryAttempt in *.
    by destruct (ensureProviderIsActive env). }
  destruct (isAbortError err) eqn:Habort; cbn [fst snd]; [done|].
  destruct (enableFailover config) eqn:Hen;
    [|cbn [fst snd]; by case_decide].
  destruct (failoverProvider config) as [backup|] eqn:Hfp;
    [|cbn [fst snd]; by case_decide].
  destruct (createProvider env backup (failoverApiKey env backup))
    as [p|failoverErr] eqn:Hnew; cbn [fst snd].
  - destruct (p req) as [r|failoverErr] eqn:Hcall.
    + intros [= <-]. right. split; [done|].
      exists backup, err, p. split_and!; try done.
      rewrite backupCalls_app, backupCalls_primaryAttempt. done.
    + unfold failoverFailed. by destruct (isAbortError failoverErr).
  - unfold failoverFailed. by destruct (isAbortError failoverErr).
Qed.

Lemma generateTags_response_flags_witness :
  backupCalls (generateTags failoverEnv failoverConfig someRequest).1 = 1.
Proof.
  destruct (generateTags_response_flags failoverEnv failoverConfig someRequest
              {| result := someResult; usedFailover := true;
                 providerName := openai |})
    as [(Hno & _)|(_ & backup & err & p & _ & _ & _ & _ & _ & _ & _ & Hcalls)].
  - vm_compute. reflexivity.
  - discriminate Hno.
  - exact Hcalls.
Defined.

(** ** App: history and feedback *)

Lemma take_app_take {X} (a b : list X) n m :
  n ≤ m → take n (a ++ take m b) = take n (a ++ b).
Proof.
  revert n. induction a as [|x a IH]; intros n Hn; simpl.
  - by rewrite take_take, Nat.min_l.
  - destruct n as [|n]; [done|]. simpl. rewrite IH by lia. done.
Qed.

Lemma addAllToHistory_take calls h :
  addAllToHistory calls (take MAX_HISTORY_ITEMS h) =
  take MAX_HISTORY_ITEMS (reverse (entryOf <$> calls) ++ h).
Proof.
  revert h. induction calls as [|call calls IH]; intros h; [done|].
  assert (addToHistory call.1.1 call.1.2 call.2 (take MAX_HISTORY_ITEMS h)
          = take MAX_HISTORY_ITEMS (entryOf call :: h)) as Hstep.
  { unfold addToHistory. by apply (take_app_take [entryOf call] h). }
  change (addAllToHistory (call :: calls) (take MAX_HISTORY_ITEMS h))
    with (addAllToHistory calls
            (addToHistory call.1.1 call.1.2 call.2 (take MAX_HISTORY_ITEMS h))).
  rewrite Hstep, IH, fmap_cons, reverse_cons, <-app_assoc. done.
Qed.

(** X29: the history keeps the most recent results, newest first, and never
    more than five of them: after any additions it is the first five of the
    added entries, latest first, followed by the earlier history. *)
Theorem addToHistory_keeps_latest (calls : list HistoryCall)
    (prevHistory : list HistoryEntry) :
  calls ≠ [] →
  addAllToHistory calls prevHistory =
    take MAX_HISTORY_ITEMS (reverse (entryOf <$> calls) ++ prevHistory) ∧
  length (addAllToHistory calls prevHistory) ≤ MAX_HISTORY_ITEMS.
Proof.
  intros Hne.
  assert (addAllToHistory calls prevHistory =
          take MAX_HISTORY_ITEMS (reverse (entryOf <$> calls) ++ prevHistory))
    as ->.
  { destruct calls as [|call calls]; [done|].
    change (addAllToHistory (call :: calls) prevHistory)
      with (addAllToHistory calls
              (take MAX_HISTORY_ITEMS (entryOf call :: prevHistory))).
    rewrite addAllToHistory_take, fmap_cons, reverse_cons, <-app_assoc. done. }
  split; [done|]. rewrite length_take. lia.
Qed.

Lemma addToHistory_keeps_latest_witness :
  length (addAllToHistory
            [(1%N, someResult, js "data:,a"); (2%N, someResult, js "data:,b")]
            []) ≤ MAX_HISTORY_ITEMS.
Proof.
  destruct (addToHistory_keeps_latest
              [(1%N, someResult, js "data:,a"); (2%N, someResult, js "data:,b")]
              []) as [_ H]; [done|exact H].
Defined.

Lemma elem_of_toggle (t u : jsstring) l :
  u ∈ toggle t l ↔ (u = t ∧ t ∉ l) ∨ (u ≠ t ∧ u ∈ l).
Proof.
  unfold toggle. case_bool_decide as Ht.
  - rewrite list_elem_of_filter. split.
    + intros [? ?]. by right.
    + intros [[-> ?]|[? ?]]; done.
  - rewrite elem_of_app, list_elem_of_singleton. split.
    + intros [Hu| ->]; [right|by left]. split; [|done]. by intros ->.
    + intros [[-> _]|[_ ?]]; auto.
Qed.

Lemma NoDup_toggle (t : jsstring) l : NoDup l → NoDup (toggle t l).
Proof.
  intros Hl. unfold toggle. case_bool_decide as Ht.
  - by apply NoDup_filter.
  - apply NoDup_app. split_and!; [done| |apply NoDup_singleton].
    intros x Hx ->%list_elem_of_singleton. done.
Qed.

Lemma feedback_step_invariant fb ev :
  NoDup fb.1 ∧ NoDup fb.2 ∧ (∀ t, t ∈ fb.1 → t ∉ fb.2) →
  NoDup (feedbackStep fb ev).1 ∧ NoDup (feedbackStep fb ev).2 ∧
  (∀ t, t ∈ (feedbackStep fb ev).1 → t ∉ (feedbackStep fb ev).2).
Proof.
  intros (H1 & H2 & Hdisj). destruct ev as [t|t|]; simpl.
  - split_and!; [by apply NoDup_toggle|by apply NoDup_filter|].
    intros u [[-> _]|[Hne Hu]]%elem_of_toggle [? ?]%list_elem_of_filter;
      [done|]. by apply (Hdisj u).
  - split_and!; [by apply NoDup_filter|by apply NoDup_toggle|].
    intros u [Hne Hu]%list_elem_of_filter
      [[-> _]|[_ Hu2]]%elem_of_toggle; [done|]. by apply (Hdisj u).
  - split_and!; [constructor|constructor|]. by intros ? ?%elem_of_nil.
Qed.

(** X30: pinned and excluded tags.  Whatever sequence of pin and exclude
    toggles and resets happens, no tag is ever both pinned and excluded and
    neither list holds a tag twice; and a toggle flips the tag in its own
    list, removes it from the other list and leaves all other tags as they
    were. *)
Theorem feedback_lists_stay_disjoint (evs : list FeedbackEvent) :
  let fb := foldl feedbackStep ([], []) evs in
  NoDup fb.1 ∧ NoDup fb.2 ∧ (∀ t, t ∈ fb.1 → t ∉ fb.2) ∧
  (∀ t u,
     (u ∈ (handleTogglePin t fb).1 ↔ (u = t ∧ t ∉ fb.1) ∨ (u ≠ t ∧ u ∈ fb.1)) ∧
     (u ∈ (handleTogglePin t fb).2 ↔ u ≠ t ∧ u ∈ fb.2) ∧
     (u ∈ (handleToggleExclude t fb).2 ↔
        (u = t ∧ t ∉ fb.2) ∨ (u ≠ t ∧ u ∈ fb.2)) ∧
     (u ∈ (handleToggleExclude t fb).1 ↔ u ≠ t ∧ u ∈ fb.1)).
Proof.
  cbn zeta.
  assert (∀ fb,
            NoDup fb.1 ∧ NoDup fb.2 ∧ (∀ t, t ∈ fb.1 → t ∉ fb.2) →
            NoDup (foldl feedbackStep fb evs).1 ∧
            NoDup (foldl feedbackStep fb evs).2 ∧
            (∀ t, t ∈ (foldl feedbackStep fb evs).1 →
                  t ∉ (foldl feedbackStep fb evs).2)) as Hinv.
  { induction evs as [|ev evs IH]; intros fb Hfb; [done|].
    simpl. by apply IH, feedback_step_invariant. }
  destruct (Hinv ([], [])) as (H1 & H2 & H3).
  { simpl. split_and!; [constructor|constructor|].
    by intros ? ?%elem_of_nil. }
  split_and!; [done|done|done|].
  intros t u. simpl. rewrite !elem_of_toggle, !list_elem_of_filter.
  split_and!; done.
Qed.
